(** * dlog: the commit log's storage engine (store, index, segment, log)

    A shallow embedding of [internal/log]: the length-prefixed store file
    behind a buffered writer, the memory-mapped index of fixed-width
    entries, and the log that routes appends and reads over an ordered
    list of segments.

    Unsigned 64-bit values are integers in [Z] with their wrap-around
    written out ([u64]); byte slices are [list byte]; a Go result
    [(value, error)] is a [result], or a pair when the code uses both
    halves.  Run-time panics (slice bounds, nil dereference, oversized
    [make]) are a third outcome, [Panic]. *)

From Stdlib Require Import ZArith List Lia Bool.
From Stdlib Require Import Strings.String Strings.Ascii Strings.Byte.
From Stdlib Require Import Permutation Sorted.
Import ListNotations.
Local Open Scope Z_scope.

Set Implicit Arguments.

(* ================================================================== *)
(** ** Machine integers and byte slices *)

Definition u64 (x : Z) : Z := x mod 2 ^ 64.
Definition u32 (x : Z) : Z := x mod 2 ^ 32.
(** Conversion to the signed 64-bit [int] / [int64]. *)
Definition i64 (x : Z) : Z := (x + 2 ^ 63) mod 2 ^ 64 - 2 ^ 63.

Definition len {A : Type} (l : list A) : Z := Z.of_nat (List.length l).

(** [l[lo:hi]] for in-range bounds. *)
Definition slice {A : Type} (l : list A) (lo hi : Z) : list A :=
  firstn (Z.to_nat (hi - lo)) (skipn (Z.to_nat lo) l).

(** [copy(l[at:at+len(seg)], seg)] for an in-range window. *)
Definition splice {A : Type} (l : list A) (at_ : Z) (seg : list A) : list A :=
  firstn (Z.to_nat at_) l ++ seg ++ skipn (Z.to_nat at_ + List.length seg) l.

Definition byte_of_Z (z : Z) : byte :=
  match Byte.of_N (Z.to_N (z mod 256)) with
  | Some b => b
  | None => x00
  end.

Definition Z_of_byte (b : byte) : Z := Z.of_N (Byte.to_N b).

(** [binary.BigEndian.PutUint32] / [PutUint64]: the [n] low bytes of
    [v], most significant first. *)
Fixpoint be_put (n : nat) (v : Z) : list byte :=
  match n with
  | O => []
  | S k => byte_of_Z (Z.shiftr v (8 * Z.of_nat k)) :: be_put k v
  end.

(** [binary.BigEndian.Uint32] / [Uint64]. *)
Definition be_get (l : list byte) : Z :=
  fold_left (fun acc b => Z.lor (Z.shiftl acc 8) (Z_of_byte b)) l 0.

(* ================================================================== *)
(** ** Errors and results *)

(** The errors of [io], [os], [bufio] and the system calls under them. *)
Inductive os_error : Type :=
| EOF                               (* io.EOF *)
| ErrShortWrite                     (* io.ErrShortWrite *)
| ErrClosed                         (* os.ErrClosed *)
| EINVAL                            (* negative offset or size, empty mapping *)
| ENOSPC.                           (* no room left for the file *)

(** The errors the log hands to its callers: those of the files below
    it, those of the protobuf codec, and its own. *)
Inductive error : Type :=
| OSError (e : os_error)
| ProtoError
| ErrOffsetOutOfRange (off : Z).    (* api.ErrOffsetOutOfRange{Offset: off} *)

Inductive result (E A : Type) : Type :=
| Ok (a : A)
| Err (e : E)
| Panic.
Arguments Ok {E A} a.
Arguments Err {E A} e.
Arguments Panic {E A}.

Definition is_nil {E : Type} (e : option E) : bool :=
  match e with None => true | Some _ => false end.

(* ================================================================== *)
(** ** The operating system's files

    A file carries its bytes, the number of bytes the device lets it
    reach through [write] ([room]), and whether the handle was closed.
    The store opens its file for appending, so [Write] adds at the end. *)

Record File : Type := mkFile {
  Name : string;
  data : list byte;
  room : Z;
  closed : bool
}.

Definition set_data (f : File) (d : list byte) : File :=
  mkFile (Name f) d (room f) (closed f).

(** Bytes of [d] cut or zero-extended to length [n]. *)
Definition resize (d : list byte) (n : Z) : list byte :=
  firstn (Z.to_nat n) d ++ repeat x00 (Z.to_nat n - List.length d).

Module OS.

(** [os.Stat(name).Size()]. *)
Definition Size (f : File) : Z := len (data f).

(** [os.File.Write]: as many bytes as fit, an error when some did not. *)
Definition Write (f : File) (b : list byte) : Z * option os_error * File :=
  if closed f then (0, Some ErrClosed, f)
  else
    let n := Z.min (len b) (Z.max 0 (room f - len (data f))) in
    (n, if n <? len b then Some ENOSPC else None,
     set_data f (data f ++ firstn (Z.to_nat n) b)).

(** [os.File.ReadAt] into a buffer of [k] bytes: the bytes read, and
    [io.EOF] when the file ended before the buffer was full. *)
Definition ReadAt (f : File) (k : Z) (off : Z) : list byte * option os_error :=
  if closed f then ([], Some ErrClosed)
  else if off <? 0 then ([], Some EINVAL)
  else
    let got := firstn (Z.to_nat k) (skipn (Z.to_nat off) (data f)) in
    (got, if len got <? k then Some EOF else None).

(** [os.Truncate(name, n)]: by path, whatever the state of the handle. *)
Definition Truncate (f : File) (n : Z) : option os_error * File :=
  if n <? 0 then (Some EINVAL, f)
  else (None, set_data f (resize (data f) n)).

(** [os.File.Truncate]. *)
Definition FTruncate (f : File) (n : Z) : option os_error * File :=
  if closed f then (Some ErrClosed, f) else Truncate f n.

(** [os.File.Sync]. *)
Definition Sync (f : File) : option os_error :=
  if closed f then Some ErrClosed else None.

(** [os.File.Close]. *)
Definition Close (f : File) : option os_error * File :=
  if closed f then (Some ErrClosed, f)
  else (None, mkFile (Name f) (data f) (room f) true).

End OS.

(** [os.OpenFile] on a file that exists: a new handle on its bytes. *)
Definition reopen (f : File) : File :=
  mkFile (Name f) (data f) (room f) false.

(* ================================================================== *)
(** ** [bufio.Writer] over a file *)

Module Bufio.

Definition defaultBufSize : Z := 4096.

(** [buf] is [b.buf[0:b.n]], the bytes accepted and not yet written;
    [werr] is the sticky [b.err]. *)
Record Writer : Type := mkWriter {
  buf : list byte;
  werr : option os_error
}.

Definition NewWriter : Writer := mkWriter [] None.

Definition Buffered (w : Writer) : Z := len (buf w).
Definition Available (w : Writer) : Z := defaultBufSize - len (buf w).

(** [copy(b.buf[b.n:], p)]: the number of bytes of [p] that fit the
    free part of the buffer. *)
Definition copy_count (avail : Z) (p : list byte) : Z :=
  len (firstn (Z.to_nat avail) p).

Definition Flush (w : Writer) (f : File) : option os_error * Writer * File :=
  match werr w with
  | Some e => (Some e, w, f)
  | None =>
    if Buffered w =? 0 then (None, w, f)
    else
      let '(n, err, f') := OS.Write f (buf w) in
      let err := if (n <? Buffered w) && is_nil err
                 then Some ErrShortWrite else err in
      match err with
      | Some e => (Some e, mkWriter (skipn (Z.to_nat n) (buf w)) (Some e), f')
      | None => (None, mkWriter [] None, f')
      end
  end.

(** The loop of [Writer.Write]: while [p] does not fit and no error
    is pending, either hand [p] to the file directly (empty buffer) or
    fill the buffer and flush it.  [None] is fuel exhaustion. *)
Fixpoint Write_loop (fuel : nat) (w : Writer) (f : File) (p : list byte)
         (nn : Z) : option (Writer * File * list byte * Z) :=
  if (Available w <? len p) && is_nil (werr w) then
    match fuel with
    | O => None
    | S fuel' =>
      if Buffered w =? 0 then
        let '(n, err, f') := OS.Write f p in
        Write_loop fuel' (mkWriter (buf w) err) f'
                   (skipn (Z.to_nat n) p) (nn + n)
      else
        let n := copy_count (Available w) p in
        let w1 := mkWriter (buf w ++ firstn (Z.to_nat n) p) (werr w) in
        let '(_, w2, f2) := Flush w1 f in
        Write_loop fuel' w2 f2 (skipn (Z.to_nat n) p) (nn + n)
    end
  else Some (w, f, p, nn).

(** [Writer.Write]: bytes accepted, error, writer and file after. *)
Definition Write_fuel (fuel : nat) (w : Writer) (f : File) (p : list byte)
  : option (Z * option os_error * Writer * File) :=
  match Write_loop fuel w f p 0 with
  | None => None
  | Some (w', f', p', nn) =>
    match werr w' with
    | Some e => Some (nn, Some e, w', f')
    | None =>
      Some (nn + len p', None, mkWriter (buf w' ++ p') None, f')
    end
  end.

(** Two rounds always suffice (see [Write_fuel_enough]): a flush leaves
    the buffer empty or an error pending, and a direct write takes the
    whole of [p] or leaves an error pending. *)
Definition Write (w : Writer) (f : File) (p : list byte)
  : Z * option os_error * Writer * File :=
  match Write_fuel 2 w f p with
  | Some r => r
  | None => (0, Some ErrShortWrite, w, f)
  end.

End Bufio.

(* ================================================================== *)
(** ** store.go *)

(** [limit]: the bytes that hold a record's length. *)
Definition limit : Z := 8.

(** The largest length [make([]byte, n)] accepts on a 64-bit platform;
    beyond it the runtime panics. *)
Definition maxAlloc : Z := 2 ^ 48.

Module Store.

Record store : Type := mkStore {
  file : File;
  buffer : Bufio.Writer;
  size : Z
}.

(** [os.Stat] on the name of an open file returns its length. *)
Definition newStore (f : File) : store :=
  mkStore f Bufio.NewWriter (u64 (OS.Size f)).

(** [binary.Write(s.buffer, binary.BigEndian, v)] for a [uint64]. *)
Definition binary_Write (w : Bufio.Writer) (f : File) (v : Z)
  : option os_error * Bufio.Writer * File :=
  let '(_, err, w', f') := Bufio.Write w f (be_put 8 v) in (err, w', f').

Definition Append (s : store) (p : list byte) : result os_error (Z * Z) * store :=
  let pos := size s in
  let '(err, w1, f1) := binary_Write (buffer s) (file s) (u64 (len p)) in
  match err with
  | Some e => (Err e, mkStore f1 w1 (size s))
  | None =>
    let '(w, err, w2, f2) := Bufio.Write w1 f1 p in
    match err with
    | Some e => (Err e, mkStore f2 w2 (size s))
    | None =>
      let w := i64 (w + limit) in
      (Ok (u64 w, pos), mkStore f2 w2 (u64 (size s + u64 w)))
    end
  end.

Definition Read (s : store) (pos : Z) : result os_error (list byte) * store :=
  let '(err, w1, f1) := Bufio.Flush (buffer s) (file s) in
  let s1 := mkStore f1 w1 (size s) in
  match err with
  | Some e => (Err e, s1)
  | None =>
    let '(hdr, err) := OS.ReadAt f1 limit (i64 pos) in
    match err with
    | Some e => (Err e, s1)
    | None =>
      let n := be_get hdr in
      if maxAlloc <? n then (Panic, s1)
      else
        let '(b, err) := OS.ReadAt f1 n (i64 (u64 (pos + limit))) in
        match err with
        | Some e => (Err e, s1)
        | None => (Ok b, s1)
        end
    end
  end.

(** [ReadAt] into a buffer of [k] bytes: the bytes read and the error. *)
Definition ReadAt (s : store) (k : Z) (offset : Z)
  : list byte * option os_error * store :=
  let '(err, w1, f1) := Bufio.Flush (buffer s) (file s) in
  let s1 := mkStore f1 w1 (size s) in
  match err with
  | Some e => ([], Some e, s1)
  | None => let '(b, err) := OS.ReadAt f1 k offset in (b, err, s1)
  end.

Definition Close (s : store) : option os_error * store :=
  let '(err, w1, f1) := Bufio.Flush (buffer s) (file s) in
  match err with
  | Some e => (Some e, mkStore f1 w1 (size s))
  | None => let '(err, f2) := OS.Close f1 in (err, mkStore f2 w1 (size s))
  end.

(** Appending a list of payloads, stopping at the first failure. *)
Fixpoint Appends (s : store) (ps : list (list byte))
  : result os_error unit * store :=
  match ps with
  | [] => (Ok tt, s)
  | p :: ps' =>
    match Append s p with
    | (Ok _, s') => Appends s' ps'
    | (Err e, s') => (Err e, s')
    | (Panic, s') => (Panic, s')
    end
  end.

(** The tracked size counts the bytes of the file and of the buffer. *)
Definition tracks (s : store) : Prop :=
  size s = len (data (file s)) + len (Bufio.buf (buffer s)).

(** The handle is open and the device has room for every byte the
    store counts, at offsets an [int64] can name. *)
Definition fits (s : store) : Prop :=
  closed (file s) = false /\ size s <= room (file s) /\ size s < 2 ^ 63.

(** The bytes a list of payloads takes in the store: eight for each
    length and the payload itself. *)
Fixpoint width (ps : list (list byte)) : Z :=
  match ps with
  | [] => 0
  | p :: ps' => limit + len p + width ps'
  end.

(** The bytes the store holds, written or still buffered. *)
Definition content (s : store) : list byte :=
  data (file s) ++ Bufio.buf (buffer s).

End Store.

(* ================================================================== *)
(** ** Configuration

    The [Config] struct is declared in a source file of its own; its
    three fields are the ones [log.go] and the index read, all [uint64]. *)

Record SegmentConfig : Type := mkSegmentConfig {
  MaxStoreBytes : Z;
  MaxIndexBytes : Z;
  InitialOffset : Z
}.

Record Config : Type := mkConfig { Segment : SegmentConfig }.

(* ================================================================== *)
(** ** The index: fixed-width entries in a memory-mapped file *)

Definition offsetWidth : Z := 4.
Definition posWidth : Z := 8.
Definition entryWidth : Z := offsetWidth + posWidth.

Module Gommap.

(** [gommap.Map(fd, PROT_READ|PROT_WRITE, MAP_SHARED)]: the mapping
    covers the file as long as it is now; an empty mapping is refused. *)
Definition Map (f : File) : result os_error (list byte) :=
  if closed f then Err ErrClosed
  else if len (data f) =? 0 then Err EINVAL
  else Ok (data f).

(** [mmap.Sync(MS_SYNC)]: the mapped bytes reach the file. *)
Definition Sync (m : list byte) (f : File) : File :=
  set_data f (m ++ skipn (List.length m) (data f)).

End Gommap.

Module Index.

Record index : Type := mkIndex {
  file : File;
  mmap : list byte;
  size : Z
}.

(** The index, or the error, and the file as [newIndex] leaves it. *)
Definition newIndex (f : File) (c : Config) : result os_error index * File :=
  let size := u64 (OS.Size f) in
  let '(err, f1) := OS.Truncate f (i64 (MaxIndexBytes (Segment c))) in
  match err with
  | Some e => (Err e, f1)
  | None =>
    match Gommap.Map f1 with
    | Ok m => (Ok (mkIndex f1 m size), f1)
    | Err e => (Err e, f1)
    | Panic => (Panic, f1)
    end
  end.

Definition Close (i : index) : option os_error * index :=
  let f1 := Gommap.Sync (mmap i) (file i) in
  let i1 := mkIndex f1 (mmap i) (size i) in
  match OS.Sync f1 with
  | Some e => (Some e, i1)
  | None =>
    let '(err, f2) := OS.FTruncate f1 (i64 (size i)) in
    match err with
    | Some e => (Some e, mkIndex f2 (mmap i) (size i))
    | None =>
      let '(err, f3) := OS.Close f2 in (err, mkIndex f3 (mmap i) (size i))
    end
  end.

(** [offset] is the [int64] argument; the sentinel is [-1]. *)
Definition Read (i : index) (offset : Z) : result os_error (Z * Z) :=
  if size i =? 0 then Err EOF
  else
    let output :=
      if offset =? -1 then u32 (u64 (size i / u64 entryWidth - 1))
      else u32 offset in
    let pos := u64 (output * u64 entryWidth) in
    if size i <? u64 (pos + u64 entryWidth) then Err EOF
    else if len (mmap i) <? pos + entryWidth then Panic
    else
      Ok (be_get (slice (mmap i) pos (pos + offsetWidth)),
          be_get (slice (mmap i) (pos + offsetWidth) (pos + entryWidth))).

(** The slice expressions [m[lo:mid]] and [m[mid:hi]] are in bounds. *)
Definition in_bounds (m : list byte) (lo mid hi : Z) : bool :=
  (lo <=? mid) && (mid <=? hi) && (hi <=? len m).

Definition Write (i : index) (offset pos : Z) : result os_error unit * index :=
  if len (mmap i) <? u64 (size i + u64 entryWidth) then (Err EOF, i)
  else
    let lo := size i in
    let mid := u64 (size i + u64 offsetWidth) in
    let hi := u64 (size i + u64 entryWidth) in
    if negb (in_bounds (mmap i) lo mid hi) then (Panic, i)
    else
      let m1 := splice (mmap i) lo (be_put 4 offset) in
      let m2 := splice m1 mid (be_put 8 pos) in
      (Ok tt, mkIndex (file i) m2 (u64 (size i + u64 entryWidth))).

Definition Name (i : index) : string := Name (file i).

(** Writing a list of entries, stopping at the first failure. *)
Fixpoint Writes (i : index) (es : list (Z * Z)) : result os_error unit * index :=
  match es with
  | [] => (Ok tt, i)
  | (off, pos) :: es' =>
    match Write i off pos with
    | (Ok _, i') => Writes i' es'
    | r => r
    end
  end.

(** The bytes of one entry. *)
Definition entry (e : Z * Z) : list byte :=
  be_put 4 (fst e) ++ be_put 8 (snd e).

(** The number of entries the size stands for, and sizes that are a
    whole number of entries. *)
Definition count (i : index) : Z := size i / entryWidth.

Definition whole (i : index) : Prop :=
  0 <= size i /\ size i mod entryWidth = 0.

(** The entry that the map holds at position [k]. *)
Definition entry_at (i : index) (k : Z) : Z * Z :=
  (be_get (slice (mmap i) (k * entryWidth) (k * entryWidth + offsetWidth)),
   be_get (slice (mmap i) (k * entryWidth + offsetWidth)
                 (k * entryWidth + entryWidth))).

End Index.

(* ================================================================== *)
(** ** Records and their wire form

    [api.Record] and its protobuf encoding are generated code; the
    encoding is an interface here, [None] standing for its errors. *)

Record Record_ : Type := mkRecord {
  Value : list byte;
  Offset : Z
}.

Class Codec : Type := {
  Marshal : Record_ -> option (list byte);
  Unmarshal : list byte -> option Record_
}.

(* ================================================================== *)
(** ** File names: [path.Ext], [strings.TrimSuffix], [strconv.ParseUint] *)

Definition chars (s : string) : list ascii := list_ascii_of_string s.

(** [path.Ext]: scan from the end for a dot, giving up at a slash;
    [r] is what is left to scan, reversed, and [acc] what was passed. *)
Fixpoint ext_scan (r acc : list ascii) : list ascii :=
  match r with
  | [] => []
  | c :: r' =>
    if Ascii.eqb c "/" then []
    else if Ascii.eqb c "." then c :: acc
    else ext_scan r' (c :: acc)
  end.

Definition Path_Ext (path : string) : string :=
  string_of_list_ascii (ext_scan (rev (chars path)) []).

Fixpoint list_eqb (a b : list ascii) : bool :=
  match a, b with
  | [], [] => true
  | x :: a', y :: b' => Ascii.eqb x y && list_eqb a' b'
  | _, _ => false
  end.

Definition HasSuffix (s suffix : list ascii) : bool :=
  (List.length suffix <=? List.length s)%nat
  && list_eqb (skipn (List.length s - List.length suffix) s) suffix.

Definition TrimSuffix (s suffix : string) : string :=
  if HasSuffix (chars s) (chars suffix)
  then string_of_list_ascii
         (firstn (List.length (chars s) - List.length (chars suffix)) (chars s))
  else s.

Inductive NumError : Type := ErrSyntax | ErrRange.

Definition maxUint64 : Z := 2 ^ 64 - 1.

(** The value of a decimal digit; letters would be digits of a larger
    base, and are refused with every other byte. *)
Definition digit_value (c : ascii) : option Z :=
  let n := Z.of_nat (nat_of_ascii c) in
  if (48 <=? n) && (n <=? 57) then Some (n - 48) else None.

(** The loop of [strconv.ParseUint(s, 10, 0)]. *)
Fixpoint ParseUint_loop (s : list ascii) (n : Z) : Z * option NumError :=
  match s with
  | [] => (n, None)
  | c :: s' =>
    match digit_value c with
    | None => (0, Some ErrSyntax)
    | Some d =>
      if maxUint64 / 10 + 1 <=? n then (maxUint64, Some ErrRange)
      else
        let n := u64 (n * 10) in
        let n1 := u64 (n + d) in
        if (n1 <? n) || (maxUint64 <? n1) then (maxUint64, Some ErrRange)
        else ParseUint_loop s' n1
    end
  end.

Definition ParseUint (s : string) : Z * option NumError :=
  match chars s with
  | [] => (0, Some ErrSyntax)
  | cs => ParseUint_loop cs 0
  end.

Definition digit_char (d : Z) : ascii := ascii_of_nat (Z.to_nat (48 + d)).

Fixpoint digits (fuel : nat) (n : Z) (acc : list ascii) : list ascii :=
  match fuel with
  | O => acc
  | S k =>
    let acc' := digit_char (n mod 10) :: acc in
    if n <? 10 then acc' else digits k (n / 10) acc'
  end.

(** Modelled from the spec: the formatting of a segment's file names
    (segment.go) is missing; [<baseOffset>] is "the decimal
    representation of an unsigned 64-bit integer with no zero-padding"
    (at most 20 digits). *)
Definition FormatUint (n : Z) : string :=
  string_of_list_ascii (digits 20 n []).

(* ================================================================== *)
(** ** The log's directory

    The files of the directory as they are when opened, and the room a
    file created in it is given.  An open file's bytes live in its
    handle; each file is held by at most one segment. *)

Record Directory : Type := mkDir {
  entries : list File;
  quota : Z
}.

(** [os.OpenFile(name, O_RDWR|O_CREATE|..., 0644)]. *)
Definition OpenFile (d : Directory) (name : string) : File * Directory :=
  match find (fun f => String.eqb (Name f) name) (entries d) with
  | Some f => (mkFile (Name f) (data f) (room f) false, d)
  | None =>
    let f := mkFile name [] (quota d) false in
    (f, mkDir (entries d ++ [f]) (quota d))
  end.

(** [ioutil.ReadDir]: the names in the directory.  (Go lists them by
    name; [setup] sorts what it parses from them.) *)
Definition ReadDir (d : Directory) : list string := map Name (entries d).

(* ================================================================== *)
(** ** The segment *)

(** Modelled from the spec: the file names of a segment (segment.go)
    are missing; "each segment contributes two files:
    [<baseOffset>.store] and [<baseOffset>.index]". *)
Definition store_name (baseOffset : Z) : string :=
  (FormatUint baseOffset ++ ".store")%string.

Definition index_name (baseOffset : Z) : string :=
  (FormatUint baseOffset ++ ".index")%string.

Module Segment.

Record segment : Type := mkSegment {
  store : Store.store;
  index : Index.index;
  baseOffset : Z;
  nextOffset : Z;
  config : Config
}.

(** Modelled from the spec: [newSegment] (segment.go) is missing.
    "Open/create [<baseOffset>.store]; instantiate store.  Open/create
    [<baseOffset>.index]; instantiate index (this grows and maps it).
    Derive [nextOffset]: call [index.read(-1)].  If it fails empty,
    [nextOffset := baseOffset].  Otherwise
    [nextOffset := baseOffset + last_rel_offset + 1]." *)
Definition newSegment (dir : Directory) (baseOffset : Z) (c : Config)
  : result error segment * Directory :=
  let '(storeFile, dir1) := OpenFile dir (store_name baseOffset) in
  let st := Store.newStore storeFile in
  let '(indexFile, dir2) := OpenFile dir1 (index_name baseOffset) in
  match Index.newIndex indexFile c with
  | (Err e, _) => (Err (OSError e), dir2)
  | (Panic, _) => (Panic, dir2)
  | (Ok idx, _) =>
    match Index.Read idx (-1) with
    | Err _ => (Ok (mkSegment st idx baseOffset baseOffset c), dir2)
    | Ok (off, _) =>
      (Ok (mkSegment st idx baseOffset (u64 (baseOffset + off + 1)) c), dir2)
    | Panic => (Panic, dir2)
    end
  end.

(** Modelled from the spec: [segment.Append] (segment.go) is missing.
    "The record is assigned [offset := nextOffset].  The record
    is serialized to bytes [b]; call [store.append(b) -> (_, pos)];
    call [index.write(nextOffset - baseOffset, pos)]; increment
    [nextOffset]; return the assigned offset." *)
Definition Append `{Codec} (s : segment) (record : Record_)
  : result error Z * segment :=
  let cur := nextOffset s in
  match Marshal (mkRecord (Value record) cur) with
  | None => (Err ProtoError, s)
  | Some p =>
    let '(r, st) := Store.Append (store s) p in
    let s1 := mkSegment st (index s) (baseOffset s) (nextOffset s) (config s) in
    match r with
    | Err e => (Err (OSError e), s1)
    | Panic => (Panic, s1)
    | Ok (_, pos) =>
      let '(r, idx) :=
        Index.Write (index s) (u32 (nextOffset s - baseOffset s)) pos in
      let s2 := mkSegment st idx (baseOffset s) (nextOffset s) (config s) in
      match r with
      | Err e => (Err (OSError e), s2)
      | Panic => (Panic, s2)
      | Ok _ =>
        (Ok cur,
         mkSegment st idx (baseOffset s) (u64 (nextOffset s + 1)) (config s))
      end
    end
  end.

(** Modelled from the spec: [segment.Read] (segment.go) is missing.
    "Compute [rel = absolute_offset - baseOffset];
    [(_, pos) = index.read(rel)]; [bytes = store.read(pos)];
    deserialize; return.  The returned record's offset field is set to
    the absolute offset." *)
Definition Read `{Codec} (s : segment) (off : Z)
  : result error Record_ * segment :=
  match Index.Read (index s) (i64 (u64 (off - baseOffset s))) with
  | Err e => (Err (OSError e), s)
  | Panic => (Panic, s)
  | Ok (_, pos) =>
    let '(r, st) := Store.Read (store s) pos in
    let s1 := mkSegment st (index s) (baseOffset s) (nextOffset s) (config s) in
    match r with
    | Err e => (Err (OSError e), s1)
    | Panic => (Panic, s1)
    | Ok b =>
      match Unmarshal b with
      | Some record => (Ok (mkRecord (Value record) off), s1)
      | None => (Err ProtoError, s1)
      end
    end
  end.

(** Modelled from the spec: [segment.IsMaxed] (segment.go) is missing.
    "True when [store.size >= MaxStoreBytes] or
    [index.size >= MaxIndexBytes]." *)
Definition IsMaxed (s : segment) : bool :=
  (MaxStoreBytes (Segment (config s)) <=? Store.size (store s))
  || (MaxIndexBytes (Segment (config s)) <=? Index.size (index s)).

(** Modelled from the spec: [segment.Close] (segment.go) is missing.
    "Close index then store." *)
Definition Close (s : segment) : option error * segment :=
  let '(err, idx) := Index.Close (index s) in
  let s1 := mkSegment (store s) idx (baseOffset s) (nextOffset s) (config s) in
  match err with
  | Some e => (Some (OSError e), s1)
  | None =>
    let '(err, st) := Store.Close (store s) in
    (option_map OSError err,
     mkSegment st idx (baseOffset s) (nextOffset s) (config s))
  end.

End Segment.

(* ================================================================== *)
(** ** log.go *)

(** [sort.Slice] with [baseOffsets[i] < baseOffsets[j]]: ascending. *)
Fixpoint sort_insert (x : Z) (l : list Z) : list Z :=
  match l with
  | [] => [x]
  | y :: l' => if x <=? y then x :: l else y :: sort_insert x l'
  end.

Fixpoint sort_Slice (l : list Z) : list Z :=
  match l with
  | [] => []
  | x :: l' => sort_insert x (sort_Slice l')
  end.

(** [l[i] = x] for a slice of pointers whose target is replaced. *)
Fixpoint list_set {A : Type} (l : list A) (i : nat) (x : A) : list A :=
  match l, i with
  | [], _ => []
  | _ :: l', O => x :: l'
  | y :: l', S i' => y :: list_set l' i' x
  end.

Module Log.

(** [segments] holds the segment objects in the order they were
    appended; [activeSegment] points at one of them by position
    ([None] is the nil pointer).  A nil slice is the empty list. *)
Record Log : Type := mkLog {
  Dir : Directory;
  Config : Config;
  activeSegment : option nat;
  segments : list Segment.segment
}.

Definition newSegment (l : Log) (off : Z) : result error unit * Log :=
  match Segment.newSegment (Dir l) off (Config l) with
  | (Ok s, d) =>
    (Ok tt, mkLog d (Config l) (Some (List.length (segments l)))
                  (segments l ++ [s]))
  | (Err e, d) => (Err e, mkLog d (Config l) (activeSegment l) (segments l))
  | (Panic, d) => (Panic, mkLog d (Config l) (activeSegment l) (segments l))
  end.

(** The loop of [setup]: a segment for [baseOffsets[i]], then [i] is
    advanced twice. *)
Fixpoint setup_loop (l : Log) (baseOffsets : list Z) : result error unit * Log :=
  match baseOffsets with
  | [] => (Ok tt, l)
  | b :: rest =>
    match newSegment l b with
    | (Ok _, l1) =>
      match rest with
      | [] => (Ok tt, l1)
      | _ :: rest' => setup_loop l1 rest'
      end
    | r => r
    end
  end.

Definition name_offset (name : string) : Z :=
  fst (ParseUint (TrimSuffix name (Path_Ext name))).

Definition setup (l : Log) : result error unit * Log :=
  let files := ReadDir (Dir l) in
  let baseOffsets := sort_Slice (map name_offset files) in
  match setup_loop l baseOffsets with
  | (Ok _, l1) =>
    match segments l1 with
    | [] => newSegment l1 (InitialOffset (Segment (Config l1)))
    | _ => (Ok tt, l1)
    end
  | r => r
  end.

Definition NewLog (dir : Directory) c : result error unit * Log :=
  let c :=
    if MaxStoreBytes (Segment c) =? 0
    then mkConfig (mkSegmentConfig 1024 (MaxIndexBytes (Segment c))
                                   (InitialOffset (Segment c)))
    else c in
  let c :=
    if MaxIndexBytes (Segment c) =? 0
    then mkConfig (mkSegmentConfig (MaxStoreBytes (Segment c)) 1024
                                   (InitialOffset (Segment c)))
    else c in
  setup (mkLog dir c None []).

(** [Ok (offset, err)] is [return offset, err]; [Err e] is
    [return 0, e]. *)
Definition Append `{Codec} (l : Log) (record : Record_)
  : result error (Z * option error) * Log :=
  match activeSegment l with
  | None => (Panic, l)
  | Some a =>
    match nth_error (segments l) a with
    | None => (Panic, l)
    | Some s =>
      let '(r, s') := Segment.Append s record in
      let l1 := mkLog (Dir l) (Config l) (activeSegment l)
                      (list_set (segments l) a s') in
      match r with
      | Err e => (Err e, l1)
      | Panic => (Panic, l1)
      | Ok offset =>
        if Segment.IsMaxed s' then
          match newSegment l1 (u64 (offset + 1)) with
          | (Ok _, l2) => (Ok (offset, None), l2)
          | (Err e, l2) => (Ok (offset, Some e), l2)
          | (Panic, l2) => (Panic, l2)
          end
        else (Ok (offset, None), l1)
      end
    end
  end.

Definition holds (offset : Z) (s : Segment.segment) : bool :=
  (Segment.baseOffset s <=? offset) && (offset <? Segment.nextOffset s).

(** The scan of [Read]: the position of the first segment that holds
    the offset. *)
Fixpoint scan (segs : list Segment.segment) (offset : Z) : option nat :=
  match segs with
  | [] => None
  | s :: segs' =>
    if holds offset s then Some O
    else option_map S (scan segs' offset)
  end.

Definition Read `{Codec} (l : Log) (offset : Z) : result error Record_ * Log :=
  match scan (segments l) offset with
  | None => (Err (ErrOffsetOutOfRange offset), l)
  | Some k =>
    match nth_error (segments l) k with
    | None => (Panic, l)
    | Some s =>
      if Segment.nextOffset s <=? offset
      then (Err (ErrOffsetOutOfRange offset), l)
      else
        let '(r, s') := Segment.Read s offset in
        (r, mkLog (Dir l) (Config l) (activeSegment l)
                  (list_set (segments l) k s'))
    end
  end.

(** The loop of [Close]: the segments in order, up to the first error. *)
Fixpoint Close_loop (segs : list Segment.segment)
  : option error * list Segment.segment :=
  match segs with
  | [] => (None, [])
  | s :: rest =>
    match Segment.Close s with
    | (Some e, s') => (Some e, s' :: rest)
    | (None, s') =>
      let '(err, rest') := Close_loop rest in (err, s' :: rest')
    end
  end.

Definition Close (l : Log) : option error * Log :=
  let '(err, segs) := Close_loop (segments l) in
  (err, mkLog (Dir l) (Config l) (activeSegment l) segs).

(** [originReader]: a store and the offset of the next byte to read. *)
Record originReader : Type := mkOriginReader {
  store : Store.store;
  offset : Z
}.

(** [originReader.Read] into a buffer of [k] bytes. *)
Definition originReader_Read (o : originReader) (k : Z)
  : list byte * option os_error * originReader :=
  let '(b, err, st) := Store.ReadAt (store o) k (offset o) in
  (b, err, mkOriginReader st (i64 (offset o + i64 (len b)))).

(** The readers that [Reader] hands to [io.MultiReader]: one per
    segment, in order, each at offset 0 of the segment's store. *)
Definition Reader (l : Log) : list originReader :=
  map (fun s => mkOriginReader (Segment.store s) 0) (segments l).

End Log.

(* ================================================================== *)
(** ** Invariants of the log *)

(** Each segment starts at the offset where the one before it ends. *)
Fixpoint contiguous (segs : list Segment.segment) : Prop :=
  match segs with
  | [] => True
  | s1 :: rest =>
    match rest with
    | [] => True
    | s2 :: _ => Segment.baseOffset s2 = Segment.nextOffset s1
    end /\ contiguous rest
  end.

(** No segment ends before it starts. *)
Definition ordered (segs : list Segment.segment) : Prop :=
  Forall (fun s => Segment.baseOffset s <= Segment.nextOffset s) segs.

(** The active segment is the last of the list. *)
Definition active_last (l : Log.Log) : Prop :=
  exists segs s,
    Log.segments l = segs ++ [s]
    /\ Log.activeSegment l = Some (List.length segs).

(** The index can be mapped: [MaxIndexBytes] is positive and an [int64]. *)
Definition mappable (c : Config) : Prop :=
  0 < i64 (MaxIndexBytes (Segment c)).

(** No index file of the directory is longer than the map will be. *)
Definition index_files_fit (d : Directory) (c : Config) : Prop :=
  forall f b,
    In f (entries d) -> Name f = index_name b ->
    len (data f) <= i64 (MaxIndexBytes (Segment c)).

(** The listing of a directory that holds the two files of each base
    offset in [bs] and nothing else. *)
Definition paired_listing (bs : list Z) : list string :=
  flat_map (fun b => [store_name b; index_name b]) bs.

(** A byte that is a decimal digit, with its value. *)
Definition is_digit (c : ascii) : Prop :=
  exists d, 0 <= d <= 9 /\ digit_value c = Some d
            /\ Z.of_nat (nat_of_ascii c) - 48 = d.

(** The value of a run of decimal digits read after [a]. *)
Definition digits_value (ds : list ascii) (a : Z) : Z :=
  fold_left (fun a c => a * 10 + (Z.of_nat (nat_of_ascii c) - 48)) ds a.

(** A codec for examples: the value's bytes as they are. *)
Definition plain_codec : Codec :=
  {| Marshal := fun r => Some (Value r);
     Unmarshal := fun b => Some (mkRecord b 0) |}.

(** A map in which the twelve bytes at [at_] are the two fields of an
    entry and every other byte is the one of [m]. *)
Definition written (m : list byte) (at_ offset pos : Z) : list byte :=
  firstn (Z.to_nat at_) m ++ be_put 4 offset ++ be_put 8 pos
    ++ skipn (Z.to_nat (at_ + entryWidth)) m.

(** Indexes over a 24-byte map: as [newIndex] leaves an empty file, after
    one entry, after two (no room left), and as it leaves a 5-byte file. *)
Definition index_empty : Index.index :=
  Index.mkIndex (mkFile "0.index" (repeat x00 24) 1000 false) (repeat x00 24) 0.
Definition index_one : Index.index := snd (Index.Write index_empty 7 99).
Definition index_full : Index.index :=
  snd (Index.Writes index_empty [(0, 0); (1, 10)]).
Definition index_torn : Index.index :=
  Index.mkIndex (mkFile "0.index" (repeat x00 24) 1000 false) (repeat x00 24) 5.

Definition empty_index_file : File := mkFile "0.index" [] 1000 false.

(** An index file of three entries, and a configuration whose index
    holds two. *)
Definition three_entries : File :=
  mkFile "0.index" (flat_map Index.entry [(0, 0); (1, 10); (2, 20)]) 1000 false.
Definition config24 : Config := mkConfig (mkSegmentConfig 20 24 0).

(** A directory left by a log of two segments, listed by file name. *)
Definition dir_two_segments : Directory :=
  mkDir [mkFile "0.index" [] 1000 false; mkFile "0.store" [] 1000 false;
         mkFile "2.index" [] 1000 false; mkFile "2.store" [] 1000 false]
        1000.

Definition hello : list byte := [x68; x65; x6c; x6c; x6f].

(** A fresh store on an empty file with room for 100 bytes, and one on a
    device with room for 2. *)
Definition store0 : Store.store :=
  Store.newStore (mkFile "0.store" [] 100 false).
Definition store_cramped : Store.store :=
  Store.newStore (mkFile "0.store" [] 2 false).

(** A log on an empty directory after two appends of [hello]: with
    [MaxStoreBytes = 20] the second append fills the first segment. *)
Definition log_fresh : Log.Log :=
  Eval vm_compute in snd (Log.NewLog (mkDir [] 1000) config24).
Definition log_one : Log.Log :=
  Eval vm_compute in snd (@Log.Append plain_codec log_fresh (mkRecord hello 0)).
Definition log_two : Log.Log :=
  Eval vm_compute in snd (@Log.Append plain_codec log_one (mkRecord hello 0)).

(** A segment to stand for "none" when one is picked by position. *)
Definition segment_zero : Segment.segment :=
  Segment.mkSegment store0 index_empty 0 0 config24.
Definition log_two_first : Segment.segment :=
  nth 0 (Log.segments log_two) segment_zero.
Definition log_two_active : Segment.segment :=
  nth 1 (Log.segments log_two) segment_zero.

(** The entries of a slice at even positions: those the loop of [setup]
    visits. *)
Fixpoint every_other (l : list Z) : list Z :=
  match l with
  | [] => []
  | x :: rest =>
    x :: match rest with
         | [] => []
         | _ :: rest' => every_other rest'
         end
  end.

(** The configuration [NewLog] works with: zero limits become 1024. *)
Definition with_defaults (c : Config) : Config :=
  mkConfig
    (mkSegmentConfig
       (if MaxStoreBytes (Segment c) =? 0 then 1024
        else MaxStoreBytes (Segment c))
       (if MaxIndexBytes (Segment c) =? 0 then 1024
        else MaxIndexBytes (Segment c))
       (InitialOffset (Segment c))).

(** A segment whose parts agree: the store's size counts its bytes,
    the index holds one whole entry for each offset from [baseOffset]
    up to [nextOffset], within its map, and the offsets leave room for
    one more record. *)
Definition segment_ok (s : Segment.segment) : Prop :=
  Store.tracks (Segment.store s)
  /\ Store.size (Segment.store s) + limit < 2 ^ 63
  /\ Index.whole (Segment.index s)
  /\ Index.size (Segment.index s) <= len (Index.mmap (Segment.index s))
  /\ Index.count (Segment.index s)
     = Segment.nextOffset s - Segment.baseOffset s
  /\ Segment.nextOffset s - Segment.baseOffset s < 2 ^ 32
  /\ 0 <= Segment.baseOffset s
  /\ Segment.nextOffset s + 1 < 2 ^ 64.

(** A directory with the files of segment 0 and a store file without
    its index, and a configuration that leaves the limits to [NewLog]. *)
Definition dir_stray : Directory :=
  mkDir [mkFile "0.index" [] 1000 false; mkFile "0.store" [] 1000 false;
         mkFile "5.store" [] 1000 false]
        1000.
Definition config_zero : Config := mkConfig (mkSegmentConfig 0 0 0).

(* ================================================================== *)
(** * Properties *)

(** ** Lists and lengths *)

Lemma len_nonneg {A} (l : list A) : 0 <= len l.
Proof. unfold len. lia. Qed.

Lemma len_app {A} (a b : list A) : len (a ++ b) = len a + len b.
Proof. unfold len. rewrite length_app. lia. Qed.

Lemma len_nil {A} : len (@nil A) = 0.
Proof. reflexivity. Qed.

Lemma len_firstn {A} (l : list A) (n : Z) :
  len (firstn (Z.to_nat n) l) = Z.min (Z.max 0 n) (len l).
Proof. unfold len. rewrite length_firstn. lia. Qed.

Lemma len_skipn {A} (l : list A) (n : Z) :
  len (skipn (Z.to_nat n) l) = len l - Z.min (Z.max 0 n) (len l).
Proof. unfold len. rewrite length_skipn. lia. Qed.

Lemma firstn_len_all {A} (l : list A) (n : Z) :
  len l <= n -> firstn (Z.to_nat n) l = l.
Proof. unfold len. intros H. apply firstn_all2. lia. Qed.

Lemma skipn_len_all {A} (l : list A) (n : Z) :
  len l <= n -> skipn (Z.to_nat n) l = [].
Proof. unfold len. intros H. apply skipn_all2. lia. Qed.

Lemma skipn_len_app {A} (a b : list A) : skipn (Z.to_nat (len a)) (a ++ b) = b.
Proof.
  unfold len. rewrite Nat2Z.id, skipn_app, skipn_all, Nat.sub_diag.
  reflexivity.
Qed.

Lemma firstn_len_app {A} (a b : list A) : firstn (Z.to_nat (len a)) (a ++ b) = a.
Proof.
  unfold len. rewrite Nat2Z.id, firstn_app, firstn_all, Nat.sub_diag.
  simpl. apply app_nil_r.
Qed.

(** ** Bytes and big-endian fields *)

Lemma Z_of_byte_range (b : byte) : 0 <= Z_of_byte b < 256.
Proof.
  unfold Z_of_byte. pose proof (Byte.to_N_bounded b). lia.
Qed.

Lemma Z_of_byte_of_Z (z : Z) : Z_of_byte (byte_of_Z z) = z mod 256.
Proof.
  unfold Z_of_byte, byte_of_Z.
  assert (Hr : 0 <= z mod 256 < 256) by (apply Z.mod_pos_bound; lia).
  destruct (Byte.of_N (Z.to_N (z mod 256))) as [b|] eqn:E.
  - apply Byte.to_of_N in E. rewrite E. lia.
  - apply Byte.of_N_None_iff in E. lia.
Qed.

Lemma lor_shiftl_byte (a b : Z) :
  0 <= a -> 0 <= b < 256 -> Z.lor (Z.shiftl a 8) b = a * 256 + b.
Proof.
  intros Ha Hb.
  rewrite Z.shiftl_mul_pow2 by lia. change (2 ^ 8) with 256.
  rewrite <- Z.lxor_lor.
  - symmetry. apply Z.add_nocarry_lxor. apply Z.bits_inj'. intros n Hn.
    rewrite Z.land_spec, Z.bits_0.
    destruct (Z.ltb_spec n 8).
    + change 256 with (2 ^ 8). rewrite Z.mul_pow2_bits_low by lia. reflexivity.
    + destruct (Z.eqb_spec b 0) as [->|Hnz].
      * rewrite Z.bits_0. apply andb_false_r.
      * rewrite (Z.bits_above_log2 b n); [apply andb_false_r | lia |].
        assert (Z.log2 b < 8) by (apply Z.log2_lt_pow2; lia). lia.
  - apply Z.bits_inj'. intros n Hn.
    rewrite Z.land_spec, Z.bits_0.
    destruct (Z.ltb_spec n 8).
    + change 256 with (2 ^ 8). rewrite Z.mul_pow2_bits_low by lia. reflexivity.
    + destruct (Z.eqb_spec b 0) as [->|Hnz].
      * rewrite Z.bits_0. apply andb_false_r.
      * rewrite (Z.bits_above_log2 b n); [apply andb_false_r | lia |].
        assert (Z.log2 b < 8) by (apply Z.log2_lt_pow2; lia). lia.
Qed.

Lemma length_be_put (n : nat) (v : Z) : List.length (be_put n v) = n.
Proof. induction n; simpl; congruence. Qed.

Lemma len_be_put (n : nat) (v : Z) : len (be_put n v) = Z.of_nat n.
Proof. unfold len. now rewrite length_be_put. Qed.

Lemma be_fold_put (n : nat) (v acc : Z) :
  0 <= acc ->
  fold_left (fun a b => Z.lor (Z.shiftl a 8) (Z_of_byte b)) (be_put n v) acc
  = acc * 2 ^ (8 * Z.of_nat n) + v mod 2 ^ (8 * Z.of_nat n).
Proof.
  revert acc. induction n as [|k IH]; intros acc Hacc.
  - simpl. rewrite Z.mod_1_r. lia.
  - cbn [be_put fold_left].
    rewrite Z_of_byte_of_Z, Z.shiftr_div_pow2 by lia.
    assert (Hb : 0 <= (v / 2 ^ (8 * Z.of_nat k)) mod 256 < 256)
      by (apply Z.mod_pos_bound; lia).
    rewrite lor_shiftl_byte by assumption.
    rewrite IH by lia.
    replace (8 * Z.of_nat (S k)) with (8 * Z.of_nat k + 8) by lia.
    rewrite Z.pow_add_r by lia. change (2 ^ 8) with 256.
    assert (Hp : 0 < 2 ^ (8 * Z.of_nat k)) by (apply Z.pow_pos_nonneg; lia).
    rewrite (Z.rem_mul_r v (2 ^ (8 * Z.of_nat k)) 256) by lia.
    ring.
Qed.

Lemma be_get_put (n : nat) (v : Z) :
  be_get (be_put n v) = v mod 2 ^ (8 * Z.of_nat n).
Proof. unfold be_get. rewrite be_fold_put by lia. lia. Qed.

Lemma be_get_put64 (v : Z) : 0 <= v < 2 ^ 64 -> be_get (be_put 8 v) = v.
Proof.
  intros H. rewrite be_get_put. change (8 * Z.of_nat 8) with 64.
  apply Z.mod_small. lia.
Qed.

Lemma be_get_put32 (v : Z) : 0 <= v < 2 ^ 32 -> be_get (be_put 4 v) = v.
Proof.
  intros H. rewrite be_get_put. change (8 * Z.of_nat 4) with 32.
  apply Z.mod_small. lia.
Qed.

(** ** Files and the buffered writer *)

Lemma OS_Write_data (f f' : File) (b : list byte) (n : Z) (err : option os_error) :
  OS.Write f b = (n, err, f') ->
  data f' = data f ++ firstn (Z.to_nat n) b /\ 0 <= n <= len b
  /\ room f' = room f /\ closed f' = closed f.
Proof.
  unfold OS.Write. pose proof (len_nonneg b).
  destruct (closed f) eqn:Ec; intros E; inversion E; subst; clear E; simpl.
  - rewrite app_nil_r. repeat split; auto; lia.
  - repeat split; auto; lia.
Qed.

Lemma OS_Write_ok (f f' : File) (b : list byte) (n : Z) :
  OS.Write f b = (n, None, f') ->
  n = len b /\ data f' = data f ++ b /\ closed f = false.
Proof.
  unfold OS.Write.
  destruct (closed f) eqn:Ec; intros E; [discriminate|].
  inversion E as [[Hn He Hf]]; clear E.
  destruct (Z.ltb_spec (Z.min (len b) (Z.max 0 (room f - len (data f)))) (len b));
    [discriminate|].
  assert (Hmin : Z.min (len b) (Z.max 0 (room f - len (data f))) = len b) by lia.
  rewrite Hmin. simpl. rewrite firstn_len_all by lia. auto.
Qed.

Lemma OS_Write_fits (f : File) (b : list byte) :
  closed f = false -> len (data f) + len b <= room f ->
  OS.Write f b = (len b, None, set_data f (data f ++ b)).
Proof.
  intros Hc Hr. unfold OS.Write. rewrite Hc.
  pose proof (len_nonneg b). pose proof (len_nonneg (data f)).
  replace (Z.min (len b) (Z.max 0 (room f - len (data f)))) with (len b) by lia.
  rewrite Z.ltb_irrefl, firstn_len_all by lia. reflexivity.
Qed.

(** Whatever a flush does, no byte is lost or invented: the file followed
    by the buffer reads the same before and after. *)
Lemma Flush_content (w w' : Bufio.Writer) (f f' : File) (e : option os_error) :
  Bufio.Flush w f = (e, w', f') ->
  data f' ++ Bufio.buf w' = data f ++ Bufio.buf w
  /\ room f' = room f /\ closed f' = closed f
  /\ Bufio.werr w' = e
  /\ (e = None -> Bufio.buf w' = [] /\ Bufio.werr w = None).
Proof.
  unfold Bufio.Flush.
  destruct (Bufio.werr w) as [e0|] eqn:Ew.
  - intros E; inversion E; subst. repeat split; auto. discriminate.
  - destruct (Z.eqb_spec (Bufio.Buffered w) 0) as [Hz|Hz].
    + intros E; inversion E; subst. repeat split; auto.
      unfold Bufio.Buffered, len in Hz. destruct (Bufio.buf w'); [auto|discriminate].
    + destruct (OS.Write f (Bufio.buf w)) as [[n err] f1] eqn:EW.
      destruct (OS_Write_data _ _ EW) as (Hd & Hn & Hr & Hc).
      destruct ((n <? Bufio.Buffered w) && is_nil err) eqn:Eshort.
      * intros E; inversion E; subst; simpl.
        rewrite Hd, <- app_assoc, firstn_skipn. repeat split; auto. discriminate.
      * destruct err as [e1|].
        -- intros E; inversion E; subst; simpl.
           rewrite Hd, <- app_assoc, firstn_skipn. repeat split; auto. discriminate.
        -- intros E; inversion E; subst; simpl.
           destruct (OS_Write_ok _ _ EW) as (_ & Hd' & _).
           rewrite Hd', app_nil_r. repeat split; auto.
Qed.

Lemma Flush_fits (w : Bufio.Writer) (f : File) :
  Bufio.werr w = None -> closed f = false ->
  len (data f) + len (Bufio.buf w) <= room f ->
  exists f', Bufio.Flush w f = (None, Bufio.mkWriter [] None, f')
             /\ data f' = data f ++ Bufio.buf w
             /\ closed f' = false /\ room f' = room f.
Proof.
  intros Hw Hc Hr. unfold Bufio.Flush. rewrite Hw.
  destruct (Z.eqb_spec (Bufio.Buffered w) 0) as [Hz|Hz].
  - exists f. unfold Bufio.Buffered, len in Hz.
    destruct w as [b e]; simpl in *. subst e.
    destruct b; [|discriminate]. rewrite app_nil_r. auto.
  - rewrite OS_Write_fits by assumption.
    unfold Bufio.Buffered. rewrite Z.ltb_irrefl. simpl.
    eexists; repeat split; eauto.
Qed.

(** The loop of [Write] keeps the same account: file, buffer and the
    bytes still to take read as they did, and every byte is counted. *)
Lemma Write_loop_content (fuel : nat) :
  forall w f p nn w' f' p' nn',
    Bufio.Write_loop fuel w f p nn = Some (w', f', p', nn') ->
    data f' ++ Bufio.buf w' ++ p' = data f ++ Bufio.buf w ++ p
    /\ nn' + len p' = nn + len p
    /\ room f' = room f /\ closed f' = closed f
    /\ (Bufio.werr w' = None ->
        len p' <= Bufio.Available w' /\ Bufio.werr w = None).
Proof.
  induction fuel as [|k IH]; intros w f p nn w' f' p' nn'; simpl.
  - destruct ((Bufio.Available w <? len p) && is_nil (Bufio.werr w)) eqn:Ec;
      [discriminate|].
    intros E; inversion E; subst. repeat split; auto.
    + apply andb_false_iff in Ec. rewrite H in Ec. simpl in Ec.
      destruct Ec as [Ec|Ec]; [|discriminate]. apply Z.ltb_ge in Ec. lia.
  - destruct ((Bufio.Available w <? len p) && is_nil (Bufio.werr w)) eqn:Ec.
    + apply andb_true_iff in Ec. destruct Ec as [Hav Hnil].
      assert (Hw : Bufio.werr w = None)
        by (destruct (Bufio.werr w); [discriminate|reflexivity]).
      destruct (Z.eqb_spec (Bufio.Buffered w) 0) as [Hz|Hz].
      * destruct (OS.Write f p) as [[n err] f1] eqn:EW.
        destruct (OS_Write_data _ _ EW) as (Hd & Hn & Hr & Hcl).
        intros E. apply IH in E. simpl in E.
        destruct E as (E1 & E2 & E3 & E4 & E5).
        assert (Hb : Bufio.buf w = []).
        { unfold Bufio.Buffered, len in Hz. destruct (Bufio.buf w); [auto|discriminate]. }
        rewrite Hb in *. simpl in *.
        repeat split; try congruence.
        -- rewrite E1, Hd, <- app_assoc, firstn_skipn. reflexivity.
        -- rewrite E2, len_skipn. lia.
        -- apply E5; assumption.
      * set (n := Bufio.copy_count (Bufio.Available w) p).
        assert (Hn : 0 <= n <= len p).
        { unfold n, Bufio.copy_count. rewrite len_firstn.
          pose proof (len_nonneg p). lia. }
        destruct (Bufio.Flush
                    (Bufio.mkWriter (Bufio.buf w ++ firstn (Z.to_nat n) p)
                                    (Bufio.werr w)) f)
          as [[e w2] f2] eqn:EF.
        destruct (Flush_content _ _ EF) as (Hd & Hr & Hcl & _ & _).
        simpl in Hd.
        intros E. apply IH in E.
        destruct E as (E1 & E2 & E3 & E4 & E5).
        repeat split; try congruence.
        -- rewrite E1, app_assoc, Hd, <- !app_assoc, firstn_skipn. reflexivity.
        -- rewrite E2, len_skipn. lia.
        -- apply E5; assumption.
    + intros E; inversion E; subst. repeat split; auto.
      apply andb_false_iff in Ec. rewrite H in Ec. simpl in Ec.
      destruct Ec as [Ec|Ec]; [|discriminate]. apply Z.ltb_ge in Ec. lia.
Qed.

(** After a direct write the loop stops: the file took all of [p], or an
    error is pending. *)
Lemma Write_loop_after_direct (fuel : nat) (f f1 : File) (p : list byte)
      (n nn : Z) (err : option os_error) :
  OS.Write f p = (n, err, f1) ->
  Bufio.Write_loop fuel (Bufio.mkWriter [] err) f1 (skipn (Z.to_nat n) p) nn
  = Some (Bufio.mkWriter [] err, f1, skipn (Z.to_nat n) p, nn).
Proof.
  intros EW.
  assert (Hc : (Bufio.Available (Bufio.mkWriter [] err)
                <? len (skipn (Z.to_nat n) p)) && is_nil err = false).
  { destruct err as [e|]; [apply andb_false_r|].
    apply OS_Write_ok in EW. destruct EW as (-> & _).
    rewrite skipn_len_all by lia. reflexivity. }
  destruct fuel; simpl; rewrite Hc; reflexivity.
Qed.

Lemma Write_loop_S (k : nat) (w : Bufio.Writer) (f : File) (p : list byte) (nn : Z) :
  Bufio.Write_loop (S k) w f p nn =
  if (Bufio.Available w <? len p) && is_nil (Bufio.werr w) then
    if Bufio.Buffered w =? 0 then
      let '(n, err, f') := OS.Write f p in
      Bufio.Write_loop k (Bufio.mkWriter (Bufio.buf w) err) f'
                       (skipn (Z.to_nat n) p) (nn + n)
    else
      let n := Bufio.copy_count (Bufio.Available w) p in
      let w1 := Bufio.mkWriter (Bufio.buf w ++ firstn (Z.to_nat n) p)
                               (Bufio.werr w) in
      let '(_, w2, f2) := Bufio.Flush w1 f in
      Bufio.Write_loop k w2 f2 (skipn (Z.to_nat n) p) (nn + n)
  else Some (w, f, p, nn).
Proof. reflexivity. Qed.

(** With an empty buffer one more round ends the loop. *)
Lemma Write_loop_empty_buffer (k : nat) (e : option os_error) (f : File)
      (p : list byte) (nn : Z) :
  exists r, Bufio.Write_loop (S k) (Bufio.mkWriter [] e) f p nn = Some r.
Proof.
  rewrite Write_loop_S.
  destruct ((Bufio.Available _ <? len p) && is_nil _); [|eauto].
  change (Bufio.Buffered (Bufio.mkWriter [] e) =? 0) with true. cbv iota.
  destruct (OS.Write f p) as [[n err] f1] eqn:EW. simpl Bufio.buf.
  rewrite (@Write_loop_after_direct k _ _ _ _ (nn + n) _ EW). eauto.
Qed.

Lemma Write_loop_total (w : Bufio.Writer) (f : File) (p : list byte) (nn : Z) :
  exists r, Bufio.Write_loop 2 w f p nn = Some r.
Proof.
  rewrite Write_loop_S.
  destruct ((Bufio.Available w <? len p) && is_nil (Bufio.werr w)) eqn:Ec;
    [|eauto].
  destruct (Z.eqb_spec (Bufio.Buffered w) 0) as [Hz|Hz].
  - assert (Hb : Bufio.buf w = []).
    { unfold Bufio.Buffered, len in Hz. destruct (Bufio.buf w); [auto|discriminate]. }
    destruct (OS.Write f p) as [[n err] f1] eqn:EW.
    rewrite Hb, (@Write_loop_after_direct 1 _ _ _ _ (nn + n) _ EW). eauto.
  - cbv zeta.
    destruct (Bufio.Flush _ f) as [[e w2] f2] eqn:EF.
    destruct (Flush_content _ _ EF) as (_ & _ & _ & He & Hnone).
    destruct e as [e|].
    + rewrite Write_loop_S, He. simpl is_nil. rewrite andb_false_r. eauto.
    + destruct (Hnone eq_refl) as [Hb2 _].
      destruct w2 as [b2 e2]; simpl in Hb2, He; subst.
      apply Write_loop_empty_buffer.
Qed.

(** [Write] never falls back on its fuel: two rounds are enough. *)
Lemma Write_fuel_enough (w : Bufio.Writer) (f : File) (p : list byte) :
  Bufio.Write_fuel 2 w f p <> None.
Proof.
  unfold Bufio.Write_fuel.
  destruct (Write_loop_total w f p 0) as [[[[w' f'] p'] nn] ->].
  destruct (Bufio.werr w'); discriminate.
Qed.

(** What a call of [Write] reports and leaves behind. *)
Lemma Bufio_Write_spec (w w' : Bufio.Writer) (f f' : File) (p : list byte)
      (n : Z) (e : option os_error) :
  Bufio.Write w f p = (n, e, w', f') ->
  Bufio.werr w' = e
  /\ room f' = room f /\ closed f' = closed f
  /\ (e = None ->
      n = len p /\ Bufio.werr w = None
      /\ data f' ++ Bufio.buf w' = data f ++ Bufio.buf w ++ p).
Proof.
  unfold Bufio.Write. pose proof (Write_fuel_enough w f p) as Hfuel.
  unfold Bufio.Write_fuel in *.
  destruct (Bufio.Write_loop 2 w f p 0) as [[[[w1 f1] p1] nn1]|] eqn:EL;
    [|congruence].
  destruct (Write_loop_content _ _ _ _ _ EL) as (Hc & Hn & Hr & Hcl & Hok).
  destruct (Bufio.werr w1) as [e1|] eqn:Ew1.
  - intros E; inversion E; subst. repeat split; auto; discriminate.
  - intros E; inversion E; subst; simpl.
    repeat split; auto; try lia.
    + apply Hok; reflexivity.
Qed.

(** A writer with a pending error refuses every write and keeps its state. *)
Lemma Bufio_Write_sticky (w : Bufio.Writer) (f : File) (p : list byte) (e : os_error) :
  Bufio.werr w = Some e -> Bufio.Write w f p = (0, Some e, w, f).
Proof.
  intros Hw. unfold Bufio.Write, Bufio.Write_fuel. cbn [Bufio.Write_loop].
  rewrite Hw. simpl. rewrite andb_false_r, Hw. reflexivity.
Qed.

(** ** Machine integers in range *)

Lemma u64_small (x : Z) : 0 <= x < 2 ^ 64 -> u64 x = x.
Proof. intros H. unfold u64. apply Z.mod_small. assumption. Qed.

Lemma u32_small (x : Z) : 0 <= x < 2 ^ 32 -> u32 x = x.
Proof. intros H. unfold u32. apply Z.mod_small. assumption. Qed.

Lemma i64_small (x : Z) : 0 <= x < 2 ^ 63 -> i64 x = x.
Proof. intros H. unfold i64. rewrite Z.mod_small; lia. Qed.

Lemma i64_negative (x : Z) : 2 ^ 63 <= x < 2 ^ 64 -> i64 x < 0.
Proof.
  intros H. unfold i64.
  replace (x + 2 ^ 63) with ((x - 2 ^ 63) + 1 * 2 ^ 64) by lia.
  rewrite Z.mod_add by lia. rewrite Z.mod_small; lia.
Qed.

Lemma u64_wrap (x : Z) : 2 ^ 64 <= x < 2 * 2 ^ 64 -> u64 x = x - 2 ^ 64.
Proof.
  intros H. unfold u64. symmetry.
  apply (Z.mod_unique x (2 ^ 64) 1 (x - 2 ^ 64)); lia.
Qed.

Lemma u64_range (x : Z) : 0 <= u64 x < 2 ^ 64.
Proof. unfold u64. apply Z.mod_pos_bound. lia. Qed.

Lemma u32_range (x : Z) : 0 <= u32 x < 2 ^ 32.
Proof. unfold u32. apply Z.mod_pos_bound. lia. Qed.

(** ** The store *)

Lemma OS_ReadAt_window (f : File) (a b c : list byte) (off : Z) :
  closed f = false -> data f = a ++ b ++ c -> off = len a ->
  OS.ReadAt f (len b) off = (b, None).
Proof.
  intros Hc Hd ->. unfold OS.ReadAt. rewrite Hc.
  pose proof (len_nonneg a).
  destruct (Z.ltb_spec (len a) 0); [lia|].
  rewrite Hd, skipn_len_app, firstn_len_app, Z.ltb_irrefl. reflexivity.
Qed.

Lemma OS_ReadAt_ok (f : File) (k off : Z) (b : list byte) :
  OS.ReadAt f k off = (b, None) ->
  closed f = false /\ 0 <= off
  /\ b = firstn (Z.to_nat k) (skipn (Z.to_nat off) (data f)).
Proof.
  unfold OS.ReadAt. destruct (closed f); [discriminate|].
  destruct (Z.ltb_spec off 0); [discriminate|].
  destruct (_ <? k); [discriminate|].
  intros E; inversion E; auto.
Qed.

(** What a successful append leaves: the frame at the end of the bytes
    the store holds, in the file or still in the buffer. *)
Lemma Append_ok_content (s s' : Store.store) (p : list byte) (n pos : Z) :
  Store.Append s p = (Ok (n, pos), s') ->
  n = u64 (i64 (len p + limit)) /\ pos = Store.size s
  /\ Store.size s' = u64 (Store.size s + n)
  /\ Bufio.werr (Store.buffer s') = None
  /\ room (Store.file s') = room (Store.file s)
  /\ closed (Store.file s') = closed (Store.file s)
  /\ data (Store.file s') ++ Bufio.buf (Store.buffer s')
     = (data (Store.file s) ++ Bufio.buf (Store.buffer s))
         ++ be_put 8 (u64 (len p)) ++ p.
Proof.
  unfold Store.Append, Store.binary_Write.
  destruct (Bufio.Write (Store.buffer s) (Store.file s) _)
    as [[[n1 e1] w1] f1] eqn:E1.
  destruct (Bufio_Write_spec _ _ _ E1) as (_ & Hr1 & Hc1 & Hok1).
  destruct e1 as [e1|]; [discriminate|].
  destruct (Hok1 eq_refl) as (_ & _ & Hd1).
  destruct (Bufio.Write w1 f1 p) as [[[n2 e2] w2] f2] eqn:E2.
  destruct (Bufio_Write_spec _ _ _ E2) as (Hw2 & Hr2 & Hc2 & Hok2).
  destruct e2 as [e2|]; [discriminate|].
  destruct (Hok2 eq_refl) as (Hn2 & _ & Hd2).
  intros E; inversion E; subst; simpl.
  repeat split; try congruence.
  rewrite Hd2, app_assoc, Hd1, <- !app_assoc. reflexivity.
Qed.

(** Reading at the position of a frame that the store's bytes hold. *)
Lemma Read_frame (s : Store.store) (a p c : list byte) (pos : Z) :
  data (Store.file s) ++ Bufio.buf (Store.buffer s)
  = a ++ be_put 8 (u64 (len p)) ++ p ++ c ->
  pos = len a -> pos < 2 ^ 63 -> len p <= maxAlloc ->
  (forall b s'', Store.Read s pos = (Ok b, s'') -> b = p)
  /\ (Bufio.werr (Store.buffer s) = None ->
      closed (Store.file s) = false ->
      len (data (Store.file s)) + len (Bufio.buf (Store.buffer s))
      <= room (Store.file s) ->
      pos + limit < 2 ^ 63 ->
      fst (Store.Read s pos) = Ok p).
Proof.
  intros Hd Hpos Hlt Hp.
  pose proof (len_nonneg a) as Ha. pose proof (len_nonneg p) as Hp0.
  assert (Hm : maxAlloc = 2 ^ 48) by reflexivity.
  assert (Hlen : u64 (len p) = len p) by (apply u64_small; lia).
  assert (Hhdr : len (be_put 8 (u64 (len p))) = limit) by apply len_be_put.
  assert (Hget : be_get (be_put 8 (u64 (len p))) = len p)
    by (rewrite be_get_put64; [assumption | apply u64_range]).
  assert (Hi : i64 pos = pos) by (apply i64_small; lia).
  unfold Store.Read.
  destruct (Bufio.Flush (Store.buffer s) (Store.file s)) as [[e w1] f1] eqn:EF.
  destruct (Flush_content _ _ EF) as (Hc & Hr & Hcl & Hw1 & Hnone).
  split.
  - destruct e as [e|]; [discriminate|].
    destruct (Hnone eq_refl) as [Hb1 _]. rewrite Hb1, app_nil_r, Hd in Hc.
    destruct (OS.ReadAt f1 limit (i64 pos)) as [hdr e1] eqn:ER1.
    destruct e1 as [e1|]; [discriminate|].
    destruct (OS_ReadAt_ok _ _ _ ER1) as (Hopen & _ & _).
    rewrite Hi, <- Hhdr in ER1.
    rewrite (OS_ReadAt_window f1 a _ (p ++ c) Hopen Hc Hpos) in ER1.
    assert (Eh : hdr = be_put 8 (u64 (len p))) by congruence.
    subst hdr. rewrite Hget.
    destruct (Z.ltb_spec maxAlloc (len p)); [lia|].
    destruct (OS.ReadAt f1 (len p) _) as [b e2] eqn:ER2.
    destruct e2 as [e2|]; [discriminate|].
    destruct (OS_ReadAt_ok _ _ _ ER2) as (_ & Hoff & _).
    assert (Hsmall : len a + limit < 2 ^ 63).
    { destruct (Z.ltb_spec (len a + limit) (2 ^ 63)); [assumption|].
      exfalso. subst pos. unfold limit in *.
      rewrite u64_small in Hoff by lia.
      pose proof (@i64_negative (len a + 8)). lia. }
    subst pos. unfold limit in *.
    rewrite u64_small, i64_small in ER2 by lia.
    rewrite app_assoc in Hc.
    rewrite (OS_ReadAt_window f1 (a ++ be_put 8 (u64 (len p))) p c Hopen Hc) in ER2
      by (rewrite len_app, Hhdr; reflexivity).
    intros b0 s'' E. congruence.
  - intros Hw Hopen Hroom Hsmall.
    destruct (Flush_fits _ _ Hw Hopen Hroom) as (f' & EF' & Hd' & Hopen' & _).
    rewrite EF' in EF. inversion EF; subst e w1 f1. clear EF.
    rewrite Hd' in Hc. rewrite Hd in Hd'.
    rewrite Hi, <- Hhdr.
    rewrite (OS_ReadAt_window f' a _ (p ++ c) Hopen' Hd' Hpos).
    rewrite Hget.
    destruct (Z.ltb_spec maxAlloc (len p)); [lia|].
    subst pos. unfold limit in *.
    rewrite u64_small, i64_small by lia.
    rewrite app_assoc in Hd'.
    rewrite (OS_ReadAt_window f' (a ++ be_put 8 (u64 (len p))) p c Hopen' Hd')
      by (rewrite len_app, Hhdr; reflexivity).
    reflexivity.
Qed.

Lemma newStore_tracks (f : File) :
  len (data f) < 2 ^ 64 -> Store.tracks (Store.newStore f).
Proof.
  intros H. unfold Store.tracks, Store.newStore, OS.Size.
  cbn [Store.size Store.file Store.buffer Bufio.buf Bufio.NewWriter].
  pose proof (len_nonneg (data f)). rewrite len_nil, u64_small; lia.
Qed.

(** C1: a successful append reports [n = 8 + len p] and the size before
    as position, leaves the size at [pos + n], and a read at [pos] then
    returns exactly [p]: no read can return anything else, and on an
    open file with room for the store's bytes the read does return [p]. *)
Theorem store_append_read_roundtrip
        (s s' : Store.store) (p : list byte) (n pos : Z) :
  Store.tracks s -> Store.size s < 2 ^ 63 -> len p <= maxAlloc ->
  Store.Append s p = (Ok (n, pos), s') ->
  n = 8 + len p /\ pos = Store.size s /\ Store.size s' = pos + n
  /\ Store.tracks s'
  /\ (forall b s'', Store.Read s' pos = (Ok b, s'') -> b = p)
  /\ (Store.fits s' -> fst (Store.Read s' pos) = Ok p).
Proof.
  intros Ht Hs Hp E.
  destruct (Append_ok_content _ _ E) as (Hn & Hpos & Hsz & Hw & Hr & Hc & Hd).
  pose proof (len_nonneg p) as Hp0.
  pose proof (len_nonneg (data (Store.file s))) as Hd0.
  pose proof (len_nonneg (Bufio.buf (Store.buffer s))) as Hb0.
  assert (Hm : maxAlloc = 2 ^ 48) by reflexivity.
  unfold Store.tracks in Ht.
  assert (Hn' : n = 8 + len p).
  { rewrite Hn. unfold limit. rewrite i64_small, u64_small; lia. }
  assert (Hsz' : Store.size s' = pos + n).
  { rewrite Hsz, Hpos. apply u64_small. lia. }
  assert (Ht' : Store.tracks s').
  { unfold Store.tracks. rewrite <- !len_app, Hd, !len_app, len_be_put. lia. }
  assert (Hframe :
            data (Store.file s') ++ Bufio.buf (Store.buffer s')
            = (data (Store.file s) ++ Bufio.buf (Store.buffer s))
                ++ be_put 8 (u64 (len p)) ++ p ++ [])
    by (rewrite app_nil_r; exact Hd).
  assert (Hpa : pos = len (data (Store.file s) ++ Bufio.buf (Store.buffer s)))
    by (rewrite len_app; lia).
  destruct (@Read_frame s' _ p [] pos Hframe Hpa) as [Honly Hdoes];
    [lia | lia |].
  repeat split; auto.
  intros (Hopen & Hroom & Hsmall).
  apply Hdoes; auto.
  - unfold Store.tracks in Ht'. lia.
  - unfold limit. lia.
Qed.

Lemma store_append_read_roundtrip_witness :
  fst (Store.Read (snd (Store.Append store0 hello)) 0) = Ok hello.
Proof.
  destruct (@store_append_read_roundtrip
              store0 (snd (Store.Append store0 hello)) hello 13 0)
    as (_ & _ & _ & _ & _ & H).
  - vm_compute. reflexivity.
  - vm_compute. reflexivity.
  - vm_compute. discriminate.
  - vm_compute. reflexivity.
  - apply H. repeat split; vm_compute; congruence.
Defined.

(** C10: when [Append] returns an error, the tracked size is the one it
    was before the call, whatever the store's state. *)
Theorem store_append_error_keeps_size
        (s s' : Store.store) (p : list byte) (e : os_error) :
  Store.Append s p = (Err e, s') -> Store.size s' = Store.size s.
Proof.
  unfold Store.Append.
  destruct (Store.binary_Write _ _ _) as [[e1 w1] f1].
  destruct e1 as [e1|].
  - intros E; inversion E; reflexivity.
  - destruct (Bufio.Write w1 f1 p) as [[[n2 e2] w2] f2].
    destruct e2 as [e2|]; intros E; inversion E; reflexivity.
Qed.

Lemma store_append_error_keeps_size_witness :
  fst (Store.Append store_cramped (repeat x00 4200)) = Err ENOSPC
  /\ Store.size (snd (Store.Append store_cramped (repeat x00 4200)))
     = Store.size store_cramped.
Proof.
  split.
  - vm_compute. reflexivity.
  - apply (@store_append_error_keeps_size
             store_cramped _ (repeat x00 4200) ENOSPC).
    vm_compute. reflexivity.
Defined.

(** ** The index *)

Lemma splice_app {A} (a b c seg : list A) :
  List.length seg = List.length b ->
  splice (a ++ b ++ c) (len a) seg = a ++ seg ++ c.
Proof.
  intros Hl. unfold splice, len. rewrite Nat2Z.id.
  rewrite firstn_app, firstn_all, Nat.sub_diag. simpl. rewrite app_nil_r.
  rewrite Hl, skipn_app.
  rewrite (skipn_all2 a) by lia. simpl.
  replace (List.length a + List.length b - List.length a)%nat
    with (List.length b) by lia.
  rewrite skipn_app, skipn_all, Nat.sub_diag. reflexivity.
Qed.

(** A window of [m] that is in range splits [m] in three. *)
Lemma split_window {A} (m : list A) (lo k : Z) :
  0 <= lo -> 0 <= k -> lo + k <= len m ->
  m = firstn (Z.to_nat lo) m ++ slice m lo (lo + k)
        ++ skipn (Z.to_nat (lo + k)) m
  /\ len (firstn (Z.to_nat lo) m) = lo
  /\ len (slice m lo (lo + k)) = k.
Proof.
  intros Hlo Hk Hr. unfold slice.
  replace (lo + k - lo) with k by lia.
  repeat split.
  - rewrite <- (firstn_skipn (Z.to_nat lo) m) at 1. f_equal.
    rewrite <- (firstn_skipn (Z.to_nat k) (skipn (Z.to_nat lo) m)) at 1.
    f_equal. rewrite skipn_skipn. f_equal. lia.
  - rewrite len_firstn. lia.
  - rewrite len_firstn, len_skipn. lia.
Qed.

Lemma slice_app_mid {A} (a b c : list A) (lo hi : Z) :
  lo = len a -> hi = len a + len b -> slice (a ++ b ++ c) lo hi = b.
Proof.
  intros -> ->. unfold slice.
  rewrite skipn_len_app. replace (len a + len b - len a) with (len b) by lia.
  apply firstn_len_app.
Qed.

Lemma window12 {A} (m : list A) (lo : Z) :
  0 <= lo -> lo + 12 <= len m ->
  exists a b4 b8 c,
    m = a ++ b4 ++ b8 ++ c /\ len a = lo /\ len b4 = 4 /\ len b8 = 8.
Proof.
  intros Hlo Hr.
  exists (firstn (Z.to_nat lo) m),
         (firstn 4 (skipn (Z.to_nat lo) m)),
         (firstn 8 (skipn 4 (skipn (Z.to_nat lo) m))),
         (skipn 8 (skipn 4 (skipn (Z.to_nat lo) m))).
  rewrite !firstn_skipn. unfold len in *.
  rewrite !length_firstn, !length_skipn. repeat split; lia.
Qed.

Lemma splice_twice_app {A} (a b4 b8 c x4 x8 : list A) :
  len b4 = 4 -> len b8 = 8 -> len x4 = 4 -> len x8 = 8 ->
  splice (splice (a ++ b4 ++ b8 ++ c) (len a) x4) (len a + 4) x8
  = a ++ x4 ++ x8 ++ c.
Proof.
  intros Hb4 Hb8 Hx4 Hx8.
  rewrite splice_app by (unfold len in *; lia).
  replace (len a + 4) with (len (a ++ x4)) by (rewrite len_app; lia).
  rewrite (app_assoc a x4), splice_app by (unfold len in *; lia).
  rewrite <- app_assoc. reflexivity.
Qed.

Lemma Write_room (i : Index.index) (offset pos : Z) :
  0 <= Index.size i -> Index.size i + entryWidth <= len (Index.mmap i) ->
  Index.size i + entryWidth < 2 ^ 64 ->
  Index.Write i offset pos
  = (Ok tt, Index.mkIndex (Index.file i)
                          (written (Index.mmap i) (Index.size i) offset pos)
                          (Index.size i + entryWidth)).
Proof.
  intros H0 Hroom Hlen. unfold Index.Write.
  change entryWidth with 12 in *. change offsetWidth with 4.
  change (u64 12) with 12. change (u64 4) with 4.
  rewrite !u64_small by lia.
  destruct (Z.ltb_spec (len (Index.mmap i)) (Index.size i + 12)); [lia|].
  unfold Index.in_bounds.
  destruct (Z.leb_spec (Index.size i) (Index.size i + 4)); [|lia].
  destruct (Z.leb_spec (Index.size i + 4) (Index.size i + 12)); [|lia].
  destruct (Z.leb_spec (Index.size i + 12) (len (Index.mmap i))); [|lia].
  cbn [andb negb]. f_equal. f_equal.
  destruct (window12 (Index.mmap i) H0 Hroom)
    as (a & b4 & b8 & c & Hm & Hla & Hl4 & Hl8).
  unfold written. change entryWidth with 12.
  rewrite Hm, <- Hla.
  rewrite splice_twice_app by (rewrite ?len_be_put; auto).
  rewrite firstn_len_app.
  replace (a ++ b4 ++ b8 ++ c) with ((a ++ b4 ++ b8) ++ c)
    by (rewrite <- !app_assoc; reflexivity).
  replace (len a + 12) with (len (a ++ b4 ++ b8))
    by (rewrite !len_app; lia).
  rewrite skipn_len_app. reflexivity.
Qed.

Lemma Write_full (i : Index.index) (offset pos : Z) :
  0 <= Index.size i -> Index.size i + entryWidth < 2 ^ 64 ->
  len (Index.mmap i) < Index.size i + entryWidth ->
  Index.Write i offset pos = (Err EOF, i).
Proof.
  intros H0 H1 H2. unfold Index.Write.
  change entryWidth with 12 in *. change (u64 12) with 12.
  rewrite u64_small by lia.
  destruct (Z.ltb_spec (len (Index.mmap i)) (Index.size i + 12)); [|lia].
  reflexivity.
Qed.

Lemma len_written (m : list byte) (at_ offset pos : Z) :
  0 <= at_ -> at_ + entryWidth <= len m ->
  len (written m at_ offset pos) = len m.
Proof.
  intros H0 H1. unfold written. change entryWidth with 12 in *.
  rewrite !len_app, !len_be_put, len_firstn, len_skipn. lia.
Qed.

Lemma written_fields (m : list byte) (at_ offset pos : Z) :
  0 <= at_ -> at_ + entryWidth <= len m ->
  slice (written m at_ offset pos) at_ (at_ + offsetWidth) = be_put 4 offset
  /\ slice (written m at_ offset pos) (at_ + offsetWidth) (at_ + entryWidth)
     = be_put 8 pos.
Proof.
  intros H0 H1. unfold written. change entryWidth with 12 in *.
  change offsetWidth with 4.
  assert (Ha : len (firstn (Z.to_nat at_) m) = at_) by (rewrite len_firstn; lia).
  split.
  - apply slice_app_mid; rewrite ?len_be_put; lia.
  - rewrite (app_assoc (firstn _ m)).
    apply slice_app_mid; rewrite !len_app, ?len_be_put; lia.
Qed.

Lemma Read_empty (i : Index.index) (o : Z) :
  Index.size i = 0 -> Index.Read i o = Err EOF.
Proof. intros H. unfold Index.Read. rewrite H. reflexivity. Qed.

Lemma Read_last (i : Index.index) :
  12 <= Index.size i <= len (Index.mmap i) -> Index.count i <= 2 ^ 32 ->
  Index.Read i (-1) = Ok (Index.entry_at i (Index.count i - 1)).
Proof.
  unfold Index.count. change entryWidth with 12.
  intros Hs Hk.
  assert (Hk1 : 1 <= Index.size i / 12) by (apply Z.div_le_lower_bound; lia).
  assert (Hmul : 12 * (Index.size i / 12) <= Index.size i)
    by (apply Z.mul_div_le; lia).
  unfold Index.Read.
  change entryWidth with 12 in *. change (u64 12) with 12.
  destruct (Z.eqb_spec (Index.size i) 0); [lia|].
  change (-1 =? -1) with true. cbv iota.
  rewrite (@u64_small (Index.size i / 12 - 1)) by lia.
  rewrite (@u32_small (Index.size i / 12 - 1)) by lia.
  rewrite (@u64_small ((Index.size i / 12 - 1) * 12)) by lia.
  rewrite (@u64_small ((Index.size i / 12 - 1) * 12 + 12)) by lia.
  destruct (Z.ltb_spec (Index.size i) ((Index.size i / 12 - 1) * 12 + 12)); [lia|].
  destruct (Z.ltb_spec (len (Index.mmap i)) ((Index.size i / 12 - 1) * 12 + 12));
    [lia|].
  reflexivity.
Qed.

Lemma Read_past (i : Index.index) (o : Z) :
  0 <= o < 2 ^ 32 -> Index.size i < entryWidth * o + entryWidth ->
  Index.Read i o = Err EOF.
Proof.
  intros Ho Hs. unfold Index.Read.
  change entryWidth with 12 in *. change (u64 12) with 12.
  destruct (Z.eqb_spec (Index.size i) 0); [reflexivity|].
  destruct (Z.eqb_spec o (-1)); [lia|].
  rewrite (@u32_small o) by lia.
  rewrite (@u64_small (o * 12)) by lia.
  rewrite (@u64_small (o * 12 + 12)) by lia.
  destruct (Z.ltb_spec (Index.size i) (o * 12 + 12)); [reflexivity|lia].
Qed.

(** A write that succeeded had room and moved the size on by one entry. *)
Lemma Write_ok_inv (i i' : Index.index) (offset pos : Z) :
  0 <= Index.size i < 2 ^ 64 ->
  Index.Write i offset pos = (Ok tt, i') ->
  Index.size i + entryWidth <= len (Index.mmap i)
  /\ Index.size i + entryWidth < 2 ^ 64
  /\ i' = Index.mkIndex (Index.file i)
                        (written (Index.mmap i) (Index.size i) offset pos)
                        (Index.size i + entryWidth).
Proof.
  intros Hs E.
  assert (Hroom : Index.size i + entryWidth <= len (Index.mmap i)
                  /\ Index.size i + entryWidth < 2 ^ 64).
  { revert E. unfold Index.Write.
    change entryWidth with 12 in *. change (u64 12) with 12.
    destruct (Z.ltb_spec (len (Index.mmap i)) (u64 (Index.size i + 12)));
      [discriminate|].
    unfold Index.in_bounds.
    destruct (Z.leb_spec (Index.size i) (u64 (Index.size i + u64 offsetWidth)));
      [|discriminate].
    destruct (Z.leb_spec (u64 (Index.size i + u64 offsetWidth))
                         (u64 (Index.size i + 12))); [|discriminate].
    intros _.
    assert (Hnowrap : Index.size i + 12 < 2 ^ 64).
    { destruct (Z.ltb_spec (Index.size i + 12) (2 ^ 64)); [assumption|].
      exfalso.
      assert (Hw : u64 (Index.size i + 12) = Index.size i + 12 - 2 ^ 64)
        by (apply u64_wrap; lia).
      lia. }
    rewrite u64_small in * by lia. lia. }
  destruct Hroom as [Hr Hw]. repeat split; try assumption.
  rewrite Write_room in E by lia. congruence.
Qed.

Lemma Read_last_written (i i' : Index.index) (offset pos : Z) :
  Index.whole i -> Index.count i < 2 ^ 32 ->
  Index.Write i offset pos = (Ok tt, i') ->
  Index.Read i' (-1) = Ok (u32 offset, u64 pos).
Proof.
  unfold Index.whole, Index.count. change entryWidth with 12.
  intros [H0 Hmod] Hk E.
  assert (Hdiv : Index.size i = 12 * (Index.size i / 12))
    by (apply Z.div_exact; lia).
  destruct (@Write_ok_inv i i' offset pos) as (Hroom & Hw & ->); [lia|assumption|].
  change entryWidth with 12 in *.
  assert (Hcount : (Index.size i + 12) / 12 = Index.size i / 12 + 1).
  { replace (Index.size i + 12) with (Index.size i + 1 * 12) by lia.
    apply Z.div_add. lia. }
  rewrite Read_last.
  - unfold Index.entry_at, Index.count. cbn [Index.mmap Index.size].
    change entryWidth with 12. rewrite Hcount.
    replace ((Index.size i / 12 + 1 - 1) * 12) with (Index.size i) by lia.
    destruct (@written_fields (Index.mmap i) (Index.size i) offset pos)
      as [Hf4 Hf8]; [lia | assumption |].
    change entryWidth with 12 in *. rewrite Hf4, Hf8, !be_get_put.
    reflexivity.
  - cbn [Index.mmap Index.size]. rewrite len_written by (assumption || lia). lia.
  - unfold Index.count. cbn [Index.size]. change entryWidth with 12. lia.
Qed.

(** C7: on an index whose size is a file length ([0 <= size < 2^63]),
    [Write] fails with [io.EOF] exactly when [size + 12] exceeds the
    mapped length, and then leaves the index as it was; otherwise it
    puts [offset] as four big-endian bytes and [pos] as eight at
    [size .. size+12] of the map, leaves every other byte, and moves
    the size on by twelve. *)
Theorem index_write_spec (i : Index.index) (offset pos : Z) :
  0 <= Index.size i < 2 ^ 63 ->
  (fst (Index.Write i offset pos) = Err EOF
   <-> len (Index.mmap i) < Index.size i + entryWidth)
  /\ (len (Index.mmap i) < Index.size i + entryWidth ->
      snd (Index.Write i offset pos) = i)
  /\ (Index.size i + entryWidth <= len (Index.mmap i) ->
      exists i',
        Index.Write i offset pos = (Ok tt, i')
        /\ Index.size i' = Index.size i + entryWidth
        /\ Index.file i' = Index.file i
        /\ Index.mmap i' = written (Index.mmap i) (Index.size i) offset pos
        /\ slice (Index.mmap i') (Index.size i) (Index.size i + offsetWidth)
           = be_put 4 offset
        /\ slice (Index.mmap i') (Index.size i + offsetWidth)
                 (Index.size i + entryWidth)
           = be_put 8 pos).
Proof.
  intros Hs. change entryWidth with 12 in *.
  assert (Hfull : len (Index.mmap i) < Index.size i + 12 ->
                  Index.Write i offset pos = (Err EOF, i))
    by (intros H; apply Write_full; change entryWidth with 12; lia).
  assert (Hroom : Index.size i + 12 <= len (Index.mmap i) ->
                  Index.Write i offset pos
                  = (Ok tt, Index.mkIndex (Index.file i)
                              (written (Index.mmap i) (Index.size i) offset pos)
                              (Index.size i + 12)))
    by (intros H; apply Write_room; change entryWidth with 12; lia).
  repeat split.
  - intros E.
    destruct (Z.ltb_spec (len (Index.mmap i)) (Index.size i + 12)); [assumption|].
    rewrite Hroom in E by assumption. discriminate.
  - intros H. rewrite Hfull by assumption. reflexivity.
  - intros H. rewrite Hfull by assumption. reflexivity.
  - intros H. eexists. split; [apply Hroom; assumption|].
    cbn [Index.size Index.file Index.mmap].
    destruct (@written_fields (Index.mmap i) (Index.size i) offset pos)
      as [Hf4 Hf8]; [lia | assumption |].
    auto.
Qed.

Lemma index_write_spec_witness :
  fst (Index.Write index_full 2 20) = Err EOF
  /\ snd (Index.Write index_full 2 20) = index_full
  /\ exists i', Index.Write index_empty 7 99 = (Ok tt, i')
                /\ Index.size i' = 12
                /\ slice (Index.mmap i') 0 4 = be_put 4 7
                /\ slice (Index.mmap i') 4 12 = be_put 8 99.
Proof.
  destruct (@index_write_spec index_full 2 20) as (Hiff & Hsame & _);
    [vm_compute; split; congruence|].
  destruct (@index_write_spec index_empty 7 99) as (_ & _ & Hroom);
    [vm_compute; split; congruence|].
  assert (Hlt : len (Index.mmap index_full) < Index.size index_full + entryWidth)
    by (vm_compute; reflexivity).
  split; [|split].
  - apply Hiff. exact Hlt.
  - apply Hsame. exact Hlt.
  - destruct Hroom as (i' & E & Hsz & _ & _ & H4 & H8);
      [vm_compute; congruence|].
    exists i'. auto.
Defined.

(** C8, as the code has it: [Read(-1)] fails with [io.EOF] on a size of
    zero; on an index of at least one entry, within its map and of at
    most 2^32 entries, it returns the entry at position [size/12 - 1],
    which after a successful [Write(offset, pos)] on a whole number of
    entries is [(offset, pos)]; and for an argument [0 <= o < 2^32],
    [Read(o)] fails with [io.EOF] when [size < 12*o + 12]. *)
Theorem index_read_sentinel (i : Index.index) :
  (Index.size i = 0 -> Index.Read i (-1) = Err EOF)
  /\ (12 <= Index.size i <= len (Index.mmap i) -> Index.count i <= 2 ^ 32 ->
      Index.Read i (-1) = Ok (Index.entry_at i (Index.size i / 12 - 1)))
  /\ (forall offset pos i',
         Index.whole i -> Index.count i < 2 ^ 32 ->
         Index.Write i offset pos = (Ok tt, i') ->
         Index.Read i' (-1) = Ok (u32 offset, u64 pos))
  /\ (forall o, 0 <= o < 2 ^ 32 -> Index.size i < 12 * o + 12 ->
                Index.Read i o = Err EOF).
Proof.
  repeat split.
  - apply Read_empty.
  - intros Hs Hk. apply Read_last; assumption.
  - intros offset pos i' Hw Hk E. eapply Read_last_written; eassumption.
  - intros o Ho Hs. apply Read_past; assumption.
Qed.

Lemma index_read_sentinel_witness :
  Index.Read index_empty (-1) = Err EOF
  /\ Index.Read index_one (-1) = Ok (7, 99)
  /\ Index.Read index_one 1 = Err EOF.
Proof.
  destruct (index_read_sentinel index_empty) as (Hempty & _ & Hwritten & _).
  destruct (index_read_sentinel index_one) as (_ & _ & _ & Hpast).
  split; [|split].
  - apply Hempty. reflexivity.
  - apply (Hwritten 7 99 index_one).
    + split; vm_compute; congruence.
    + vm_compute. reflexivity.
    + vm_compute. reflexivity.
  - apply (Hpast 1); vm_compute; [split; congruence | reflexivity].
Defined.

(** C8 fails as stated: the argument is cut to 32 bits, so on a
    one-entry index [Read(2^32)] returns entry 0 although
    [size < 12 * 2^32 + 12]; and an index whose size is not zero but
    less than one entry has no last entry to return. *)
Lemma index_read_counterexample :
  (0 <= 2 ^ 32 /\ Index.size index_one < 12 * 2 ^ 32 + 12
   /\ Index.Read index_one (2 ^ 32) = Ok (7, 99))
  /\ (Index.size index_torn <> 0 /\ Index.Read index_torn (-1) = Err EOF).
Proof. vm_compute. repeat split; congruence. Qed.

(** C9, as the code has it: every error of [Write] and every error of
    [Read] is the one value [io.EOF]; the two conditions are told apart
    by the call that failed, not by the error. *)
Theorem index_errors_are_EOF
        (i j : Index.index) (offset pos o : Z) (e1 e2 : os_error) :
  fst (Index.Write i offset pos) = Err e1 ->
  Index.Read j o = Err e2 ->
  e1 = EOF /\ e2 = EOF /\ e1 = e2.
Proof.
  unfold Index.Write, Index.Read. intros E1 E2.
  assert (H1 : e1 = EOF).
  { destruct (_ <? _) in E1; [simpl in E1; congruence|].
    destruct (negb _) in E1; simpl in E1; discriminate. }
  assert (H2 : e2 = EOF).
  { destruct (_ =? 0) in E2; [congruence|].
    destruct (_ <? _) in E2; [congruence|].
    destruct (_ <? _) in E2; discriminate. }
  subst. auto.
Qed.

Lemma index_errors_are_EOF_witness :
  (fst (Index.Write index_full 2 20) = Err EOF
   /\ Index.Read index_empty (-1) = Err EOF)
  /\ (EOF = EOF /\ EOF = EOF /\ EOF = EOF).
Proof.
  split.
  - split; vm_compute; reflexivity.
  - apply (@index_errors_are_EOF index_full index_empty 2 20 (-1) EOF EOF);
      vm_compute; reflexivity.
Defined.

(** C9 fails as stated: the error of a [Write] without room and the error
    of a [Read] on an empty index are equal. *)
Lemma index_errors_counterexample :
  exists e, fst (Index.Write index_full 2 20) = Err e
            /\ Index.Read index_empty (-1) = Err e.
Proof. exists EOF. vm_compute. split; reflexivity. Qed.

(** ** Opening and closing the index *)

Lemma len_repeat {A} (x : A) (n : nat) : len (repeat x n) = Z.of_nat n.
Proof. unfold len. now rewrite repeat_length. Qed.

Lemma len_resize (d : list byte) (n : Z) : 0 <= n -> len (resize d n) = n.
Proof.
  intros H. unfold resize. rewrite len_app, len_firstn, len_repeat.
  unfold len. lia.
Qed.

Lemma resize_within (d : list byte) (n : Z) :
  0 <= n <= len d -> resize d n = firstn (Z.to_nat n) d.
Proof.
  intros H. unfold resize, len in *.
  replace (Z.to_nat n - List.length d)%nat with O by lia.
  apply app_nil_r.
Qed.

Lemma resize_grow (d : list byte) (n : Z) :
  len d <= n -> resize d n = d ++ repeat x00 (Z.to_nat n - List.length d).
Proof.
  intros H. unfold resize. rewrite firstn_len_all by assumption. reflexivity.
Qed.

(** What [newIndex] builds when it succeeds: the size is the length the
    file had, the file is exactly [MaxIndexBytes] long, and the map is
    the file. *)
Lemma newIndex_ok (f f1 : File) (c : Config) (i : Index.index) :
  Index.newIndex f c = (Ok i, f1) ->
  Index.size i = u64 (len (data f))
  /\ Index.file i = f1
  /\ Index.mmap i = data f1
  /\ data f1 = resize (data f) (i64 (MaxIndexBytes (Segment c)))
  /\ 0 < i64 (MaxIndexBytes (Segment c))
  /\ len (data f1) = i64 (MaxIndexBytes (Segment c)).
Proof.
  unfold Index.newIndex, OS.Truncate, OS.Size, Gommap.Map.
  set (M := i64 (MaxIndexBytes (Segment c))).
  destruct (Z.ltb_spec M 0); [discriminate|].
  cbn [closed data set_data].
  destruct (closed f); [discriminate|].
  destruct (Z.eqb_spec (len (resize (data f) M)) 0) as [Hz|Hz]; [discriminate|].
  intros E. inversion E; subst. cbn.
  rewrite len_resize in * by assumption.
  repeat split; try reflexivity; lia.
Qed.

Lemma Writes_ok (es : list (Z * Z)) :
  forall i i',
    0 <= Index.size i < 2 ^ 64 ->
    Index.Writes i es = (Ok tt, i') ->
    Index.size i' = Index.size i + entryWidth * len es
    /\ len (Index.mmap i') = len (Index.mmap i)
    /\ Index.file i' = Index.file i
    /\ 0 <= Index.size i' < 2 ^ 64
    /\ (Index.size i <= len (Index.mmap i) ->
        Index.size i' <= len (Index.mmap i')
        /\ firstn (Z.to_nat (Index.size i')) (Index.mmap i')
           = firstn (Z.to_nat (Index.size i)) (Index.mmap i)
               ++ flat_map Index.entry es).
Proof.
  change entryWidth with 12.
  induction es as [|[off pos] es IH]; intros i i' Hs; cbn [Index.Writes].
  - intros E. inversion E; subst. change (len (@nil (Z * Z))) with 0.
    cbn [flat_map]. rewrite app_nil_r.
    repeat split; auto; lia.
  - destruct (Index.Write i off pos) as [r i1] eqn:EW.
    destruct r as [[]|e|]; try discriminate.
    destruct (Write_ok_inv _ _ _ Hs EW) as (Hroom & Hw & ->).
    change entryWidth with 12 in *.
    intros E. apply IH in E; [|cbn [Index.size]; lia].
    cbn [Index.size Index.mmap Index.file] in E.
    destruct E as (E1 & E2 & E3 & E4 & E5).
    rewrite len_written in * by (change entryWidth with 12; lia).
    assert (Hcons : len ((off, pos) :: es) = 1 + len es)
      by (unfold len; cbn [List.length]; lia).
    rewrite Hcons.
    destruct (E5 Hroom) as [E5a E5b].
    split; [lia|]. split; [assumption|]. split; [assumption|]. split; [lia|].
    intros _. split; [lia|].
    + rewrite E5b.
      cbn [flat_map]. unfold Index.entry at 2. cbn [fst snd].
      rewrite !app_assoc. f_equal.
      unfold written. change entryWidth with 12.
      rewrite !app_assoc.
      replace (Index.size i + 12)
        with (len ((firstn (Z.to_nat (Index.size i)) (Index.mmap i)
                      ++ be_put 4 off) ++ be_put 8 pos))
        by (rewrite !len_app, !len_be_put, len_firstn; lia).
      apply firstn_len_app.
Qed.

Lemma Close_ok (i i' : Index.index) :
  0 <= Index.size i < 2 ^ 64 ->
  Index.Close i = (None, i') ->
  Index.size i < 2 ^ 63
  /\ data (Index.file i')
     = resize (Index.mmap i
                 ++ skipn (List.length (Index.mmap i)) (data (Index.file i)))
              (Index.size i)
  /\ len (data (Index.file i')) = Index.size i.
Proof.
  intros Hs. unfold Index.Close, OS.Sync, OS.FTruncate, OS.Truncate, OS.Close,
             Gommap.Sync.
  cbn [closed set_data data].
  destruct (closed (Index.file i)); [discriminate|].
  destruct (Z.ltb_spec (i64 (Index.size i)) 0); [discriminate|].
  cbn [closed set_data data]. destruct (closed (Index.file i)) eqn:Ec.
  - intros E; inversion E.
  - intros E; inversion E; subst; cbn.
    assert (Hsmall : Index.size i < 2 ^ 63).
    { destruct (Z.ltb_spec (Index.size i) (2 ^ 63)); [assumption|].
      pose proof (@i64_negative (Index.size i)). lia. }
    rewrite i64_small by lia.
    repeat split; auto. apply len_resize. lia.
Qed.

(** C5 fails on the code: [os.Truncate] sets the length, it does not
    only grow it.  A file of three entries opened with
    [MaxIndexBytes = 24] is cut to 24 bytes, the size stays 36, beyond
    the map, and reading the last entry panics. *)
Theorem newIndex_cuts_longer_file :
  len (data three_entries) = 36
  /\ exists i f',
      Index.newIndex three_entries config24 = (Ok i, f')
      /\ len (data f') = 24
      /\ Index.size i = 36
      /\ len (Index.mmap i) = 24
      /\ Index.Read i (-1) = Panic.
Proof.
  split; [reflexivity|].
  destruct (Index.newIndex three_entries config24) as [r f'] eqn:E.
  vm_compute in E. inversion E; subst.
  do 2 eexists. split; [reflexivity|].
  vm_compute. repeat split; reflexivity.
Qed.

(** C6: an index opened on a file of [k] whole entries, written [es]
    successfully and closed successfully leaves a file of
    [(k + len es) * 12] bytes; when the file fitted the map, these are
    the bytes it had followed by the entries written. *)
Theorem index_close_truncates
        (f f1 : File) (c : Config) (es : list (Z * Z))
        (i0 i1 i2 : Index.index) (k : Z) :
  len (data f) = k * entryWidth -> len (data f) < 2 ^ 63 ->
  Index.newIndex f c = (Ok i0, f1) ->
  Index.Writes i0 es = (Ok tt, i1) ->
  Index.Close i1 = (None, i2) ->
  len (data (Index.file i2)) = (k + len es) * entryWidth
  /\ (len (data f) <= len (Index.mmap i0) ->
      data (Index.file i2) = data f ++ flat_map Index.entry es).
Proof.
  change entryWidth with 12. intros Hk Hlt Enew Ewr Ecl.
  pose proof (len_nonneg (data f)) as Hf0.
  destruct (newIndex_ok _ _ Enew) as (Hs0 & Hfile0 & Hm0 & Hd1 & HM & Hl1).
  rewrite u64_small in Hs0 by lia.
  destruct (@Writes_ok es i0 i1) as (Hs1 & Hm1 & Hfile1 & Hr1 & Hin);
    [lia | assumption |].
  change entryWidth with 12 in Hs1.
  destruct (@Close_ok i1 i2) as (_ & Hdata & Hlen); [assumption..|].
  split; [lia|].
  intros Hfit. destruct Hin as [Hin1 Hin2]; [lia|].
  rewrite Hdata, Hfile1, Hfile0.
  assert (Hm1' : len (Index.mmap i1) = len (data f1)) by congruence.
  replace (List.length (Index.mmap i1)) with (Z.to_nat (len (data f1)))
    by (unfold len in *; lia).
  rewrite skipn_len_all, app_nil_r by lia.
  rewrite resize_within by lia.
  rewrite Hin2, Hs0, Hm0, Hd1. f_equal.
  rewrite resize_grow by (rewrite Hm0 in Hfit; lia).
  apply firstn_len_app.
Qed.

Lemma index_close_truncates_witness :
  len (data (Index.file (snd (Index.Close index_full)))) = 24
  /\ data (Index.file (snd (Index.Close index_full)))
     = flat_map Index.entry [(0, 0); (1, 10)].
Proof.
  destruct (@index_close_truncates
              empty_index_file (Index.file index_empty) config24
              [(0, 0); (1, 10)] index_empty index_full
              (snd (Index.Close index_full)) 0)
    as [Hlen Hdata]; try (vm_compute; reflexivity).
  split.
  - exact Hlen.
  - apply Hdata. vm_compute. congruence.
Defined.

(** ** Segments and the roll-over *)

Lemma Segment_Append_offsets `{Codec} (s s' : Segment.segment)
      (record : Record_) (r : result error Z) :
  Segment.Append s record = (r, s') ->
  Segment.baseOffset s' = Segment.baseOffset s
  /\ Segment.config s' = Segment.config s
  /\ match r with
     | Ok offset =>
       offset = Segment.nextOffset s
       /\ Segment.nextOffset s' = u64 (offset + 1)
     | _ => Segment.nextOffset s' = Segment.nextOffset s
     end.
Proof.
  unfold Segment.Append.
  destruct (Marshal _) as [p|]; [|intros E; inversion E; auto].
  destruct (Store.Append (Segment.store s) p) as [[[n pos]|e|] st].
  - destruct (Index.Write _ _ pos) as [[[]|e|] idx];
      intros E; inversion E; subst; auto.
  - intros E; inversion E; auto.
  - intros E; inversion E; auto.
Qed.

Lemma Segment_newSegment_base (d d' : Directory) (b : Z) (c : Config)
      (s : Segment.segment) :
  Segment.newSegment d b c = (Ok s, d') ->
  Segment.baseOffset s = b /\ Segment.config s = c.
Proof.
  unfold Segment.newSegment.
  destruct (OpenFile d _) as [sf d1].
  destruct (OpenFile d1 _) as [xf d2].
  destruct (Index.newIndex xf c) as [[idx|e|] f1]; try discriminate.
  destruct (Index.Read idx (-1)) as [[off pos]|e|]; try discriminate;
    intros E; inversion E; subst; auto.
Qed.

Lemma Log_newSegment_spec (l l' : Log.Log) (off : Z) (r : result error unit) :
  Log.newSegment l off = (r, l') ->
  Log.Config l' = Log.Config l
  /\ match r with
     | Ok _ =>
       exists s, Log.segments l' = Log.segments l ++ [s]
                 /\ Segment.baseOffset s = off
                 /\ Log.activeSegment l' = Some (List.length (Log.segments l))
     | _ => Log.segments l' = Log.segments l
            /\ Log.activeSegment l' = Log.activeSegment l
     end.
Proof.
  unfold Log.newSegment.
  destruct (Segment.newSegment _ off _) as [[s|e|] d] eqn:E;
    intros E'; inversion E'; subst; cbn; auto.
  split; [reflexivity|]. exists s.
  apply Segment_newSegment_base in E. intuition.
Qed.

Lemma list_set_last {A} (l : list A) (x y : A) :
  list_set (l ++ [x]) (List.length l) y = l ++ [y].
Proof. induction l; simpl; congruence. Qed.

Lemma nth_error_last {A} (l : list A) (x : A) :
  nth_error (l ++ [x]) (List.length l) = Some x.
Proof. induction l; simpl; auto. Qed.

Lemma contiguous_last (segs : list Segment.segment) (s s' : Segment.segment) :
  Segment.baseOffset s' = Segment.baseOffset s ->
  contiguous (segs ++ [s]) -> contiguous (segs ++ [s']).
Proof.
  intros Hb. induction segs as [|a segs IH]; simpl; [auto|].
  intros [H1 H2]. split; [|auto].
  destruct segs; simpl in *; congruence.
Qed.

Lemma contiguous_snoc (segs : list Segment.segment) (s new : Segment.segment) :
  Segment.baseOffset new = Segment.nextOffset s ->
  contiguous (segs ++ [s]) -> contiguous ((segs ++ [s]) ++ [new]).
Proof.
  intros Hb. induction segs as [|a segs IH]; simpl; [auto|].
  intros [H1 H2]. split; [|auto].
  destruct segs; simpl in *; congruence.
Qed.

(** ** Creating a segment succeeds *)

Lemma OpenFile_spec (d d' : Directory) (name : string) (f : File) :
  OpenFile d name = (f, d') ->
  closed f = false /\ Name f = name
  /\ ((exists f0, In f0 (entries d) /\ Name f0 = name /\ data f = data f0)
      \/ data f = [])
  /\ (forall g, In g (entries d') -> In g (entries d) \/ data g = []).
Proof.
  unfold OpenFile.
  destruct (find _ (entries d)) as [f0|] eqn:Ef; intros E; inversion E; subst.
  - apply find_some in Ef. destruct Ef as [Hin Hn].
    apply String.eqb_eq in Hn. cbn. repeat split; auto.
    left. exists f0. auto.
  - cbn. repeat split; auto.
    intros g Hg. apply in_app_or in Hg. destruct Hg as [Hg|[<-|[]]]; auto.
Qed.

Lemma index_files_fit_OpenFile (d d' : Directory) (c : Config)
      (name : string) (f : File) :
  mappable c -> index_files_fit d c -> OpenFile d name = (f, d') ->
  index_files_fit d' c
  /\ closed f = false
  /\ (forall b, name = index_name b ->
                len (data f) <= i64 (MaxIndexBytes (Segment c))).
Proof.
  unfold mappable, index_files_fit. intros Hc Hfit E.
  destruct (OpenFile_spec _ _ E) as (Hopen & Hname & Hdata & Hext).
  repeat split; auto.
  - intros g b Hg Hn. destruct (Hext g Hg) as [Hin|Hnil]; [eauto|].
    rewrite Hnil. change (len (@nil byte)) with 0. lia.
  - intros b Hb. destruct Hdata as [(f0 & Hin & Hn0 & Hd)|Hd]; rewrite Hd.
    + apply (Hfit f0 b); congruence.
    + change (len (@nil byte)) with 0. lia.
Qed.

Lemma newIndex_succeeds (f : File) (c : Config) :
  closed f = false -> mappable c ->
  exists i f1,
    Index.newIndex f c = (Ok i, f1)
    /\ Index.size i = u64 (len (data f))
    /\ len (Index.mmap i) = i64 (MaxIndexBytes (Segment c)).
Proof.
  unfold mappable. intros Hopen Hc.
  unfold Index.newIndex, OS.Truncate, OS.Size, Gommap.Map.
  set (M := i64 (MaxIndexBytes (Segment c))) in *.
  destruct (Z.ltb_spec M 0); [lia|].
  cbn [closed data set_data]. rewrite Hopen.
  destruct (Z.eqb_spec (len (resize (data f) M)) 0) as [Hz|Hz].
  - rewrite len_resize in Hz by lia. lia.
  - do 2 eexists. split; [reflexivity|]. cbn.
    split; [reflexivity|]. apply len_resize. lia.
Qed.

Lemma Read_last_no_panic (i : Index.index) :
  Index.size i <= len (Index.mmap i) -> Index.Read i (-1) <> Panic.
Proof.
  intros Hs. unfold Index.Read.
  destruct (Index.size i =? 0); [discriminate|].
  change (-1 =? -1) with true. cbv iota.
  set (output := u32 _).
  assert (Ho : 0 <= output < 2 ^ 32) by apply u32_range.
  change entryWidth with 12. change (u64 12) with 12.
  rewrite (@u64_small (output * 12)) by lia.
  rewrite (@u64_small (output * 12 + 12)) by lia.
  destruct (Z.ltb_spec (Index.size i) (output * 12 + 12)); [discriminate|].
  destruct (Z.ltb_spec (len (Index.mmap i)) (output * 12 + 12));
    [lia | discriminate].
Qed.

Lemma Segment_newSegment_succeeds (d : Directory) (b : Z) (c : Config) :
  mappable c -> index_files_fit d c ->
  exists s d',
    Segment.newSegment d b c = (Ok s, d') /\ index_files_fit d' c.
Proof.
  intros Hc Hfit. unfold Segment.newSegment.
  destruct (OpenFile d (store_name b)) as [sf d1] eqn:E1.
  destruct (@index_files_fit_OpenFile _ _ _ _ _ Hc Hfit E1) as (Hfit1 & _ & _).
  destruct (OpenFile d1 (index_name b)) as [xf d2] eqn:E2.
  destruct (@index_files_fit_OpenFile _ _ _ _ _ Hc Hfit1 E2) as (Hfit2 & Hopen & Hlen).
  specialize (Hlen b eq_refl).
  destruct (@newIndex_succeeds _ c Hopen Hc) as (i & f1 & Enew & Hsz & Hm).
  rewrite Enew.
  pose proof (len_nonneg (data xf)) as H0.
  assert (Hsmall : i64 (MaxIndexBytes (Segment c)) < 2 ^ 63).
  { unfold i64. pose proof (Z.mod_pos_bound (MaxIndexBytes (Segment c) + 2 ^ 63)
                                            (2 ^ 64)). lia. }
  rewrite u64_small in Hsz by lia.
  pose proof (@Read_last_no_panic i) as Hnp.
  destruct (Index.Read i (-1)) as [[off pos]|e|].
  - eauto.
  - eauto.
  - exfalso. apply Hnp; [lia | reflexivity].
Qed.

Lemma Log_newSegment_succeeds (l : Log.Log) (off : Z) :
  mappable (Log.Config l) -> index_files_fit (Log.Dir l) (Log.Config l) ->
  exists l',
    Log.newSegment l off = (Ok tt, l')
    /\ index_files_fit (Log.Dir l') (Log.Config l').
Proof.
  intros Hc Hfit. unfold Log.newSegment.
  destruct (@Segment_newSegment_succeeds _ off _ Hc Hfit) as (s & d' & E & Hfit').
  rewrite E. eexists. split; [reflexivity|]. exact Hfit'.
Qed.

(** C4: an append keeps the segments contiguous and the active segment
    last; and when the delegated append returns [offset] and leaves the
    active segment maxed, a segment with base offset [offset + 1], the
    next offset of the one before it, is added at the end and becomes
    active (the index being mappable and no index file of the directory
    longer than the map). *)
Theorem log_append_rolls_contiguously `{Codec}
        (l l' : Log.Log) (record : Record_)
        (r : result error (Z * option error)) :
  contiguous (Log.segments l) -> active_last l ->
  Log.Append l record = (r, l') ->
  contiguous (Log.segments l') /\ active_last l'
  /\ forall a s offset s',
      Log.activeSegment l = Some a ->
      nth_error (Log.segments l) a = Some s ->
      Segment.Append s record = (Ok offset, s') ->
      Segment.IsMaxed s' = true ->
      mappable (Log.Config l) ->
      index_files_fit (Log.Dir l) (Log.Config l) ->
      r = Ok (offset, None)
      /\ exists new,
          Log.segments l' = list_set (Log.segments l) a s' ++ [new]
          /\ Segment.baseOffset new = u64 (offset + 1)
          /\ Segment.baseOffset new = Segment.nextOffset s'
          /\ Log.activeSegment l' = Some (List.length (Log.segments l))
          /\ nth_error (Log.segments l') (List.length (Log.segments l))
             = Some new.
Proof.
  intros Hcont (segs & s0 & Hsegs & Hact) E.
  unfold Log.Append in E. rewrite Hact, Hsegs, nth_error_last in E.
  destruct (Segment.Append s0 record) as [r0 s0'] eqn:EA.
  destruct (Segment_Append_offsets _ _ EA) as (Hb & Hcfg & Hr0).
  rewrite list_set_last in E.
  assert (Hcont' : contiguous (segs ++ [s0']))
    by (rewrite Hsegs in Hcont; eapply contiguous_last; eauto).
  assert (Hlast' : forall d c,
             active_last (Log.mkLog d c (Some (List.length segs)) (segs ++ [s0'])))
    by (intros d c; exists segs, s0'; auto).
  assert (Hlen : List.length (Log.segments l) = List.length (segs ++ [s0']))
    by (rewrite Hsegs, !length_app; reflexivity).
  assert (Hsame : forall a s offset s',
             Log.activeSegment l = Some a ->
             nth_error (Log.segments l) a = Some s ->
             Segment.Append s record = (Ok offset, s') ->
             a = List.length segs /\ r0 = Ok offset /\ s' = s0').
  { intros a s offset s' Ha Hn EA'.
    rewrite Hact in Ha. inversion Ha; subst a.
    rewrite Hsegs, nth_error_last in Hn. inversion Hn; subst s.
    rewrite EA in EA'. inversion EA'; auto. }
  destruct r0 as [offset|e|].
  - destruct Hr0 as [Hoff Hnext].
    destruct (Segment.IsMaxed s0') eqn:Emax.
    + destruct (Log.newSegment _ (u64 (offset + 1))) as [r2 l2] eqn:E2.
      destruct (Log_newSegment_spec _ _ E2) as (_ & Hspec).
      cbn [Log.segments Log.activeSegment] in Hspec.
      destruct r2 as [[]|e|].
      * inversion E; subst r l'. clear E.
        destruct Hspec as (new & Hs2 & Hbn & Ha2).
        split; [|split].
        -- rewrite Hs2. apply contiguous_snoc; [congruence | assumption].
        -- exists (segs ++ [s0']), new. auto.
        -- intros a s offset' s' Ha Hn EA' _ _ _.
           destruct (Hsame _ _ _ _ Ha Hn EA') as (-> & Ho & ->).
           inversion Ho; subst offset'.
           split; [reflexivity|]. exists new.
           rewrite Hlen, Hsegs, list_set_last, Hs2.
           repeat (split; [congruence|]). apply nth_error_last.
      * inversion E; subst r l'. clear E.
        destruct Hspec as [Hs2 Ha2]. rewrite Hs2.
        split; [assumption|]. split.
        -- exists segs, s0'. auto.
        -- intros a s offset' s' _ _ _ _ Hc Hfit. exfalso.
           destruct (@Log_newSegment_succeeds
                       (Log.mkLog (Log.Dir l) (Log.Config l)
                                  (Some (List.length segs)) (segs ++ [s0']))
                       (u64 (offset + 1)) Hc Hfit) as (l3 & E3 & _).
           congruence.
      * inversion E; subst r l'. clear E.
        destruct Hspec as [Hs2 Ha2]. rewrite Hs2.
        split; [assumption|]. split.
        -- exists segs, s0'. auto.
        -- intros a s offset' s' _ _ _ _ Hc Hfit. exfalso.
           destruct (@Log_newSegment_succeeds
                       (Log.mkLog (Log.Dir l) (Log.Config l)
                                  (Some (List.length segs)) (segs ++ [s0']))
                       (u64 (offset + 1)) Hc Hfit) as (l3 & E3 & _).
           congruence.
    + inversion E; subst r l'. cbn.
      split; [assumption|]. split; [apply Hlast'|].
      intros a s offset' s' Ha Hn EA' Hmax.
      destruct (Hsame _ _ _ _ Ha Hn EA') as (_ & _ & ->). congruence.
  - inversion E; subst r l'. cbn.
    split; [assumption|]. split; [apply Hlast'|].
    intros a s offset' s' Ha Hn EA'.
    destruct (Hsame _ _ _ _ Ha Hn EA') as (_ & Ho & _). discriminate.
  - inversion E; subst r l'. cbn.
    split; [assumption|]. split; [apply Hlast'|].
    intros a s offset' s' Ha Hn EA'.
    destruct (Hsame _ _ _ _ Ha Hn EA') as (_ & Ho & _). discriminate.
Qed.

Lemma log_append_rolls_contiguously_witness :
  contiguous (Log.segments log_two) /\ active_last log_two
  /\ exists new,
      nth_error (Log.segments log_two) 1 = Some new
      /\ Segment.baseOffset new = 2
      /\ Log.activeSegment log_two = Some 1%nat.
Proof.
  destruct (@log_append_rolls_contiguously
              plain_codec log_one log_two (mkRecord hello 0) (Ok (1, None)))
    as (Hc & Hl & Hroll).
  - vm_compute. auto.
  - exists []. eexists. split; vm_compute; reflexivity.
  - vm_compute. reflexivity.
  - split; [exact Hc|]. split; [exact Hl|].
    destruct (nth_error (Log.segments log_one) 0) as [s|] eqn:Es;
      [|vm_compute in Es; discriminate].
    destruct (@Segment.Append plain_codec s (mkRecord hello 0)) as [r s'] eqn:EA.
    assert (Hs : Some s = nth_error (Log.segments log_one) 0) by congruence.
    vm_compute in Hs. inversion Hs; subst s. clear Hs.
    assert (Hr : r = Ok 1) by (vm_compute in EA; congruence).
    subst r.
    destruct (Hroll 0%nat _ 1 s' eq_refl Es EA) as (_ & new & _ & Hb & _ & Ha & Hn).
    + assert (Hs' : s' = snd (@Segment.Append plain_codec _ (mkRecord hello 0)))
        by (rewrite EA; reflexivity).
      rewrite Hs'. vm_compute. reflexivity.
    + vm_compute. reflexivity.
    + intros f b Hin. vm_compute in Hin. destruct Hin as [<-|[<-|[]]];
        intros _; vm_compute; discriminate.
    + exists new. split; [exact Hn|]. split; [exact Hb|exact Ha].
Defined.

(** ** Routing a read *)

Lemma holds_iff (offset : Z) (s : Segment.segment) :
  Log.holds offset s = true
  <-> Segment.baseOffset s <= offset < Segment.nextOffset s.
Proof. unfold Log.holds. rewrite andb_true_iff, Z.leb_le, Z.ltb_lt. tauto. Qed.

Lemma scan_Some (segs : list Segment.segment) (offset : Z) :
  forall k, Log.scan segs offset = Some k ->
  exists s, nth_error segs k = Some s
            /\ Segment.baseOffset s <= offset < Segment.nextOffset s.
Proof.
  induction segs as [|s segs IH]; simpl; [discriminate|].
  intros k. destruct (Log.holds offset s) eqn:Eh.
  - intros E; inversion E; subst. exists s. split; [reflexivity|].
    now apply holds_iff.
  - destruct (Log.scan segs offset) as [j|]; [|discriminate].
    intros E; inversion E; subst. simpl. apply IH. reflexivity.
Qed.

Lemma scan_None (segs : list Segment.segment) (offset : Z) :
  Log.scan segs offset = None <->
  Forall (fun s => ~ (Segment.baseOffset s <= offset < Segment.nextOffset s)) segs.
Proof.
  induction segs as [|s segs IH]; simpl.
  - split; auto.
  - destruct (Log.holds offset s) eqn:Eh.
    + split; [discriminate|]. intros Hf. inversion Hf; subst.
      apply holds_iff in Eh. contradiction.
    + assert (Hn : ~ (Segment.baseOffset s <= offset < Segment.nextOffset s)).
      { intros Hin. apply holds_iff in Hin. congruence. }
      destruct (Log.scan segs offset) as [j|]; simpl.
      * split; [discriminate|]. intros Hf. inversion Hf as [|? ? _ Hf']; subst.
        apply IH in Hf'. discriminate.
      * split; [|reflexivity]. intros _. constructor; [assumption|].
        apply IH. reflexivity.
Qed.

(** In a contiguous, ordered list every later segment starts at or after
    the end of the first. *)
Lemma contiguous_after (s : Segment.segment) (rest : list Segment.segment) :
  contiguous (s :: rest) -> ordered (s :: rest) ->
  Forall (fun t => Segment.nextOffset s <= Segment.baseOffset t) rest.
Proof.
  revert s. induction rest as [|t rest IH]; intros s Hc Ho; [constructor|].
  destruct Hc as [Hst Hc]. inversion Ho as [|? ? Hs Ho']; subst.
  constructor; [lia|].
  specialize (IH t Hc Ho'). inversion Ho'; subst.
  eapply Forall_impl; [|exact IH]. simpl. intros u Hu. lia.
Qed.

(** No segment holds the offset exactly when the offset is before the
    first segment or at or after the end of the last. *)
Lemma none_holds_iff (segs : list Segment.segment) (s last_ : Segment.segment)
      (offset : Z) :
  contiguous (segs ++ [last_]) -> ordered (segs ++ [last_]) ->
  hd_error (segs ++ [last_]) = Some s ->
  (Forall (fun t => ~ (Segment.baseOffset t <= offset < Segment.nextOffset t))
          (segs ++ [last_])
   <-> offset < Segment.baseOffset s \/ Segment.nextOffset last_ <= offset).
Proof.
  revert s. induction segs as [|t segs IH]; intros s Hc Ho Hhd.
  - simpl in *. inversion Hhd; subst. inversion Ho; subst. split.
    + intros Hf. inversion Hf; subst. lia.
    + intros Hr. constructor; [lia|constructor].
  - simpl in Hhd. inversion Hhd; subst t. clear Hhd.
    change ((s :: segs) ++ [last_]) with (s :: (segs ++ [last_])) in *.
    destruct Hc as [Hst Hc]. inversion Ho as [|? ? Hs Ho']; subst.
    destruct (segs ++ [last_]) as [|t2 rest] eqn:Erest;
      [destruct segs; discriminate|].
    specialize (IH t2 Hc Ho' eq_refl).
    assert (Hlast : Segment.baseOffset t2 <= Segment.nextOffset last_).
    { pose proof (contiguous_after Hc Ho') as Haft.
      inversion Ho' as [|? ? Ht2 Hrest]; subst.
      assert (Hin : In last_ (t2 :: rest))
        by (rewrite <- Erest; apply in_or_app; right; left; reflexivity).
      destruct Hin as [->|Hin]; [assumption|].
      rewrite Forall_forall in Haft. specialize (Haft _ Hin).
      rewrite Forall_forall in Hrest. specialize (Hrest _ Hin). lia. }
    split.
    + intros Hf. inversion Hf as [|? ? Hn Hf']; subst.
      apply IH in Hf'. lia.
    + intros Hr. constructor; [lia|]. apply IH. lia.
Qed.

(** At most one segment of a contiguous, ordered list holds an offset. *)
Lemma holder_unique (segs : list Segment.segment) (offset : Z) :
  contiguous segs -> ordered segs ->
  forall k k' s s',
    nth_error segs k = Some s -> nth_error segs k' = Some s' ->
    Segment.baseOffset s <= offset < Segment.nextOffset s ->
    Segment.baseOffset s' <= offset < Segment.nextOffset s' ->
    k = k'.
Proof.
  induction segs as [|t segs IH]; intros Hc Ho k k' s s' Hk Hk' Hs Hs'.
  - destruct k; discriminate.
  - pose proof (contiguous_after Hc Ho) as Haft.
    rewrite Forall_forall in Haft.
    destruct Hc as [_ Hc]. inversion Ho; subst.
    destruct k as [|k], k' as [|k']; simpl in Hk, Hk'.
    + reflexivity.
    + inversion Hk; subst. apply nth_error_In in Hk'.
      specialize (Haft _ Hk'). lia.
    + inversion Hk'; subst. apply nth_error_In in Hk.
      specialize (Haft _ Hk). lia.
    + f_equal. eapply IH; eauto.
Qed.

Lemma Segment_Read_not_range `{Codec} (s : Segment.segment) (off o : Z) :
  fst (Segment.Read s off) <> Err (ErrOffsetOutOfRange o).
Proof.
  unfold Segment.Read.
  destruct (Index.Read _ _) as [[rel pos]|e|]; try (simpl; discriminate).
  destruct (Store.Read _ pos) as [[b|e|] st]; try (simpl; discriminate).
  destruct (Unmarshal b); simpl; discriminate.
Qed.

(** C2: on a log whose segments are contiguous and ordered and whose
    active segment is the last, [Read] fails with [ErrOffsetOutOfRange]
    exactly when the offset is below the first segment's base offset or
    at or above the active segment's next offset, and then leaves the
    log as it was; otherwise exactly one segment holds the offset, and
    [Read] returns what that segment's [Read] returns. *)
Theorem log_read_routes `{Codec}
        (l : Log.Log) (offset : Z) (first active : Segment.segment) (a : nat) :
  contiguous (Log.segments l) -> ordered (Log.segments l) -> active_last l ->
  hd_error (Log.segments l) = Some first ->
  Log.activeSegment l = Some a ->
  nth_error (Log.segments l) a = Some active ->
  (fst (Log.Read l offset) = Err (ErrOffsetOutOfRange offset)
   <-> offset < Segment.baseOffset first
       \/ Segment.nextOffset active <= offset)
  /\ (offset < Segment.baseOffset first
      \/ Segment.nextOffset active <= offset ->
      Log.Read l offset = (Err (ErrOffsetOutOfRange offset), l))
  /\ (Segment.baseOffset first <= offset < Segment.nextOffset active ->
      exists k s,
        nth_error (Log.segments l) k = Some s
        /\ Segment.baseOffset s <= offset < Segment.nextOffset s
        /\ (forall k' s',
               nth_error (Log.segments l) k' = Some s' ->
               Segment.baseOffset s' <= offset < Segment.nextOffset s' ->
               k' = k)
        /\ Log.Read l offset
           = (fst (Segment.Read s offset),
              Log.mkLog (Log.Dir l) (Log.Config l) (Log.activeSegment l)
                        (list_set (Log.segments l) k
                                  (snd (Segment.Read s offset))))).
Proof.
  intros Hc Ho (segs & last_ & Hsegs & Hact) Hhd Ha Hn.
  assert (Hactive : active = last_).
  { rewrite Hact in Ha. inversion Ha; subst a.
    rewrite Hsegs, nth_error_last in Hn. congruence. }
  subst active.
  assert (Hnone : Log.scan (Log.segments l) offset = None
                  <-> offset < Segment.baseOffset first
                      \/ Segment.nextOffset last_ <= offset).
  { rewrite scan_None, Hsegs. rewrite Hsegs in Hc, Ho, Hhd.
    apply none_holds_iff; assumption. }
  assert (Hout : offset < Segment.baseOffset first
                 \/ Segment.nextOffset last_ <= offset ->
                 Log.Read l offset = (Err (ErrOffsetOutOfRange offset), l)).
  { intros Hr. apply Hnone in Hr. unfold Log.Read. rewrite Hr. reflexivity. }
  assert (Hin : Segment.baseOffset first <= offset < Segment.nextOffset last_ ->
                exists k s,
                  nth_error (Log.segments l) k = Some s
                  /\ Segment.baseOffset s <= offset < Segment.nextOffset s
                  /\ Log.Read l offset
                     = (fst (Segment.Read s offset),
                        Log.mkLog (Log.Dir l) (Log.Config l)
                                  (Log.activeSegment l)
                                  (list_set (Log.segments l) k
                                            (snd (Segment.Read s offset))))).
  { intros Hr.
    destruct (Log.scan (Log.segments l) offset) as [k|] eqn:Es;
      [|pose proof (proj1 Hnone eq_refl); lia].
    destruct (scan_Some _ _ Es) as (s & Hk & Hs).
    exists k, s. split; [assumption|]. split; [assumption|].
    unfold Log.Read. rewrite Es, Hk.
    destruct (Z.leb_spec (Segment.nextOffset s) offset); [lia|].
    destruct (Segment.Read s offset). reflexivity. }
  split; [|split].
  - split; [|intros Hr; rewrite Hout by assumption; reflexivity].
    intros E.
    destruct (Z.ltb_spec offset (Segment.baseOffset first)); [auto|].
    destruct (Z.leb_spec (Segment.nextOffset last_) offset); [auto|].
    exfalso. destruct Hin as (k & s & _ & _ & ER); [lia|].
    rewrite ER in E. simpl in E.
    exact (@Segment_Read_not_range _ s offset offset E).
  - exact Hout.
  - intros Hr. destruct (Hin Hr) as (k & s & Hk & Hs & ER).
    exists k, s. repeat (split; [assumption|]). split; [|exact ER].
    intros k' s' Hk' Hs'. eapply holder_unique; eauto.
Qed.

Lemma log_read_routes_witness :
  @Log.Read plain_codec log_two 2 = (Err (ErrOffsetOutOfRange 2), log_two)
  /\ exists k s,
      nth_error (Log.segments log_two) k = Some s
      /\ Segment.baseOffset s <= 1 < Segment.nextOffset s
      /\ fst (@Log.Read plain_codec log_two 1)
         = fst (@Segment.Read plain_codec s 1).
Proof.
  assert (Hc : contiguous (Log.segments log_two)) by (vm_compute; auto).
  assert (Ho : ordered (Log.segments log_two))
    by (repeat constructor; vm_compute; discriminate).
  assert (Hl : active_last log_two)
    by (exists [log_two_first], log_two_active; split; vm_compute; reflexivity).
  assert (Hhd : hd_error (Log.segments log_two) = Some log_two_first)
    by (vm_compute; reflexivity).
  assert (Hn : nth_error (Log.segments log_two) 1 = Some log_two_active)
    by (vm_compute; reflexivity).
  split.
  - destruct (@log_read_routes plain_codec log_two 2 _ _ 1%nat
                               Hc Ho Hl Hhd eq_refl Hn) as (_ & Hout & _).
    apply Hout. right. vm_compute. discriminate.
  - destruct (@log_read_routes plain_codec log_two 1 _ _ 1%nat
                               Hc Ho Hl Hhd eq_refl Hn) as (_ & _ & Hin).
    destruct Hin as (k & s & Hk & Hs & _ & ER);
      [vm_compute; split; congruence|].
    exists k, s. split; [exact Hk|]. split; [exact Hs|].
    rewrite ER. reflexivity.
Defined.

(** ** File names and the base offsets read from them *)

Lemma chars_app (s t : string) : chars (s ++ t) = chars s ++ chars t.
Proof. unfold chars. induction s; simpl; congruence. Qed.

Lemma chars_of_list (l : list ascii) : chars (string_of_list_ascii l) = l.
Proof. apply list_ascii_of_string_of_list_ascii. Qed.

Lemma digit_char_is_digit (d : Z) :
  0 <= d <= 9 ->
  digit_value (digit_char d) = Some d
  /\ Z.of_nat (nat_of_ascii (digit_char d)) - 48 = d.
Proof.
  intros Hd. unfold digit_value, digit_char.
  rewrite nat_ascii_embedding by lia.
  rewrite Z2Nat.id by lia.
  destruct (Z.leb_spec 48 (48 + d)); [|lia].
  destruct (Z.leb_spec (48 + d) 57); [|lia].
  cbn [andb]. split; [f_equal|]; lia.
Qed.

Lemma digits_value_app (a b : list ascii) (x : Z) :
  digits_value (a ++ b) x = digits_value b (digits_value a x).
Proof. unfold digits_value. apply fold_left_app. Qed.

Lemma digits_S (k : nat) (n : Z) (acc : list ascii) :
  digits (S k) n acc =
  if n <? 10 then digit_char (n mod 10) :: acc
  else digits k (n / 10) (digit_char (n mod 10) :: acc).
Proof. reflexivity. Qed.

Lemma digits_spec (k : nat) :
  forall n acc,
    0 <= n < 10 ^ Z.of_nat (S k) ->
    exists D,
      digits (S k) n acc = D ++ acc /\ D <> [] /\ Forall is_digit D
      /\ forall a, digits_value D a = a * 10 ^ len D + n.
Proof.
  induction k as [|k IH]; intros n acc Hn.
  - change (10 ^ Z.of_nat 1) with 10 in Hn.
    rewrite digits_S. destruct (Z.ltb_spec n 10); [|lia].
    rewrite Z.mod_small by lia.
    destruct (@digit_char_is_digit n) as [Hv Hc]; [lia|].
    exists [digit_char n]. repeat split.
    + discriminate.
    + constructor; [|constructor]. exists n. repeat split; auto; lia.
    + intros a. unfold digits_value. cbn. rewrite Hc. lia.
  - rewrite digits_S. destruct (Z.ltb_spec n 10).
    + rewrite Z.mod_small by lia.
      destruct (@digit_char_is_digit n) as [Hv Hc]; [lia|].
      exists [digit_char n]. repeat split.
      * discriminate.
      * constructor; [|constructor]. exists n. repeat split; auto; lia.
      * intros a. unfold digits_value. cbn. rewrite Hc. lia.
    + assert (Hm : 0 <= n mod 10 < 10) by (apply Z.mod_pos_bound; lia).
      assert (Hdm : n = 10 * (n / 10) + n mod 10) by (apply Z.div_mod; lia).
      assert (Hq : 0 <= n / 10 < 10 ^ Z.of_nat (S k)).
      { split; [apply Z.div_pos; lia|].
        apply Z.div_lt_upper_bound; [lia|].
        replace (Z.of_nat (S (S k))) with (Z.of_nat (S k) + 1) in Hn by lia.
        rewrite Z.pow_add_r in Hn by lia. lia. }
      destruct (IH (n / 10) (digit_char (n mod 10) :: acc) Hq)
        as (D & HD & Hne & Hall & Hval).
      destruct (@digit_char_is_digit (n mod 10)) as [Hv Hc]; [lia|].
      exists (D ++ [digit_char (n mod 10)]). repeat split.
      * rewrite HD, <- app_assoc. reflexivity.
      * destruct D; discriminate.
      * apply Forall_app. split; [assumption|].
        constructor; [|constructor]. exists (n mod 10). repeat split; auto; lia.
      * intros a. rewrite digits_value_app, Hval, len_app.
        unfold digits_value at 1. cbn [fold_left]. rewrite Hc.
        change (len [digit_char (n mod 10)]) with 1.
        rewrite Z.pow_add_r by (pose proof (len_nonneg D); lia).
        lia.
Qed.

Lemma digits_value_ge (D : list ascii) :
  Forall is_digit D -> forall a, 0 <= a -> a <= digits_value D a.
Proof.
  induction 1 as [|c D (d & Hd & _ & Hc) _ IH]; intros a Ha.
  - unfold digits_value. simpl. lia.
  - unfold digits_value in *. cbn [fold_left]. rewrite Hc.
    specialize (IH (a * 10 + d)). lia.
Qed.

Lemma ParseUint_loop_digits (D : list ascii) :
  Forall is_digit D ->
  forall a, 0 <= a -> digits_value D a < 2 ^ 64 ->
            ParseUint_loop D a = (digits_value D a, None).
Proof.
  induction 1 as [|c D (d & Hd & Hv & Hc) Hall IH]; intros a Ha Hlt.
  - reflexivity.
  - cbn [ParseUint_loop]. rewrite Hv.
    assert (Hstep : digits_value (c :: D) a = digits_value D (a * 10 + d)).
    { unfold digits_value. cbn [fold_left]. rewrite Hc. reflexivity. }
    rewrite Hstep in *.
    pose proof (@digits_value_ge D Hall (a * 10 + d)) as Hge.
    change (maxUint64 / 10 + 1) with 1844674407370955162.
    change maxUint64 with 18446744073709551615.
    change (2 ^ 64) with 18446744073709551616 in *.
    destruct (Z.leb_spec 1844674407370955162 a); [lia|].
    rewrite (@u64_small (a * 10)) by (change (2 ^ 64) with 18446744073709551616; lia).
    rewrite (@u64_small (a * 10 + d)) by (change (2 ^ 64) with 18446744073709551616; lia).
    destruct (Z.ltb_spec (a * 10 + d) (a * 10)); [lia|].
    destruct (Z.ltb_spec 18446744073709551615 (a * 10 + d)); [lia|].
    cbn [orb]. apply IH; lia.
Qed.

Lemma FormatUint_digits (b : Z) :
  0 <= b < 2 ^ 64 ->
  exists D, chars (FormatUint b) = D /\ D <> [] /\ Forall is_digit D
            /\ digits_value D 0 = b.
Proof.
  intros Hb. unfold FormatUint. rewrite chars_of_list.
  destruct (@digits_spec 19 b []) as (D & HD & Hne & Hall & Hval).
  { change (10 ^ Z.of_nat 20) with 100000000000000000000.
    change (2 ^ 64) with 18446744073709551616 in Hb. lia. }
  rewrite app_nil_r in HD. exists D.
  split; [exact HD|]. split; [exact Hne|]. split; [exact Hall|].
  rewrite Hval. lia.
Qed.

Lemma ParseUint_FormatUint (b : Z) :
  0 <= b < 2 ^ 64 -> ParseUint (FormatUint b) = (b, None).
Proof.
  intros Hb. destruct (FormatUint_digits Hb) as (D & HD & Hne & Hall & Hval).
  unfold ParseUint. rewrite HD. destruct D as [|c D]; [congruence|].
  rewrite ParseUint_loop_digits; [congruence | assumption | lia | lia].
Qed.

Lemma list_eqb_refl (l : list ascii) : list_eqb l l = true.
Proof. induction l; simpl; [reflexivity|]. now rewrite Ascii.eqb_refl. Qed.

Lemma TrimSuffix_app (s suffix : string) :
  TrimSuffix (s ++ suffix) suffix = s.
Proof.
  unfold TrimSuffix, HasSuffix. rewrite chars_app, length_app.
  replace (List.length (chars s) + List.length (chars suffix)
           - List.length (chars suffix))%nat
    with (List.length (chars s)) by lia.
  rewrite skipn_app, skipn_all, Nat.sub_diag. simpl skipn.
  rewrite list_eqb_refl.
  destruct (Nat.leb_spec (List.length (chars suffix))
                         (List.length (chars s) + List.length (chars suffix)));
    [|lia].
  cbn [andb]. rewrite firstn_app, firstn_all, Nat.sub_diag. simpl firstn.
  rewrite app_nil_r. apply string_of_list_ascii_of_string.
Qed.

Lemma Path_Ext_store (b : Z) : Path_Ext (store_name b) = ".store"%string.
Proof.
  unfold Path_Ext, store_name. rewrite chars_app, rev_app_distr. reflexivity.
Qed.

Lemma Path_Ext_index (b : Z) : Path_Ext (index_name b) = ".index"%string.
Proof.
  unfold Path_Ext, index_name. rewrite chars_app, rev_app_distr. reflexivity.
Qed.

Lemma name_offset_store (b : Z) :
  0 <= b < 2 ^ 64 -> Log.name_offset (store_name b) = b.
Proof.
  intros Hb. unfold Log.name_offset. rewrite Path_Ext_store.
  unfold store_name. rewrite TrimSuffix_app, ParseUint_FormatUint by assumption.
  reflexivity.
Qed.

Lemma name_offset_index (b : Z) :
  0 <= b < 2 ^ 64 -> Log.name_offset (index_name b) = b.
Proof.
  intros Hb. unfold Log.name_offset. rewrite Path_Ext_index.
  unfold index_name. rewrite TrimSuffix_app, ParseUint_FormatUint by assumption.
  reflexivity.
Qed.

(** ** Sorting the base offsets *)

(** Each element twice, as the listing of paired files gives them. *)
Lemma map_name_offset_paired (bs : list Z) :
  Forall (fun b => 0 <= b < 2 ^ 64) bs ->
  map Log.name_offset (paired_listing bs) = flat_map (fun b => [b; b]) bs.
Proof.
  induction 1 as [|b bs Hb _ IH]; [reflexivity|].
  unfold paired_listing in *. cbn [flat_map app map].
  rewrite name_offset_store, name_offset_index, IH by assumption.
  reflexivity.
Qed.

Lemma sort_insert_perm (x : Z) (l : list Z) :
  Permutation (sort_insert x l) (x :: l).
Proof.
  induction l as [|y l IH]; simpl; [reflexivity|].
  destruct (x <=? y); [reflexivity|].
  rewrite IH. apply perm_swap.
Qed.

Lemma sort_Slice_perm (l : list Z) : Permutation (sort_Slice l) l.
Proof.
  induction l as [|x l IH]; simpl; [reflexivity|].
  rewrite sort_insert_perm. now constructor.
Qed.

Lemma sort_insert_sorted (x : Z) (l : list Z) :
  StronglySorted Z.le l -> StronglySorted Z.le (sort_insert x l).
Proof.
  induction 1 as [|y l Hs IH Hy]; simpl.
  - constructor; constructor.
  - destruct (Z.leb_spec x y).
    + constructor; [constructor; assumption|].
      constructor; [lia|]. eapply Forall_impl; [|exact Hy]. simpl. lia.
    + constructor; [assumption|].
      apply Forall_forall. intros z Hz.
      apply (Permutation_in _ (sort_insert_perm x l)) in Hz.
      destruct Hz as [<-|Hz]; [lia|].
      rewrite Forall_forall in Hy. auto.
Qed.

Lemma sort_Slice_sorted (l : list Z) : StronglySorted Z.le (sort_Slice l).
Proof.
  induction l; simpl; [constructor|]. now apply sort_insert_sorted.
Qed.

(** A list has one sorted arrangement. *)
Lemma sorted_perm_unique (l1 : list Z) :
  forall l2, StronglySorted Z.le l1 -> StronglySorted Z.le l2 ->
             Permutation l1 l2 -> l1 = l2.
Proof.
  induction l1 as [|a l1 IH]; intros l2 H1 H2 Hp.
  - apply Permutation_nil in Hp. congruence.
  - destruct l2 as [|b l2];
      [symmetry in Hp; apply Permutation_nil in Hp; discriminate|].
    inversion H1 as [|? ? Hs1 Ha]; subst.
    inversion H2 as [|? ? Hs2 Hb]; subst.
    rewrite Forall_forall in Ha, Hb.
    assert (Hab : a = b).
    { assert (Hina : In a (b :: l2))
        by (apply (Permutation_in _ Hp); left; reflexivity).
      assert (Hinb : In b (a :: l1))
        by (apply (Permutation_in _ (Permutation_sym Hp)); left; reflexivity).
      destruct Hina as [->|Hina]; [reflexivity|].
      destruct Hinb as [->|Hinb]; [reflexivity|].
      specialize (Ha _ Hinb). specialize (Hb _ Hina). lia. }
    subst b. f_equal. apply IH; try assumption.
    eapply Permutation_cons_inv. exact Hp.
Qed.

Lemma twice_perm (l l' : list Z) :
  Permutation l l' ->
  Permutation (flat_map (fun b => [b; b]) l) (flat_map (fun b => [b; b]) l').
Proof.
  induction 1 as [| x l l' _ IH | x y l | l l' l'' _ IH1 _ IH2]; simpl.
  - reflexivity.
  - now do 2 constructor.
  - change (Permutation (([y; y] ++ [x; x]) ++ flat_map (fun b => [b; b]) l)
                        (([x; x] ++ [y; y]) ++ flat_map (fun b => [b; b]) l)).
    apply Permutation_app_tail, Permutation_app_comm.
  - etransitivity; eassumption.
Qed.

Lemma twice_sorted (l : list Z) :
  StronglySorted Z.le l ->
  StronglySorted Z.le (flat_map (fun b => [b; b]) l).
Proof.
  induction 1 as [|x l Hs IH Hx]; simpl; [constructor|].
  assert (Hall : Forall (Z.le x) (flat_map (fun b => [b; b]) l)).
  { apply Forall_forall. intros z Hz. apply in_flat_map in Hz.
    destruct Hz as (b & Hb & Hz). rewrite Forall_forall in Hx.
    specialize (Hx _ Hb). destruct Hz as [<-|[<-|[]]]; assumption. }
  constructor; [constructor; assumption|].
  constructor; [lia|assumption].
Qed.

(** The sorted slice of a listing of pairs holds each base offset twice,
    in ascending order. *)
Lemma sort_Slice_twice (raw bs : list Z) :
  Permutation raw (flat_map (fun b => [b; b]) bs) ->
  sort_Slice raw = flat_map (fun b => [b; b]) (sort_Slice bs).
Proof.
  intros Hp. apply sorted_perm_unique.
  - apply sort_Slice_sorted.
  - apply twice_sorted, sort_Slice_sorted.
  - rewrite sort_Slice_perm, Hp. apply twice_perm.
    symmetry. apply sort_Slice_perm.
Qed.

Lemma sorted_nodup_strict (l : list Z) :
  StronglySorted Z.le l -> NoDup l -> StronglySorted Z.lt l.
Proof.
  induction 1 as [|x l Hs IH Hx]; intros Hnd; [constructor|].
  inversion Hnd as [|? ? Hnin Hnd']; subst.
  constructor; [auto|].
  apply Forall_forall. intros z Hz. rewrite Forall_forall in Hx.
  specialize (Hx _ Hz).
  assert (z <> x) by (intros ->; contradiction). lia.
Qed.

(** ** Recovery *)

Lemma Log_newSegment_ok (l : Log.Log) (off : Z) :
  mappable (Log.Config l) -> index_files_fit (Log.Dir l) (Log.Config l) ->
  exists l',
    Log.newSegment l off = (Ok tt, l')
    /\ Log.Config l' = Log.Config l
    /\ index_files_fit (Log.Dir l') (Log.Config l')
    /\ map Segment.baseOffset (Log.segments l')
       = map Segment.baseOffset (Log.segments l) ++ [off]
    /\ Log.activeSegment l' = Some (List.length (Log.segments l)).
Proof.
  intros Hc Hfit.
  destruct (@Log_newSegment_succeeds l off Hc Hfit) as (l' & E & Hfit').
  destruct (Log_newSegment_spec _ _ E) as (Hcfg & s & Hs & Hb & Ha).
  exists l'. repeat (split; [assumption|]). split; [|assumption].
  rewrite Hs, map_app, <- Hb. reflexivity.
Qed.

Lemma setup_loop_twice (xs : list Z) :
  forall l,
    mappable (Log.Config l) -> index_files_fit (Log.Dir l) (Log.Config l) ->
    exists l',
      Log.setup_loop l (flat_map (fun b => [b; b]) xs) = (Ok tt, l')
      /\ Log.Config l' = Log.Config l
      /\ index_files_fit (Log.Dir l') (Log.Config l')
      /\ map Segment.baseOffset (Log.segments l')
         = map Segment.baseOffset (Log.segments l) ++ xs
      /\ (xs <> [] ->
          Log.activeSegment l'
          = Some (List.length (Log.segments l) + List.length xs - 1)%nat)
      /\ (xs = [] -> l' = l).
Proof.
  induction xs as [|x xs IH]; intros l Hc Hfit.
  - exists l. simpl. rewrite app_nil_r. repeat split; auto. congruence.
  - cbn [flat_map app Log.setup_loop].
    destruct (@Log_newSegment_ok l x Hc Hfit) as (l1 & E1 & Hcfg1 & Hfit1 & Hb1 & Ha1).
    rewrite E1.
    assert (Hc1 : mappable (Log.Config l1)) by (rewrite Hcfg1; assumption).
    destruct (IH l1 Hc1 Hfit1) as (l2 & E2 & Hcfg2 & Hfit2 & Hb2 & Ha2 & Hnil).
    exists l2. split; [exact E2|]. split; [congruence|]. split; [assumption|].
    assert (Hlen1 : List.length (Log.segments l1)
                    = S (List.length (Log.segments l))).
    { apply (f_equal (@List.length Z)) in Hb1.
      rewrite length_app, !length_map in Hb1. simpl in Hb1. lia. }
    split; [|split].
    + rewrite Hb2, Hb1, <- app_assoc. reflexivity.
    + intros _. destruct xs as [|y xs'].
      * rewrite (Hnil eq_refl), Ha1. f_equal. simpl. lia.
      * rewrite Ha2 by discriminate. f_equal. rewrite Hlen1. simpl. lia.
    + discriminate.
Qed.

(** C3: on a directory that lists exactly the two files of each base
    offset in [bs], setup sorts the parsed offsets (each then stands
    twice, in ascending order) and, taking every other one, makes one
    segment per base offset in ascending order, the last one active; on
    an empty directory it makes one segment at [InitialOffset].  (The
    index being mappable and no index file longer than the map, so that
    every segment can be created.) *)
Theorem setup_recovers_segments (dir : Directory) (c : Config) (bs : list Z) :
  NoDup bs -> Forall (fun b => 0 <= b < 2 ^ 64) bs ->
  Permutation (ReadDir dir) (paired_listing bs) ->
  mappable c -> index_files_fit dir c ->
  sort_Slice (map Log.name_offset (ReadDir dir))
  = flat_map (fun b => [b; b]) (sort_Slice bs)
  /\ exists l,
      Log.setup (Log.mkLog dir c None []) = (Ok tt, l)
      /\ (bs <> [] ->
          map Segment.baseOffset (Log.segments l) = sort_Slice bs
          /\ StronglySorted Z.lt (map Segment.baseOffset (Log.segments l))
          /\ Permutation (map Segment.baseOffset (Log.segments l)) bs
          /\ Log.activeSegment l = Some (List.length bs - 1)%nat)
      /\ (bs = [] ->
          map Segment.baseOffset (Log.segments l) = [InitialOffset (Segment c)]
          /\ Log.activeSegment l = Some 0%nat).
Proof.
  intros Hnd Hrange Hperm Hc Hfit.
  assert (Hsort : sort_Slice (map Log.name_offset (ReadDir dir))
                  = flat_map (fun b => [b; b]) (sort_Slice bs)).
  { apply sort_Slice_twice.
    rewrite <- (@map_name_offset_paired bs Hrange).
    apply Permutation_map. exact Hperm. }
  split; [exact Hsort|].
  unfold Log.setup. cbn [Log.Dir]. rewrite Hsort.
  destruct (@setup_loop_twice (sort_Slice bs) (Log.mkLog dir c None []) Hc Hfit)
    as (l1 & E1 & Hcfg1 & Hfit1 & Hb1 & Ha1 & Hnil).
  rewrite E1. cbn [Log.segments map app List.length] in Hb1, Ha1.
  pose proof (sort_Slice_perm bs) as Hpbs.
  destruct bs as [|b bs'].
  - simpl in Hnil. rewrite (Hnil eq_refl). cbn [Log.segments Log.Config].
    destruct (@Log_newSegment_ok (Log.mkLog dir c None [])
                                 (InitialOffset (Segment c)) Hc Hfit)
      as (l2 & E2 & _ & _ & Hb2 & Ha2).
    exists l2. split; [exact E2|]. split; [congruence|].
    intros _. split; [exact Hb2 | exact Ha2].
  - assert (Hne : sort_Slice (b :: bs') <> []).
    { intros Hnil'. rewrite Hnil' in Hpbs.
      apply Permutation_nil in Hpbs. discriminate. }
    destruct (Log.segments l1) as [|s1 rest] eqn:Es1.
    + exfalso. apply Hne. symmetry. exact Hb1.
    + exists l1. split; [reflexivity|]. split; [|congruence].
      intros _. rewrite Es1, Hb1.
      split; [reflexivity|]. split; [|split].
      * apply sorted_nodup_strict; [apply sort_Slice_sorted|].
        eapply Permutation_NoDup; [symmetry; exact Hpbs | exact Hnd].
      * exact Hpbs.
      * rewrite Ha1 by assumption. f_equal.
        rewrite (Permutation_length Hpbs). simpl. lia.
Qed.

Lemma setup_recovers_segments_witness :
  exists l,
    Log.setup (Log.mkLog dir_two_segments config24 None []) = (Ok tt, l)
    /\ map Segment.baseOffset (Log.segments l) = [0; 2]
    /\ Log.activeSegment l = Some 1%nat.
Proof.
  destruct (@setup_recovers_segments dir_two_segments config24 [2; 0])
    as (_ & l & E & Hsegs & _).
  - repeat constructor; simpl; intuition discriminate.
  - repeat constructor; vm_compute; congruence.
  - vm_compute.
    apply perm_trans
      with (l' := (["2.index"%string; "2.store"%string]
                     ++ ["0.index"%string; "0.store"%string])%list).
    + apply (Permutation_app_comm ["0.index"%string; "0.store"%string]).
    + apply perm_trans
        with (l' := ["2.store"; "2.index"; "0.index"; "0.store"]%string).
      * apply perm_swap.
      * do 2 constructor. apply perm_swap.
  - vm_compute. reflexivity.
  - intros f b Hin _. vm_compute in Hin.
    destruct Hin as [<-|[<-|[<-|[<-|[]]]]]; vm_compute; discriminate.
  - exists l. split; [exact E|].
    destruct Hsegs as (Hb & _ & _ & Ha); [discriminate|].
    split; [exact Hb | exact Ha].
Defined.

(** ** The invariants hold from the start and are kept *)

Lemma be_fold_range (l : list byte) :
  forall acc,
    0 <= acc ->
    0 <= fold_left (fun a b => Z.lor (Z.shiftl a 8) (Z_of_byte b)) l acc
    /\ fold_left (fun a b => Z.lor (Z.shiftl a 8) (Z_of_byte b)) l acc
       < (acc + 1) * 2 ^ (8 * len l).
Proof.
  induction l as [|b l IH]; intros acc Hacc.
  - simpl. change (len (@nil byte)) with 0. simpl. lia.
  - cbn [fold_left]. pose proof (Z_of_byte_range b) as Hb.
    rewrite lor_shiftl_byte by assumption.
    destruct (IH (acc * 256 + Z_of_byte b)) as [H0 H1]; [lia|].
    split; [assumption|].
    replace (len (b :: l)) with (len l + 1)
      by (unfold len; cbn [List.length]; lia).
    replace (8 * (len l + 1)) with (8 + 8 * len l) by lia.
    pose proof (len_nonneg l).
    rewrite Z.pow_add_r by lia. change (2 ^ 8) with 256.
    assert (Hp : 0 < 2 ^ (8 * len l)) by (apply Z.pow_pos_nonneg; lia).
    nia.
Qed.

Lemma be_get_range (l : list byte) : 0 <= be_get l < 2 ^ (8 * len l).
Proof.
  unfold be_get. destruct (@be_fold_range l 0) as [H0 H1]; lia.
Qed.

Lemma Index_Read_offset_range (i : Index.index) (o off pos : Z) :
  Index.Read i o = Ok (off, pos) -> 0 <= off < 2 ^ 32.
Proof.
  unfold Index.Read.
  destruct (_ =? 0); [discriminate|].
  destruct (_ <? _); [discriminate|].
  destruct (_ <? _); [discriminate|].
  intros E. inversion E as [[Hoff Hpos]]. clear E Hpos.
  match goal with |- 0 <= be_get ?l < _ =>
    pose proof (be_get_range l) as Hr;
    assert (Hl : 0 <= len l <= 4)
  end.
  { unfold slice. rewrite len_firstn. change offsetWidth with 4.
    pose proof (len_nonneg (skipn (Z.to_nat (u64 ((if o =? -1
       then u32 (u64 (Index.size i / u64 entryWidth - 1)) else u32 o)
       * u64 entryWidth))) (Index.mmap i))). lia. }
  split; [lia|].
  eapply Z.lt_le_trans; [apply Hr|].
  apply Z.pow_le_mono_r; lia.
Qed.

Lemma Segment_newSegment_ordered (d d' : Directory) (b : Z) (c : Config)
      (s : Segment.segment) :
  0 <= b < 2 ^ 63 ->
  Segment.newSegment d b c = (Ok s, d') ->
  Segment.baseOffset s <= Segment.nextOffset s.
Proof.
  intros Hb. unfold Segment.newSegment.
  destruct (OpenFile d _) as [sf d1].
  destruct (OpenFile d1 _) as [xf d2].
  destruct (Index.newIndex xf c) as [[idx|e|] f1]; try discriminate.
  destruct (Index.Read idx (-1)) as [[off pos]|e|] eqn:ER; try discriminate;
    intros E; inversion E; subst; cbn; [|lia].
  apply Index_Read_offset_range in ER.
  rewrite u64_small; lia.
Qed.

(** A segment made on a directory without its index file is empty: it
    ends where it starts. *)
Lemma Segment_newSegment_empty (b : Z) (c : Config) (quota_ : Z) :
  mappable c ->
  exists s d',
    Segment.newSegment (mkDir [] quota_) b c = (Ok s, d')
    /\ Segment.baseOffset s = b /\ Segment.nextOffset s = b
    /\ index_files_fit d' c.
Proof.
  intros Hc.
  assert (Hfit : index_files_fit (mkDir [] quota_) c)
    by (intros f b' Hin; destruct Hin).
  destruct (@Segment_newSegment_succeeds _ b c Hc Hfit) as (s & d' & E & Hfit').
  exists s, d'. split; [exact E|].
  destruct (Segment_newSegment_base _ _ _ E) as [Hb _].
  split; [exact Hb|]. split; [|exact Hfit'].
  revert E. unfold Segment.newSegment, OpenFile. cbn [entries find app quota].
  assert (Hneq : String.eqb (store_name b) (index_name b) = false).
  { apply String.eqb_neq. intros Heq.
    pose proof (Path_Ext_store b) as H1. rewrite Heq, Path_Ext_index in H1.
    discriminate. }
  cbn [Name]. rewrite Hneq.
  destruct (@newIndex_succeeds (mkFile (index_name b) [] quota_ false) c
                               eq_refl Hc) as (i & f1 & Enew & Hsz & _).
  rewrite Enew. cbn [data] in Hsz. change (len (@nil byte)) with 0 in Hsz.
  change (u64 0) with 0 in Hsz.
  rewrite (@Read_empty i (-1) Hsz).
  intros E. inversion E. reflexivity.
Qed.

(** A log set up on an empty directory has one empty segment, and the
    log's invariants hold. *)
Lemma setup_empty_invariants (c : Config) (quota_ : Z) :
  mappable c ->
  exists l,
    Log.setup (Log.mkLog (mkDir [] quota_) c None []) = (Ok tt, l)
    /\ contiguous (Log.segments l) /\ ordered (Log.segments l)
    /\ active_last l
    /\ Log.Config l = c
    /\ index_files_fit (Log.Dir l) (Log.Config l).
Proof.
  intros Hc. unfold Log.setup.
  cbn [ReadDir entries Log.Dir map sort_Slice Log.setup_loop Log.segments
       Log.Config].
  unfold Log.newSegment. cbn [Log.Dir Log.Config Log.segments].
  destruct (@Segment_newSegment_empty (InitialOffset (Segment c)) c quota_ Hc)
    as (s & d' & E & Hb & Hn & Hfit).
  rewrite E. eexists. split; [reflexivity|]. cbn.
  split; [auto|]. split; [repeat constructor; lia|].
  split; [exists [], s; auto|]. auto.
Qed.

(** An append keeps the segments ordered while offsets stay below 2^63. *)
Lemma log_append_keeps_order `{Codec}
      (l l' : Log.Log) (record : Record_)
      (r : result error (Z * option error)) :
  ordered (Log.segments l) -> active_last l ->
  Forall (fun s => 0 <= Segment.nextOffset s < 2 ^ 63 - 1) (Log.segments l) ->
  Log.Append l record = (r, l') ->
  ordered (Log.segments l').
Proof.
  intros Ho (segs & s0 & Hsegs & Hact) Hbound E.
  unfold Log.Append in E. rewrite Hact, Hsegs, nth_error_last in E.
  destruct (Segment.Append s0 record) as [r0 s0'] eqn:EA.
  destruct (Segment_Append_offsets _ _ EA) as (Hb & Hcfg & Hr0).
  rewrite list_set_last in E.
  rewrite Hsegs in Ho, Hbound. unfold ordered in *.
  apply Forall_app in Ho. destruct Ho as [Ho1 Ho2].
  apply Forall_app in Hbound. destruct Hbound as [_ Hb2].
  inversion Ho2 as [|? ? Hs0 _]; subst.
  inversion Hb2 as [|? ? Hn0 _]; subst.
  assert (Ho' : Forall (fun s => Segment.baseOffset s <= Segment.nextOffset s)
                       (segs ++ [s0'])).
  { apply Forall_app. split; [assumption|]. constructor; [|constructor].
    destruct r0 as [offset|e|].
    - destruct Hr0 as [-> ->]. rewrite u64_small; lia.
    - lia.
    - lia. }
  destruct r0 as [offset|e|]; [|inversion E; subst; assumption ..].
  destruct Hr0 as [Hoff Hnext].
  destruct (Segment.IsMaxed s0'); [|inversion E; subst; assumption].
  unfold Log.newSegment in E. cbn [Log.Dir Log.Config Log.segments] in E.
  destruct (Segment.newSegment (Log.Dir l) (u64 (offset + 1)) (Log.Config l))
    as [[new|e|] d'] eqn:EN; inversion E; subst; cbn; try assumption.
  apply Forall_app. split; [assumption|]. constructor; [|constructor].
  eapply Segment_newSegment_ordered; [|exact EN].
  rewrite u64_small; lia.
Qed.

(** A read only moves bytes from the buffer to the file: the size keeps
    counting them. *)
Lemma Read_keeps_tracks (s s' : Store.store) (pos : Z)
      (r : result os_error (list byte)) :
  Store.tracks s -> Store.Read s pos = (r, s') -> Store.tracks s'.
Proof.
  unfold Store.tracks, Store.Read. intros Ht.
  destruct (Bufio.Flush (Store.buffer s) (Store.file s)) as [[e w1] f1] eqn:EF.
  destruct (Flush_content _ _ EF) as (Hc & _).
  assert (Hlen : len (data f1) + len (Bufio.buf w1)
                 = len (data (Store.file s)) + len (Bufio.buf (Store.buffer s)))
    by (rewrite <- !len_app, Hc; reflexivity).
  destruct e as [e|]; [intros E; inversion E; subst; cbn; lia|].
  destruct (OS.ReadAt f1 limit _) as [hdr [e1|]];
    [intros E; inversion E; subst; cbn; lia|].
  destruct (maxAlloc <? be_get hdr);
    [intros E; inversion E; subst; cbn; lia|].
  destruct (OS.ReadAt f1 _ _) as [b [e2|]];
    intros E; inversion E; subst; cbn; lia.
Qed.

(** Later appends only add bytes after those the store holds. *)
Lemma Appends_ok_content (ps : list (list byte)) :
  forall s s',
    Store.Appends s ps = (Ok tt, s') ->
    (Bufio.werr (Store.buffer s) = None -> Bufio.werr (Store.buffer s') = None)
    /\ exists c,
        data (Store.file s') ++ Bufio.buf (Store.buffer s')
        = (data (Store.file s) ++ Bufio.buf (Store.buffer s)) ++ c.
Proof.
  induction ps as [|p ps IH]; intros s s'; cbn [Store.Appends].
  - intros E; inversion E; subst. split; [auto|]. exists [].
    now rewrite app_nil_r.
  - destruct (Store.Append s p) as [[[n pos]|e|] s1] eqn:EA; try discriminate.
    destruct (Append_ok_content _ _ EA) as (_ & _ & _ & Hw & _ & _ & Hd).
    intros E. destruct (IH _ _ E) as (Hw' & c & Hc).
    split; [auto|].
    exists ((be_put 8 (u64 (len p)) ++ p) ++ c).
    rewrite Hc, Hd, <- !app_assoc. reflexivity.
Qed.

(** The round trip survives later appends: once [p] was appended at
    [pos], a read at [pos] after any further successful appends returns
    nothing but [p], and returns [p] when the store's bytes fit. *)
Lemma store_read_after_later_appends
      (s s1 s2 : Store.store) (p : list byte) (ps : list (list byte))
      (n pos : Z) :
  Store.tracks s -> Store.size s < 2 ^ 63 -> len p <= maxAlloc ->
  Store.Append s p = (Ok (n, pos), s1) ->
  Store.Appends s1 ps = (Ok tt, s2) ->
  (forall b s3, Store.Read s2 pos = (Ok b, s3) -> b = p)
  /\ (closed (Store.file s2) = false ->
      len (data (Store.file s2)) + len (Bufio.buf (Store.buffer s2))
      <= room (Store.file s2) ->
      pos + limit < 2 ^ 63 ->
      fst (Store.Read s2 pos) = Ok p).
Proof.
  intros Ht Hs Hp EA EAs.
  destruct (Append_ok_content _ _ EA) as (_ & Hpos & _ & Hw & _ & _ & Hd).
  destruct (Appends_ok_content _ _ EAs) as (Hw2 & c & Hc).
  rewrite Hd, <- !app_assoc in Hc.
  pose proof (len_nonneg (data (Store.file s))).
  pose proof (len_nonneg (Bufio.buf (Store.buffer s))).
  unfold Store.tracks in Ht.
  assert (Hpa : pos = len (data (Store.file s) ++ Bufio.buf (Store.buffer s)))
    by (rewrite len_app; lia).
  rewrite (app_assoc (data (Store.file s))) in Hc.
  destruct (@Read_frame s2 _ p c pos Hc Hpa) as [Honly Hdoes]; [lia | lia |].
  split; [exact Honly|]. intros Hopen Hroom Hsmall. apply Hdoes; auto.
Qed.

(* ================================================================== *)
(** * Further properties of the store *)

Unset Implicit Arguments.

Lemma Append_ok_tracks (s s' : Store.store) (p : list byte) (n pos : Z) :
  Store.tracks s -> Store.size s < 2 ^ 63 -> len p <= maxAlloc ->
  Store.Append s p = (Ok (n, pos), s') ->
  n = limit + len p /\ pos = Store.size s
  /\ Store.size s' = Store.size s + limit + len p
  /\ Store.tracks s'.
Proof.
  intros Ht Hs Hp E.
  destruct (Append_ok_content _ _ E) as (Hn & Hpos & Hsz & _ & _ & _ & Hd).
  pose proof (len_nonneg p). pose proof (len_nonneg (data (Store.file s))).
  pose proof (len_nonneg (Bufio.buf (Store.buffer s))).
  assert (Hm : maxAlloc = 2 ^ 48) by reflexivity.
  unfold Store.tracks in *. unfold limit in *.
  assert (Hn' : n = 8 + len p)
    by (rewrite Hn, i64_small, u64_small; lia).
  repeat split; try lia.
  - rewrite Hsz, u64_small; lia.
  - rewrite <- !len_app, Hd, !len_app, len_be_put, Hsz, u64_small; lia.
Qed.

Lemma Appends_app (a b : list (list byte)) :
  forall s s',
    Store.Appends s (a ++ b) = (Ok tt, s') ->
    exists s1, Store.Appends s a = (Ok tt, s1)
               /\ Store.Appends s1 b = (Ok tt, s').
Proof.
  induction a as [|p a IH]; intros s s'; cbn [app Store.Appends].
  - intros E. exists s. auto.
  - destruct (Store.Append s p) as [[[n pos]|e|] s1]; try discriminate.
    apply IH.
Qed.

Lemma width_app (a b : list (list byte)) :
  Store.width (a ++ b) = Store.width a + Store.width b.
Proof. induction a; cbn [app Store.width]; lia. Qed.

Lemma width_nonneg (ps : list (list byte)) : 0 <= Store.width ps.
Proof.
  induction ps as [|p ps IH]; cbn [Store.width]; [lia|].
  pose proof (len_nonneg p). unfold limit. lia.
Qed.

Lemma Appends_ok_sizes (ps : list (list byte)) :
  forall s s',
    Store.tracks s -> Forall (fun p => len p <= maxAlloc) ps ->
    Store.size s + Store.width ps < 2 ^ 63 ->
    Store.Appends s ps = (Ok tt, s') ->
    Store.size s' = Store.size s + Store.width ps /\ Store.tracks s'.
Proof.
  induction ps as [|p ps IH]; intros s s' Ht Hall Hs; cbn [Store.Appends].
  - intros E. inversion E; subst. cbn [Store.width]. split; [lia|assumption].
  - inversion Hall as [|? ? Hp Hall']; subst. cbn [Store.width] in Hs.
    pose proof (width_nonneg ps). pose proof (len_nonneg p).
    destruct (Store.Append s p) as [[[n pos]|e|] s1] eqn:EA; try discriminate.
    destruct (Append_ok_tracks s s1 p n pos) as (_ & _ & Hsz & Ht1);
      try assumption; [unfold limit in *; lia|].
    intros E. destruct (IH s1 s' Ht1 Hall') as [Hsz' Ht']; [lia|assumption|].
    cbn [Store.width]. split; [lia|assumption].
Qed.

(** X1: payloads appended one after another are each read back at the
    running sum of the frame widths before them ([8 + len] each), and
    the size ends at the sum of all of them. *)
Theorem store_appends_read_back
        (s s' : Store.store) (pre post : list (list byte)) (p : list byte) :
  Store.tracks s ->
  Forall (fun q => len q <= maxAlloc) (pre ++ p :: post) ->
  Store.size s + Store.width (pre ++ p :: post) < 2 ^ 63 ->
  Store.Appends s (pre ++ p :: post) = (Ok tt, s') ->
  Store.size s' = Store.size s + Store.width (pre ++ p :: post)
  /\ (forall b s'',
         Store.Read s' (Store.size s + Store.width pre) = (Ok b, s'') -> b = p)
  /\ (Store.fits s' ->
      fst (Store.Read s' (Store.size s + Store.width pre)) = Ok p).
Proof.
  intros Ht Hall Hs E.
  destruct (Appends_ok_sizes _ s s' Ht Hall Hs E) as [Hsz' Ht'].
  split; [exact Hsz'|].
  destruct (Appends_app _ _ _ _ E) as (s1 & E1 & E2).
  apply Forall_app in Hall. destruct Hall as [Hpre Hrest].
  inversion Hrest as [|? ? Hp Hpost]; subst.
  rewrite width_app in Hs, Hsz'. cbn [Store.width] in Hs, Hsz'.
  pose proof (width_nonneg pre). pose proof (width_nonneg post).
  pose proof (len_nonneg p).
  destruct (Appends_ok_sizes pre s s1 Ht Hpre) as [Hsz1 Ht1];
    [unfold limit in *; lia | assumption |].
  cbn [Store.Appends] in E2.
  destruct (Store.Append s1 p) as [[[n pos]|e|] s2] eqn:EA; try discriminate.
  destruct (Append_ok_tracks s1 s2 p n pos) as (_ & Hpos & _ & _);
    try assumption; [unfold limit in *; lia|].
  destruct (@store_read_after_later_appends s1 s2 s' p post n pos)
    as [Honly Hdoes]; try assumption; [unfold limit in *; lia|].
  rewrite <- Hsz1, <- Hpos.
  split; [exact Honly|].
  intros (Hopen & Hroom & Hsmall). apply Hdoes; [assumption| |].
  - unfold Store.tracks in Ht'. lia.
  - unfold limit in *. lia.
Qed.

Lemma store_appends_read_back_witness :
  fst (Store.Read (snd (Store.Appends store0 [hello; []; hello])) 13) = Ok []
  /\ Store.size (snd (Store.Appends store0 [hello; []; hello])) = 34.
Proof.
  destruct (store_appends_read_back
              store0 (snd (Store.Appends store0 [hello; []; hello]))
              [hello] [hello] [])
    as (Hsz & _ & Hread).
  - vm_compute. reflexivity.
  - repeat constructor; vm_compute; discriminate.
  - vm_compute. reflexivity.
  - vm_compute. reflexivity.
  - split.
    + apply Hread. repeat split; vm_compute; congruence.
    + exact Hsz.
Defined.

Lemma Bufio_Write_buffered (w : Bufio.Writer) (f : File) (p : list byte) :
  Bufio.werr w = None -> len p <= Bufio.Available w ->
  Bufio.Write w f p
  = (len p, None, Bufio.mkWriter (Bufio.buf w ++ p) None, f).
Proof.
  intros Hw Hav. unfold Bufio.Write, Bufio.Write_fuel.
  rewrite Write_loop_S.
  destruct (Z.ltb_spec (Bufio.Available w) (len p)); [lia|].
  cbn [andb]. rewrite Hw. reflexivity.
Qed.

(** X2: an append whose frame fits the free part of the buffer succeeds
    without touching the file: the frame is only added to the buffer,
    whatever the state of the file, even closed or full. *)
Theorem store_append_only_buffers (s : Store.store) (p : list byte) :
  Bufio.werr (Store.buffer s) = None ->
  len (Bufio.buf (Store.buffer s)) + limit + len p <= Bufio.defaultBufSize ->
  Store.Append s p
  = (Ok (u64 (i64 (len p + limit)), Store.size s),
     Store.mkStore (Store.file s)
       (Bufio.mkWriter
          ((Bufio.buf (Store.buffer s) ++ be_put 8 (u64 (len p))) ++ p) None)
       (u64 (Store.size s + u64 (i64 (len p + limit))))).
Proof.
  intros Hw Hfit. pose proof (len_nonneg p).
  unfold Store.Append, Store.binary_Write. unfold limit in *.
  rewrite Bufio_Write_buffered;
    [|assumption | unfold Bufio.Available; rewrite len_be_put; lia].
  rewrite Bufio_Write_buffered;
    [reflexivity | reflexivity |].
  unfold Bufio.Available. cbn [Bufio.buf]. rewrite len_app, len_be_put. lia.
Qed.

Lemma store_append_only_buffers_witness :
  data (Store.file (snd (Store.Append store_cramped hello))) = []
  /\ fst (Store.Append store_cramped hello) = Ok (13, 0).
Proof.
  rewrite (store_append_only_buffers store_cramped hello);
    [|vm_compute; reflexivity | vm_compute; discriminate].
  split; vm_compute; reflexivity.
Defined.



Lemma Store_Close_ok (s s' : Store.store) :
  Store.Close s = (None, s') ->
  data (Store.file s') = Store.content s
  /\ Bufio.buf (Store.buffer s') = []
  /\ Bufio.werr (Store.buffer s') = None
  /\ closed (Store.file s') = true
  /\ room (Store.file s') = room (Store.file s)
  /\ Store.size s' = Store.size s.
Proof.
  unfold Store.Close, Store.content.
  destruct (Bufio.Flush (Store.buffer s) (Store.file s)) as [[e w1] f1] eqn:EF.
  destruct (@Flush_content _ _ _ _ _ EF) as (Hc & Hr & _ & Hw & Hnone).
  destruct e as [e|]; [discriminate|].
  destruct (Hnone eq_refl) as [Hb _]. rewrite Hb, app_nil_r in Hc.
  unfold OS.Close. destruct (closed f1); [discriminate|].
  intros E. inversion E; subst. cbn. auto 10.
Qed.

(** X4: a [Close] that succeeds has written every buffered byte: the
    file then holds the store's whole content, the buffer is empty and
    the handle is closed; when the size tracked the content, the file is
    exactly [size] bytes long. *)
Theorem store_Close_flushes (s s' : Store.store) :
  Store.Close s = (None, s') ->
  data (Store.file s') = Store.content s
  /\ Bufio.buf (Store.buffer s') = []
  /\ closed (Store.file s') = true
  /\ Store.size s' = Store.size s
  /\ (Store.tracks s -> len (data (Store.file s')) = Store.size s').
Proof.
  intros E. destruct (Store_Close_ok s s' E) as (Hd & Hb & _ & Hc & _ & Hs).
  repeat split; auto. unfold Store.tracks. intros Ht.
  rewrite Hd, Hs. unfold Store.content. rewrite len_app. lia.
Qed.

Lemma store_Close_flushes_witness :
  len (data (Store.file (snd (Store.Close (snd (Store.Append store0 hello))))))
  = 13.
Proof.
  destruct (store_Close_flushes
              (snd (Store.Append store0 hello))
              (snd (Store.Close (snd (Store.Append store0 hello)))))
    as (_ & _ & _ & Hsz & Hlen).
  - vm_compute. reflexivity.
  - rewrite Hlen; [rewrite Hsz; vm_compute; reflexivity|].
    vm_compute. reflexivity.
Defined.



(** X6: a [Read] at a position with fewer than eight bytes of content
    left (at or past the end in particular) fails with [io.EOF]. *)
Theorem store_Read_past_end (s : Store.store) (pos : Z) :
  Bufio.werr (Store.buffer s) = None ->
  closed (Store.file s) = false ->
  len (Store.content s) <= room (Store.file s) ->
  0 <= pos < 2 ^ 63 ->
  len (Store.content s) < pos + limit ->
  fst (Store.Read s pos) = Err EOF.
Proof.
  intros Hw Hopen Hroom Hpos Hshort. unfold Store.content in *.
  rewrite len_app in Hroom.
  destruct (@Flush_fits _ _ Hw Hopen Hroom) as (f' & EF & Hd & Hopen' & _).
  unfold Store.Read. rewrite EF. unfold OS.ReadAt at 1. rewrite Hopen'.
  rewrite i64_small by lia.
  destruct (Z.ltb_spec pos 0); [lia|].
  rewrite Hd.
  set (got := firstn (Z.to_nat limit) _).
  assert (Hgot : len got < limit).
  { unfold got. rewrite len_firstn, len_skipn. unfold limit in *.
    pose proof (len_nonneg (data (Store.file s) ++ Bufio.buf (Store.buffer s))).
    lia. }
  destruct (Z.ltb_spec (len got) limit); [reflexivity|lia].
Qed.

Lemma store_Read_past_end_witness :
  fst (Store.Read (snd (Store.Append store0 hello)) 13) = Err EOF.
Proof.
  apply store_Read_past_end;
    try (vm_compute; reflexivity); try (vm_compute; discriminate).
  vm_compute. split; [discriminate|reflexivity].
Defined.

(** X7: what was appended survives closing and opening again: after a
    successful [Append] and a successful [Close], a store made by
    [newStore] on a new handle of the same file starts at the size the
    closed store had, and its [Read] at the returned position gives the
    payload back. *)
Theorem store_survives_reopen
      (s s1 s2 : Store.store) (p : list byte) (n pos : Z) :
  Store.tracks s -> len p <= maxAlloc ->
  Store.size s + limit + len p < 2 ^ 63 ->
  Store.size s + limit + len p <= room (Store.file s) ->
  Store.Append s p = (Ok (n, pos), s1) ->
  Store.Close s1 = (None, s2) ->
  Store.size (Store.newStore (reopen (Store.file s2))) = Store.size s1
  /\ Store.tracks (Store.newStore (reopen (Store.file s2)))
  /\ fst (Store.Read (Store.newStore (reopen (Store.file s2))) pos) = Ok p.
Proof.
  intros Ht Hp Hs Hroom EA EC.
  pose proof (len_nonneg p) as Hp0.
  pose proof (len_nonneg (data (Store.file s))) as Hd0.
  pose proof (len_nonneg (Bufio.buf (Store.buffer s))) as Hb0.
  assert (Hs0 : Store.size s < 2 ^ 63)
    by (unfold Store.tracks in Ht; unfold limit in *; lia).
  assert (Hs1 : 0 <= Store.size s) by (unfold Store.tracks in Ht; lia).
  destruct (Append_ok_tracks s s1 p n pos Ht Hs0 Hp EA)
    as (Hn & Hpos & Hsz1 & Ht1).
  destruct (@Append_ok_content s s1 p n pos EA)
    as (_ & _ & _ & _ & Hr1 & _ & Hc1).
  destruct (Store_Close_ok s1 s2 EC) as (Hd2 & _ & _ & _ & Hr2 & Hsz2).
  unfold Store.content in Hd2.
  assert (Hlen : len (data (Store.file s2)) = Store.size s1).
  { rewrite Hd2. unfold Store.tracks in Ht1. rewrite len_app. lia. }
  set (r := Store.newStore (reopen (Store.file s2))).
  assert (Hsr : Store.size r = Store.size s1).
  { unfold r, Store.newStore, reopen, OS.Size. cbn.
    rewrite Hlen. apply u64_small. unfold limit in *. lia. }
  split; [assumption|]. split.
  - unfold r. apply newStore_tracks. cbn. rewrite Hlen. unfold limit in *. lia.
  - destruct (@Read_frame r (data (Store.file s) ++ Bufio.buf (Store.buffer s))
                p [] pos) as [_ Hread].
    + unfold r. cbn. rewrite !app_nil_r, Hd2, Hc1, <- !app_assoc.
      reflexivity.
    + rewrite Hpos, len_app. exact Ht.
    + unfold limit in *. lia.
    + assumption.
    + apply Hread.
      * reflexivity.
      * reflexivity.
      * unfold r. cbn. rewrite Hlen, Hr2, Hr1. lia.
      * unfold limit in *. lia.
Qed.

Lemma store_survives_reopen_witness :
  fst (Store.Read
         (Store.newStore
            (reopen (Store.file
                       (snd (Store.Close (snd (Store.Append store0 hello)))))))
         0) = Ok hello.
Proof.
  refine (proj2 (proj2 (store_survives_reopen store0
              (snd (Store.Append store0 hello))
              (snd (Store.Close (snd (Store.Append store0 hello))))
              hello 13 0 _ _ _ _ _ _)));
    vm_compute; try reflexivity; discriminate.
Defined.

(* ================================================================== *)
(** * Further properties of the index *)

Lemma slice_firstn {A} (l : list A) (n lo hi : Z) :
  0 <= lo -> hi <= n -> slice (firstn (Z.to_nat n) l) lo hi = slice l lo hi.
Proof.
  intros Hlo Hhi. unfold slice.
  rewrite skipn_firstn_comm, firstn_firstn. f_equal. lia.
Qed.

Lemma slice_app_r {A} (a b : list A) (lo hi : Z) :
  0 <= lo -> slice (a ++ b) (len a + lo) (len a + hi) = slice b lo hi.
Proof.
  intros Hlo. unfold slice, len.
  replace (Z.of_nat (List.length a) + hi - (Z.of_nat (List.length a) + lo))
    with (hi - lo) by lia.
  replace (Z.to_nat (Z.of_nat (List.length a) + lo))
    with (List.length a + Z.to_nat lo)%nat by lia.
  rewrite skipn_app, skipn_all2 by lia.
  replace (List.length a + Z.to_nat lo - List.length a)%nat
    with (Z.to_nat lo) by lia.
  reflexivity.
Qed.

(** Bytes below a common prefix are the same in both lists. *)
Lemma slice_prefix {A} (m m' F : list A) (n n' lo hi : Z) :
  0 <= lo -> hi <= n -> n <= len m ->
  firstn (Z.to_nat n') m' = firstn (Z.to_nat n) m ++ F ->
  slice m' lo hi = slice m lo hi.
Proof.
  intros Hlo Hhi Hn E.
  destruct (Z.leb_spec hi lo) as [Hle|Hlt].
  - unfold slice. replace (Z.to_nat (hi - lo)) with O by lia. reflexivity.
  - assert (Hn' : n <= n').
    { apply (f_equal len) in E.
      rewrite len_app, !len_firstn in E. pose proof (len_nonneg F). lia. }
    rewrite <- (slice_firstn m' n' lo hi) by lia.
    rewrite E.
    rewrite <- (slice_firstn (firstn (Z.to_nat n) m ++ F) n lo hi) by lia.
    replace (Z.to_nat n) with (Z.to_nat (len (firstn (Z.to_nat n) m))) at 1
      by (rewrite len_firstn; lia).
    rewrite firstn_len_app. apply slice_firstn; lia.
Qed.

(** The fields of an entry that lies in the part of the map in use. *)
Lemma slice_entry_fields (a c m : list byte) (e : Z * Z) (n : Z) :
  firstn (Z.to_nat n) m = a ++ Index.entry e ++ c ->
  be_get (slice m (len a) (len a + offsetWidth)) = u32 (fst e)
  /\ be_get (slice m (len a + offsetWidth) (len a + entryWidth)) = u64 (snd e).
Proof.
  intros E. change offsetWidth with 4. change entryWidth with 12.
  pose proof (len_nonneg a) as Ha. pose proof (len_nonneg c) as Hc.
  assert (Hn : len a + 12 <= n).
  { apply (f_equal len) in E. unfold Index.entry in E.
    rewrite !len_app, !len_be_put, len_firstn in E. lia. }
  rewrite <- (slice_firstn m n (len a) (len a + 4)) by lia.
  rewrite <- (slice_firstn m n (len a + 4) (len a + 12)) by lia.
  rewrite E. unfold Index.entry.
  replace (len a) with (len a + 0) at 1 by lia.
  rewrite !slice_app_r by lia. unfold slice. rewrite <- !app_assoc.
  split.
  - cbn [Z.to_nat skipn].
    replace (4 - 0) with (len (be_put 4 (fst e)))
      by (rewrite len_be_put; reflexivity).
    rewrite firstn_len_app, be_get_put. reflexivity.
  - replace 4 with (len (be_put 4 (fst e))) at 2
      by (rewrite len_be_put; reflexivity).
    rewrite skipn_len_app.
    replace (12 - 4) with (len (be_put 8 (snd e)))
      by (rewrite len_be_put; reflexivity).
    rewrite firstn_len_app, be_get_put. reflexivity.
Qed.

Lemma flat_map_entry_nth (es : list (Z * Z)) :
  forall (j : nat) (e : Z * Z),
    nth_error es j = Some e ->
    exists x y, flat_map Index.entry es = x ++ Index.entry e ++ y
                /\ len x = entryWidth * Z.of_nat j.
Proof.
  induction es as [|e0 es IH]; intros [|j] e Hj; try discriminate.
  - inversion Hj; subst. exists [], (flat_map Index.entry es).
    split; reflexivity.
  - destruct (IH j e Hj) as (x & y & E & Hx).
    exists (Index.entry e0 ++ x), y. cbn [flat_map]. split.
    + rewrite E, <- !app_assoc. reflexivity.
    + rewrite len_app, Hx. unfold Index.entry.
      rewrite len_app, !len_be_put. change entryWidth with 12. lia.
Qed.

(** Reading by entry number inside the part in use. *)
Lemma Read_at (i : Index.index) (k : Z) :
  0 <= k < 2 ^ 32 ->
  entryWidth * k + entryWidth <= Index.size i <= len (Index.mmap i) ->
  Index.Read i k = Ok (Index.entry_at i k).
Proof.
  intros Hk Hs. unfold Index.Read, Index.entry_at.
  change entryWidth with 12 in *. change (u64 12) with 12.
  destruct (Z.eqb_spec (Index.size i) 0); [lia|].
  destruct (Z.eqb_spec k (-1)); [lia|].
  rewrite (@u32_small k) by lia.
  rewrite (@u64_small (k * 12)) by lia.
  rewrite (@u64_small (k * 12 + 12)) by lia.
  destruct (Z.ltb_spec (Index.size i) (k * 12 + 12)); [lia|].
  destruct (Z.ltb_spec (len (Index.mmap i)) (k * 12 + 12)); [lia|].
  reflexivity.
Qed.

(** X8: entries written to an index of whole entries are read back by
    number: after writes that all succeeded, the entry numbered
    [count + j] is the [j]-th pair written (offset cut to 32 bits,
    position to 64), every entry that was there before reads as before,
    and the number after the last one gives [io.EOF]. *)
Theorem index_reads_written_entries
      (i i' : Index.index) (es : list (Z * Z)) :
  Index.whole i -> Index.size i <= len (Index.mmap i) ->
  Index.count i + len es <= 2 ^ 32 ->
  Index.Writes i es = (Ok tt, i') ->
  (forall j e, nth_error es j = Some e ->
     Index.Read i' (Index.count i + Z.of_nat j) = Ok (u32 (fst e), u64 (snd e)))
  /\ (forall k, 0 <= k < Index.count i -> Index.Read i' k = Index.Read i k)
  /\ (Index.count i + len es < 2 ^ 32 ->
      Index.Read i' (Index.count i + len es) = Err EOF).
Proof.
  unfold Index.whole, Index.count. change entryWidth with 12.
  intros [H0 Hmod] Hfit Hcount E.
  pose proof (len_nonneg es) as Hes.
  assert (Hdiv : Index.size i = 12 * (Index.size i / 12))
    by (apply Z.div_exact; lia).
  set (c := Index.size i / 12) in *.
  assert (Hc0 : 0 <= c) by lia.
  destruct (@Writes_ok es i i') as (Hsz & Hlen & _ & _ & Hpre);
    [lia | assumption |].
  destruct (Hpre Hfit) as [Hfit' Hfirst]. clear Hpre.
  change entryWidth with 12 in Hsz.
  assert (HlenA : len (firstn (Z.to_nat (Index.size i)) (Index.mmap i))
                  = 12 * c) by (rewrite len_firstn; lia).
  split; [|split].
  - intros j e Hj.
    assert (Hjlt : Z.of_nat j < len es).
    { unfold len. apply Nat2Z.inj_lt. apply nth_error_Some. congruence. }
    rewrite Read_at by (change entryWidth with 12; lia).
    destruct (flat_map_entry_nth es j e Hj) as (x & y & Ex & Hx).
    change entryWidth with 12 in Hx.
    rewrite Ex, app_assoc in Hfirst.
    destruct (slice_entry_fields _ _ _ _ _ Hfirst) as [Ho Hp].
    rewrite len_app, HlenA, Hx in Ho, Hp.
    unfold Index.entry_at. change entryWidth with 12 in *.
    replace ((c + Z.of_nat j) * 12) with (12 * c + 12 * Z.of_nat j) by lia.
    rewrite Ho, Hp. reflexivity.
  - intros k Hk.
    rewrite !Read_at by (change entryWidth with 12; lia).
    unfold Index.entry_at. change entryWidth with 12.
    change offsetWidth with 4.
    rewrite (slice_prefix (Index.mmap i) (Index.mmap i')
               (flat_map Index.entry es)
               (Index.size i) (Index.size i') (k * 12) (k * 12 + 4))
      by (assumption || lia).
    rewrite (slice_prefix (Index.mmap i) (Index.mmap i')
               (flat_map Index.entry es)
               (Index.size i) (Index.size i') (k * 12 + 4) (k * 12 + 12))
      by (assumption || lia).
    reflexivity.
  - intros Hlt. apply Read_past; [lia|].
    change entryWidth with 12. lia.
Qed.

Lemma index_reads_written_entries_witness :
  Index.Read (snd (Index.Writes index_one [(7, 70)])) 1 = Ok (7, 70)
  /\ Index.Read (snd (Index.Writes index_one [(7, 70)])) 0
     = Index.Read index_one 0.
Proof.
  destruct (index_reads_written_entries index_one
              (snd (Index.Writes index_one [(7, 70)])) [(7, 70)])
    as (Hnew & Hold & _).
  - vm_compute. split; [discriminate | reflexivity].
  - vm_compute. discriminate.
  - vm_compute. discriminate.
  - vm_compute. reflexivity.
  - split.
    + exact (Hnew O (7, 70) eq_refl).
    + apply Hold. vm_compute. split; [discriminate | reflexivity].
Defined.

(** [Read] looks only at the size and at the bytes below it. *)
Lemma Read_ext (a b : Index.index) (k : Z) :
  Index.size a = Index.size b ->
  Index.size b <= len (Index.mmap a) -> Index.size b <= len (Index.mmap b) ->
  firstn (Z.to_nat (Index.size b)) (Index.mmap a)
  = firstn (Z.to_nat (Index.size b)) (Index.mmap b) ->
  Index.Read a k = Index.Read b k.
Proof.
  intros Hsz Ha Hb Hfirst. unfold Index.Read. rewrite Hsz.
  destruct (Index.size b =? 0); [reflexivity|].
  set (output := if k =? -1
                 then u32 (u64 (Index.size b / u64 entryWidth - 1))
                 else u32 k).
  assert (Ho : 0 <= output < 2 ^ 32)
    by (unfold output; destruct (k =? -1); apply u32_range).
  change offsetWidth with 4. change entryWidth with 12.
  change (u64 12) with 12.
  rewrite (@u64_small (output * 12)) by lia.
  rewrite (@u64_small (output * 12 + 12)) by lia.
  destruct (Z.ltb_spec (Index.size b) (output * 12 + 12)); [reflexivity|].
  destruct (Z.ltb_spec (len (Index.mmap a)) (output * 12 + 12)); [lia|].
  destruct (Z.ltb_spec (len (Index.mmap b)) (output * 12 + 12)); [lia|].
  rewrite <- (app_nil_r (firstn _ (Index.mmap b))) in Hfirst.
  rewrite (slice_prefix (Index.mmap b) (Index.mmap a) []
             (Index.size b) (Index.size b) (output * 12) (output * 12 + 4))
    by (assumption || lia).
  rewrite (slice_prefix (Index.mmap b) (Index.mmap a) []
             (Index.size b) (Index.size b) (output * 12 + 4) (output * 12 + 12))
    by (assumption || lia).
  reflexivity.
Qed.

(** X9: an index survives closing and opening again: after a [Close]
    that succeeded, [newIndex] on a new handle of the file, with a map
    size that holds the entries, succeeds with the same size, and every
    [Read] gives what it gave before the close. *)
Theorem index_survives_reopen (i i' : Index.index) (c : Config) :
  0 <= Index.size i <= len (Index.mmap i) ->
  Index.size i <= i64 (MaxIndexBytes (Segment c)) ->
  mappable c ->
  Index.Close i = (None, i') ->
  exists i2 f2,
    Index.newIndex (reopen (Index.file i')) c = (Ok i2, f2)
    /\ Index.size i2 = Index.size i
    /\ forall k, Index.Read i2 k = Index.Read i k.
Proof.
  intros Hs Hmax Hmap E.
  assert (H63 : i64 (MaxIndexBytes (Segment c)) < 2 ^ 63)
    by (unfold i64;
        pose proof (Z.mod_pos_bound (MaxIndexBytes (Segment c) + 2 ^ 63)
                      (2 ^ 64)); lia).
  destruct (@Close_ok i i') as (_ & Hd & Hl); [lia | assumption |].
  assert (Hdata : data (Index.file i')
                  = firstn (Z.to_nat (Index.size i)) (Index.mmap i)).
  { rewrite Hd, resize_within by (rewrite len_app; pose proof
      (len_nonneg (skipn (List.length (Index.mmap i))
                         (data (Index.file i)))); lia).
    rewrite firstn_app.
    replace (Z.to_nat (Index.size i) - List.length (Index.mmap i))%nat
      with O by (unfold len in Hs; lia).
    apply app_nil_r. }
  destruct (@newIndex_succeeds (reopen (Index.file i')) c)
    as (i2 & f2 & E2 & Hsz2 & Hlen2); [reflexivity | assumption |].
  destruct (@newIndex_ok _ _ _ _ E2) as (_ & _ & Hm & Hf2 & _ & _).
  cbn [reopen data] in Hsz2, Hf2.
  rewrite Hl, u64_small in Hsz2 by lia.
  exists i2, f2. split; [assumption|]. split; [assumption|].
  intros k. apply Read_ext.
  - assumption.
  - lia.
  - lia.
  - rewrite Hm, Hf2, resize_grow by lia.
    replace (Z.to_nat (Index.size i))
      with (Z.to_nat (len (data (Index.file i')))) at 1 by (f_equal; lia).
    rewrite firstn_len_app. assumption.
Qed.

Lemma index_survives_reopen_witness :
  exists i2 f2,
    Index.newIndex (reopen (Index.file (snd (Index.Close index_one)))) config24
    = (Ok i2, f2)
    /\ Index.size i2 = 12
    /\ forall k, Index.Read i2 k = Index.Read index_one k.
Proof.
  apply (index_survives_reopen index_one (snd (Index.Close index_one)) config24).
  - vm_compute. split; discriminate.
  - vm_compute. discriminate.
  - vm_compute. reflexivity.
  - vm_compute. reflexivity.
Defined.

Lemma newIndex_unmappable (f : File) (c : Config) :
  closed f = false -> i64 (MaxIndexBytes (Segment c)) <= 0 ->
  fst (Index.newIndex f c) = Err EINVAL.
Proof.
  intros Hopen Hle. unfold Index.newIndex, OS.Truncate.
  destruct (Z.ltb_spec (i64 (MaxIndexBytes (Segment c))) 0); [reflexivity|].
  replace (i64 (MaxIndexBytes (Segment c))) with 0 by lia.
  unfold Gommap.Map, set_data, resize. cbn. rewrite Hopen.
  destruct (data f); reflexivity.
Qed.

(** X10: [newIndex] on an open file no longer than [MaxIndexBytes]
    keeps the file's bytes and pads them with zeros up to
    [MaxIndexBytes]; the map is the whole file and the size is the old
    length.  With [MaxIndexBytes] zero, or beyond the range of an
    [int64], it fails with [EINVAL]. *)
Theorem newIndex_pads_with_zeros (f : File) (c : Config) :
  closed f = false ->
  (0 < i64 (MaxIndexBytes (Segment c)) ->
   len (data f) <= i64 (MaxIndexBytes (Segment c)) ->
   exists i f1,
     Index.newIndex f c = (Ok i, f1)
     /\ Index.size i = len (data f)
     /\ Index.mmap i
        = data f ++ repeat x00 (Z.to_nat (i64 (MaxIndexBytes (Segment c)))
                                - List.length (data f))
     /\ data f1 = Index.mmap i
     /\ Index.file i = f1)
  /\ (i64 (MaxIndexBytes (Segment c)) <= 0 ->
      fst (Index.newIndex f c) = Err EINVAL).
Proof.
  intros Hopen. split.
  - intros Hpos Hle.
    assert (H63 : i64 (MaxIndexBytes (Segment c)) < 2 ^ 63)
      by (unfold i64;
          pose proof (Z.mod_pos_bound (MaxIndexBytes (Segment c) + 2 ^ 63)
                        (2 ^ 64)); lia).
    destruct (@newIndex_succeeds f c) as (i & f1 & E & Hsz & _);
      [assumption | assumption |].
    destruct (@newIndex_ok _ _ _ _ E) as (_ & Hfile & Hm & Hf1 & _ & _).
    pose proof (len_nonneg (data f)).
    exists i, f1. split; [assumption|].
    rewrite u64_small in Hsz by lia.
    rewrite resize_grow in Hf1 by assumption.
    rewrite Hm, Hf1. auto.
  - intros Hle. apply newIndex_unmappable; assumption.
Qed.

Lemma newIndex_pads_with_zeros_witness :
  (exists i f1,
     Index.newIndex empty_index_file config24 = (Ok i, f1)
     /\ Index.size i = 0
     /\ Index.mmap i = repeat x00 24
     /\ data f1 = Index.mmap i
     /\ Index.file i = f1)
  /\ fst (Index.newIndex empty_index_file (mkConfig (mkSegmentConfig 20 0 0)))
     = Err EINVAL.
Proof.
  split.
  - apply (proj1 (newIndex_pads_with_zeros empty_index_file config24 eq_refl)).
    + vm_compute. reflexivity.
    + vm_compute. discriminate.
  - apply (newIndex_pads_with_zeros empty_index_file
             (mkConfig (mkSegmentConfig 20 0 0)) eq_refl).
    vm_compute. discriminate.
Defined.

(* ================================================================== *)
(** * Further properties of the log *)

(** The loop of [setup] on any slice: a segment for every other entry. *)
Lemma setup_loop_every_other (xs : list Z) :
  (forall l,
     mappable (Log.Config l) -> index_files_fit (Log.Dir l) (Log.Config l) ->
     exists l',
       Log.setup_loop l xs = (Ok tt, l')
       /\ Log.Config l' = Log.Config l
       /\ index_files_fit (Log.Dir l') (Log.Config l')
       /\ map Segment.baseOffset (Log.segments l')
          = map Segment.baseOffset (Log.segments l) ++ every_other xs
       /\ (xs <> [] ->
           Log.activeSegment l'
           = Some (List.length (Log.segments l') - 1)%nat)
       /\ (xs = [] -> l' = l))
  /\ (forall a l,
       mappable (Log.Config l) -> index_files_fit (Log.Dir l) (Log.Config l) ->
       exists l',
         Log.setup_loop l (a :: xs) = (Ok tt, l')
         /\ Log.Config l' = Log.Config l
         /\ index_files_fit (Log.Dir l') (Log.Config l')
         /\ map Segment.baseOffset (Log.segments l')
            = map Segment.baseOffset (Log.segments l) ++ every_other (a :: xs)
         /\ Log.activeSegment l'
            = Some (List.length (Log.segments l') - 1)%nat).
Proof.
  induction xs as [|x xs [IH0 IH1]].
  - split.
    + intros l _ Hfit. exists l. cbn. rewrite app_nil_r.
      repeat split; auto. congruence.
    + intros a l Hc Hfit.
      destruct (@Log_newSegment_ok l a Hc Hfit)
        as (l1 & E1 & Hcfg & Hfit1 & Hmap & Hact).
      exists l1. cbn [Log.setup_loop every_other]. rewrite E1.
      repeat split; auto.
      rewrite Hact. f_equal. apply (f_equal (@List.length Z)) in Hmap.
      rewrite length_app, !length_map in Hmap. cbn in Hmap. lia.
  - split.
    + intros l Hc Hfit. destruct (IH1 x l Hc Hfit) as (l' & E & H1 & H2 & H3 & H4).
      exists l'. repeat split; auto. discriminate.
    + intros a l Hc Hfit.
      destruct (@Log_newSegment_ok l a Hc Hfit)
        as (l1 & E1 & Hcfg & Hfit1 & Hmap & Hact).
      rewrite <- Hcfg in Hc.
      destruct (IH0 l1 Hc Hfit1) as (l' & E & Hcfg' & Hfit' & Hmap' & Hact' & Hnil).
      exists l'. cbn [Log.setup_loop]. rewrite E1, E.
      split; [reflexivity|]. split; [congruence|]. split; [assumption|].
      split.
      * rewrite Hmap', Hmap, <- app_assoc. reflexivity.
      * destruct xs as [|y ys].
        -- rewrite (Hnil eq_refl), Hact. f_equal.
           apply (f_equal (@List.length Z)) in Hmap.
           rewrite length_app, !length_map in Hmap. cbn in Hmap. lia.
        -- apply Hact'. discriminate.
Qed.

Lemma NewLog_with_defaults (dir : Directory) (c : Config) :
  Log.NewLog dir c = Log.setup (Log.mkLog dir (with_defaults c) None []).
Proof.
  unfold Log.NewLog, with_defaults. destruct c as [[ms mi io]].
  cbn [Segment MaxStoreBytes MaxIndexBytes InitialOffset].
  destruct (ms =? 0); cbn [Segment MaxStoreBytes MaxIndexBytes InitialOffset];
    destruct (mi =? 0); reflexivity.
Qed.

(** X11: [NewLog] on any directory whose index files fit the map: the
    limits left at zero are set to 1024, and the log gets one segment
    for every other entry of the sorted slice of numbers parsed from the
    file names (whatever the names are), or one at [InitialOffset] when
    the directory is empty; the last segment made is the active one. *)
Theorem NewLog_segments_every_other (dir : Directory) (c : Config) :
  mappable (with_defaults c) -> index_files_fit dir (with_defaults c) ->
  exists l,
    Log.NewLog dir c = (Ok tt, l)
    /\ Log.Config l = with_defaults c
    /\ MaxStoreBytes (Segment (Log.Config l)) <> 0
    /\ MaxIndexBytes (Segment (Log.Config l)) <> 0
    /\ map Segment.baseOffset (Log.segments l)
       = match every_other (sort_Slice (map Log.name_offset (ReadDir dir))) with
         | [] => [InitialOffset (Segment c)]
         | bs => bs
         end
    /\ Log.activeSegment l = Some (List.length (Log.segments l) - 1)%nat.
Proof.
  intros Hc Hfit. rewrite NewLog_with_defaults.
  assert (Hnz : MaxStoreBytes (Segment (with_defaults c)) <> 0
                /\ MaxIndexBytes (Segment (with_defaults c)) <> 0).
  { unfold with_defaults. cbn [Segment MaxStoreBytes MaxIndexBytes]. split.
    - destruct (Z.eqb_spec (MaxStoreBytes (Segment c)) 0); [discriminate|auto].
    - destruct (Z.eqb_spec (MaxIndexBytes (Segment c)) 0); [discriminate|auto]. }
  destruct Hnz as [Hms Hmi].
  unfold Log.setup. cbn [Log.Dir].
  set (xs := sort_Slice (map Log.name_offset (ReadDir dir))).
  destruct (setup_loop_every_other xs) as [Hloop _].
  destruct (Hloop (Log.mkLog dir (with_defaults c) None []) Hc Hfit)
    as (l1 & E1 & Hcfg1 & Hfit1 & Hmap1 & Hact1 & Hnil1).
  rewrite E1. cbn [Log.segments Log.Config map app] in Hmap1, Hcfg1.
  destruct xs as [|x xs'].
  - rewrite (Hnil1 eq_refl). cbn [Log.segments Log.Config every_other].
    destruct (@Log_newSegment_ok (Log.mkLog dir (with_defaults c) None [])
                (InitialOffset (Segment (with_defaults c))) Hc Hfit)
      as (l2 & E2 & Hcfg2 & _ & Hmap2 & Hact2).
    exists l2. cbn [Log.Config Log.segments map app] in *.
    rewrite Hcfg2. repeat split; try assumption.
    rewrite Hact2. f_equal. apply (f_equal (@List.length Z)) in Hmap2.
    rewrite length_map in Hmap2. cbn in *. lia.
  - assert (Hne : Log.segments l1 <> []).
    { intros Hnil. rewrite Hnil in Hmap1. discriminate. }
    destruct (Log.segments l1) as [|s1 ss1] eqn:Es; [congruence|].
    exists l1. rewrite Hcfg1, Es. repeat split; try assumption.
    apply Hact1. discriminate.
Qed.

Lemma NewLog_segments_every_other_witness :
  exists l,
    Log.NewLog dir_stray config_zero = (Ok tt, l)
    /\ map Segment.baseOffset (Log.segments l) = [0; 5]
    /\ MaxIndexBytes (Segment (Log.Config l)) = 1024.
Proof.
  destruct (NewLog_segments_every_other dir_stray config_zero)
    as (l & E & Hcfg & _ & _ & Hmap & _).
  - vm_compute. reflexivity.
  - intros f b Hin _. cbn in Hin.
    destruct Hin as [<-|[<-|[<-|[]]]]; vm_compute; discriminate.
  - exists l. split; [exact E|]. split.
    + rewrite Hmap. vm_compute. reflexivity.
    + rewrite Hcfg. reflexivity.
Defined.

(** X12: without the defaults of [NewLog], [setup] on a configuration
    whose [MaxIndexBytes] is zero, or no positive [int64], fails on the
    first segment with [EINVAL], whatever the directory holds, and the
    log is left without segments. *)
Theorem setup_fails_unmappable (dir : Directory) (c : Config) :
  i64 (MaxIndexBytes (Segment c)) <= 0 ->
  fst (Log.setup (Log.mkLog dir c None [])) = Err (OSError EINVAL)
  /\ Log.segments (snd (Log.setup (Log.mkLog dir c None []))) = [].
Proof.
  intros Hle.
  assert (Hseg : forall d b,
             fst (Segment.newSegment d b c) = Err (OSError EINVAL)).
  { intros d b. unfold Segment.newSegment.
    destruct (OpenFile d (store_name b)) as [sf d1].
    destruct (OpenFile d1 (index_name b)) as [xf d2] eqn:EO.
    destruct (@OpenFile_spec _ _ _ _ EO) as (Hopen & _).
    pose proof (newIndex_unmappable xf c Hopen Hle) as HE.
    destruct (Index.newIndex xf c) as [[i|e|] f1]; cbn in HE; try discriminate.
    inversion HE; subst. reflexivity. }
  assert (Hnew : forall l b,
             Log.Config l = c ->
             fst (Log.newSegment l b) = Err (OSError EINVAL)
             /\ Log.segments (snd (Log.newSegment l b)) = Log.segments l).
  { intros l b Hcfg. unfold Log.newSegment. rewrite Hcfg.
    pose proof (Hseg (Log.Dir l) b) as HE.
    destruct (Segment.newSegment (Log.Dir l) b c) as [[s|e|] d];
      cbn in HE; try discriminate.
    inversion HE; subst. split; reflexivity. }
  unfold Log.setup. cbn [Log.Dir].
  destruct (sort_Slice (map Log.name_offset (ReadDir dir))) as [|b rest].
  - cbn [Log.setup_loop Log.segments Log.Config].
    apply Hnew. reflexivity.
  - cbn [Log.setup_loop].
    destruct (Hnew (Log.mkLog dir c None []) b eq_refl) as [HE Hs].
    destruct (Log.newSegment (Log.mkLog dir c None []) b) as [[u|e|] l1];
      cbn in HE; try discriminate.
    inversion HE; subst. split; [reflexivity | exact Hs].
Qed.

Lemma setup_fails_unmappable_witness :
  fst (Log.setup (Log.mkLog dir_stray config_zero None []))
  = Err (OSError EINVAL).
Proof.
  apply (setup_fails_unmappable dir_stray config_zero).
  vm_compute. discriminate.
Defined.

Lemma length_list_set {A} (l : list A) (i : nat) (x : A) :
  List.length (list_set l i x) = List.length l.
Proof.
  revert i. induction l as [|y l IH]; intros [|i]; cbn; auto.
Qed.

Lemma nth_error_list_set_other {A} (l : list A) (i k : nat) (x : A) :
  k <> i -> nth_error (list_set l i x) k = nth_error l k.
Proof.
  revert i k. induction l as [|y l IH]; intros [|i] [|k] Hne; cbn; auto.
  congruence.
Qed.

Lemma nth_error_list_set_same {A} (l : list A) (i : nat) (x : A) :
  (i < List.length l)%nat -> nth_error (list_set l i x) i = Some x.
Proof.
  revert i. induction l as [|y l IH]; intros [|i] Hlt; cbn in *; try lia; auto.
  apply IH. lia.
Qed.

(** X13: [Append] on the log works on the active segment only: every
    other segment is left as it was, the configuration is kept, at most
    one segment is added at the end, and none is added when the append
    fails. *)
Theorem log_append_touches_only_active `{Codec}
      (l l' : Log.Log) (record : Record_)
      (r : result error (Z * option error)) :
  Log.Append l record = (r, l') ->
  Log.Config l' = Log.Config l
  /\ (List.length (Log.segments l) <= List.length (Log.segments l')
      <= S (List.length (Log.segments l)))%nat
  /\ (forall k, (k < List.length (Log.segments l))%nat ->
                Log.activeSegment l <> Some k ->
                nth_error (Log.segments l') k = nth_error (Log.segments l) k)
  /\ (forall e, r = Err e ->
                List.length (Log.segments l') = List.length (Log.segments l)).
Proof.
  unfold Log.Append.
  destruct (Log.activeSegment l) as [a|] eqn:Ea.
  2:{ intros E; inversion E; subst. repeat split; auto. }
  destruct (nth_error (Log.segments l) a) as [s|] eqn:En.
  2:{ intros E; inversion E; subst. repeat split; auto. }
  destruct (Segment.Append s record) as [r0 s'] eqn:EA. cbv zeta.
  set (l1 := Log.mkLog (Log.Dir l) (Log.Config l) (Some a)
                       (list_set (Log.segments l) a s')).
  assert (H1 : Log.Config l1 = Log.Config l
               /\ List.length (Log.segments l1) = List.length (Log.segments l)
               /\ forall k, Some a <> Some k ->
                    nth_error (Log.segments l1) k = nth_error (Log.segments l) k).
  { unfold l1. cbn. split; [reflexivity|]. split; [apply length_list_set|].
    intros k Hk. apply nth_error_list_set_other. congruence. }
  destruct H1 as (Hc1 & Hl1 & Hn1).
  destruct r0 as [offset|e|].
  - destruct (Segment.IsMaxed s').
    + destruct (Log.newSegment l1 (u64 (offset + 1))) as [r2 l2] eqn:E2.
      destruct (@Log_newSegment_spec _ _ _ _ E2) as (Hc2 & Hr2).
      assert (Hgen : r = Ok (offset, None) \/ (exists e, r = Ok (offset, Some e))
                     \/ r = Panic -> l' = l2 ->
              Log.Config l' = Log.Config l
              /\ (List.length (Log.segments l) <= List.length (Log.segments l')
                  <= S (List.length (Log.segments l)))%nat
              /\ (forall k, (k < List.length (Log.segments l))%nat ->
                    Some a <> Some k ->
                    nth_error (Log.segments l') k = nth_error (Log.segments l) k)
              /\ (forall e, r = Err e ->
                    List.length (Log.segments l')
                    = List.length (Log.segments l))).
      { intros Hr ->. split; [congruence|].
        assert (Hsegs : Log.segments l2 = Log.segments l1
                        \/ exists s2, Log.segments l2 = Log.segments l1 ++ [s2]).
        { destruct r2 as [u|e|].
          - destruct Hr2 as (s2 & Hs2 & _). right. exists s2. exact Hs2.
          - left. apply Hr2.
          - left. apply Hr2. }
        split; [|split].
        - destruct Hsegs as [->|[s2 ->]]; rewrite ?length_app, Hl1;
            cbn [List.length]; lia.
        - intros k Hk Hne. rewrite <- (Hn1 k Hne).
          destruct Hsegs as [->|[s2 ->]]; [reflexivity|].
          apply nth_error_app1. lia.
        - intros e He. destruct Hr as [Hr|[[e' Hr]|Hr]]; congruence. }
      destruct r2 as [u|e|]; intros E; inversion E; subst.
      * apply Hgen; auto.
      * apply Hgen; [right; left; eauto | reflexivity].
      * apply Hgen; auto.
    + intros E; inversion E; subst. repeat split; auto; lia.
  - intros E; inversion E; subst. repeat split; auto; lia.
  - intros E; inversion E; subst. repeat split; auto; lia.
Qed.

Lemma log_append_touches_only_active_witness :
  nth_error (Log.segments log_two) 0
  = nth_error (Log.segments
                 (snd (@Log.Append plain_codec log_two (mkRecord hello 0)))) 0.
Proof.
  destruct (@log_append_touches_only_active plain_codec log_two
              (snd (@Log.Append plain_codec log_two (mkRecord hello 0)))
              (mkRecord hello 0)
              (fst (@Log.Append plain_codec log_two (mkRecord hello 0))))
    as (_ & _ & Hother & _).
  - vm_compute. reflexivity.
  - symmetry. apply Hother.
    + vm_compute. lia.
    + vm_compute. discriminate.
Defined.

Lemma map_list_set_same {A B} (f : A -> B) (l : list A) (k : nat) (x y : A) :
  nth_error l k = Some x -> f y = f x -> map f (list_set l k y) = map f l.
Proof.
  revert k. induction l as [|z l IH]; intros [|k] Hn Hf; cbn in *;
    try discriminate.
  - inversion Hn; subst. now rewrite Hf.
  - f_equal. apply IH; assumption.
Qed.

Lemma contiguous_ext (a : list Segment.segment) :
  forall b,
    map Segment.baseOffset b = map Segment.baseOffset a ->
    map Segment.nextOffset b = map Segment.nextOffset a ->
    contiguous a -> contiguous b.
Proof.
  induction a as [|s1 a IH]; intros [|t1 b] Hb Hn Hc; try discriminate;
    [exact I|].
  cbn in Hb, Hn. inversion Hb as [[Hb1 Hb2]]. inversion Hn as [[Hn1 Hn2]].
  destruct Hc as [Hhd Htl]. split.
  - destruct a as [|s2 a], b as [|t2 b]; try discriminate; [exact I|].
    cbn in Hb2, Hn2. inversion Hb2. inversion Hn2. congruence.
  - apply IH; assumption.
Qed.

Lemma ordered_ext (a b : list Segment.segment) :
  map Segment.baseOffset b = map Segment.baseOffset a ->
  map Segment.nextOffset b = map Segment.nextOffset a ->
  ordered a -> ordered b.
Proof.
  unfold ordered. revert b.
  induction a as [|s1 a IH]; intros [|t1 b] Hb Hn Ho; try discriminate;
    [constructor|].
  cbn in Hb, Hn. inversion Hb. inversion Hn. inversion Ho; subst.
  constructor; [lia | apply IH; assumption].
Qed.

Lemma Segment_Read_keeps `{Codec} (s s' : Segment.segment) (off : Z)
      (r : result error Record_) :
  Segment.Read s off = (r, s') ->
  Segment.baseOffset s' = Segment.baseOffset s
  /\ Segment.nextOffset s' = Segment.nextOffset s
  /\ Segment.index s' = Segment.index s
  /\ Segment.config s' = Segment.config s.
Proof.
  unfold Segment.Read.
  destruct (Index.Read _ _) as [[o pos]|e|].
  - destruct (Store.Read (Segment.store s) pos) as [[b|e|] st].
    + destruct (Unmarshal b); intros E; inversion E; subst; cbn; auto.
    + intros E; inversion E; subst; cbn; auto.
    + intros E; inversion E; subst; cbn; auto.
  - intros E; inversion E; subst; auto.
  - intros E; inversion E; subst; auto.
Qed.

(** X14: [Read] on the log changes no offset: whatever it returns, the
    directory, the configuration, the active segment, and every
    segment's base offset, next offset and index are as before (a read
    may only flush a store), so the log stays contiguous and ordered. *)
Theorem log_read_keeps_offsets `{Codec} (l : Log.Log) (offset : Z) :
  Log.Dir (snd (Log.Read l offset)) = Log.Dir l
  /\ Log.Config (snd (Log.Read l offset)) = Log.Config l
  /\ Log.activeSegment (snd (Log.Read l offset)) = Log.activeSegment l
  /\ map Segment.baseOffset (Log.segments (snd (Log.Read l offset)))
     = map Segment.baseOffset (Log.segments l)
  /\ map Segment.nextOffset (Log.segments (snd (Log.Read l offset)))
     = map Segment.nextOffset (Log.segments l)
  /\ map Segment.index (Log.segments (snd (Log.Read l offset)))
     = map Segment.index (Log.segments l)
  /\ (contiguous (Log.segments l) ->
      contiguous (Log.segments (snd (Log.Read l offset))))
  /\ (ordered (Log.segments l) ->
      ordered (Log.segments (snd (Log.Read l offset)))).
Proof.
  assert (Hmaps :
    Log.Dir (snd (Log.Read l offset)) = Log.Dir l
    /\ Log.Config (snd (Log.Read l offset)) = Log.Config l
    /\ Log.activeSegment (snd (Log.Read l offset)) = Log.activeSegment l
    /\ map Segment.baseOffset (Log.segments (snd (Log.Read l offset)))
       = map Segment.baseOffset (Log.segments l)
    /\ map Segment.nextOffset (Log.segments (snd (Log.Read l offset)))
       = map Segment.nextOffset (Log.segments l)
    /\ map Segment.index (Log.segments (snd (Log.Read l offset)))
       = map Segment.index (Log.segments l)).
  { unfold Log.Read.
    destruct (Log.scan (Log.segments l) offset) as [k|]; [|cbn; auto 10].
    destruct (nth_error (Log.segments l) k) as [s|] eqn:En; [|cbn; auto 10].
    destruct (Segment.nextOffset s <=? offset); [cbn; auto 10|].
    destruct (Segment.Read s offset) as [r s'] eqn:ER.
    destruct (Segment_Read_keeps s s' offset r ER) as (Hb & Hn & Hi & _).
    cbn [snd Log.Dir Log.Config Log.activeSegment Log.segments].
    repeat split; auto; apply (map_list_set_same _ _ _ s); assumption. }
  destruct Hmaps as (Hd & Hc & Ha & Hb & Hn & Hi).
  repeat split; try assumption.
  - apply contiguous_ext; assumption.
  - apply ordered_ext; assumption.
Qed.

Lemma log_read_keeps_offsets_witness :
  contiguous (Log.segments (snd (@Log.Read plain_codec log_two 1)))
  /\ map Segment.nextOffset (Log.segments (snd (@Log.Read plain_codec log_two 1)))
     = [2; 2].
Proof.
  destruct (@log_read_keeps_offsets plain_codec log_two 1)
    as (_ & _ & _ & _ & Hn & _ & Hc & _).
  split.
  - apply Hc. vm_compute. auto.
  - rewrite Hn. vm_compute. reflexivity.
Defined.

Lemma firstn_add {A} (a b : nat) :
  forall l : list A, firstn (a + b) l = firstn a l ++ firstn b (skipn a l).
Proof.
  induction a as [|a IH]; intros [|x l]; cbn; try reflexivity.
  - now rewrite firstn_nil.
  - now rewrite IH.
Qed.

(** What [ReadAt] does on a store without pending error whose file is
    open and has room for the buffer. *)
Lemma Store_ReadAt_ok (s : Store.store) (k offset : Z) :
  Bufio.werr (Store.buffer s) = None ->
  closed (Store.file s) = false ->
  len (Store.content s) <= room (Store.file s) ->
  0 <= offset ->
  exists s',
    Store.ReadAt s k offset
    = (firstn (Z.to_nat k) (skipn (Z.to_nat offset) (Store.content s)),
       (if len (firstn (Z.to_nat k)
                       (skipn (Z.to_nat offset) (Store.content s))) <? k
        then Some EOF else None),
       s')
    /\ Store.content s' = Store.content s
    /\ Bufio.werr (Store.buffer s') = None
    /\ closed (Store.file s') = false
    /\ room (Store.file s') = room (Store.file s).
Proof.
  intros Hw Hopen Hroom Hoff. unfold Store.content in *.
  rewrite len_app in Hroom.
  destruct (@Flush_fits _ _ Hw Hopen Hroom) as (f' & EF & Hd & Hopen' & Hr).
  unfold Store.ReadAt. rewrite EF. unfold OS.ReadAt. rewrite Hopen'.
  destruct (Z.ltb_spec offset 0); [lia|].
  rewrite Hd. eexists. split; [reflexivity|]. cbn.
  rewrite app_nil_r. auto.
Qed.

(** X15: the reader of one segment's store returns the store's bytes in
    sequence: a read of [k1] bytes and then one of [k2] bytes give
    together the first [k1 + k2] bytes from the reader's offset (fewer
    when the store ends), the offset moves on by the bytes read, and
    [io.EOF] comes with a read that is not full. *)
Theorem originReader_reads_in_sequence
      (o o1 o2 : Log.originReader) (k1 k2 : Z) (b1 b2 : list byte)
      (e1 e2 : option os_error) :
  Bufio.werr (Store.buffer (Log.store o)) = None ->
  closed (Store.file (Log.store o)) = false ->
  len (Store.content (Log.store o)) <= room (Store.file (Log.store o)) ->
  0 <= Log.offset o -> 0 <= k1 -> 0 <= k2 ->
  Log.offset o + k1 + k2 < 2 ^ 63 ->
  Log.originReader_Read o k1 = (b1, e1, o1) ->
  Log.originReader_Read o1 k2 = (b2, e2, o2) ->
  b1 = firstn (Z.to_nat k1)
         (skipn (Z.to_nat (Log.offset o)) (Store.content (Log.store o)))
  /\ b1 ++ b2
     = firstn (Z.to_nat (k1 + k2))
         (skipn (Z.to_nat (Log.offset o)) (Store.content (Log.store o)))
  /\ Log.offset o1 = Log.offset o + len b1
  /\ Log.offset o2 = Log.offset o + len (b1 ++ b2)
  /\ (e1 = Some EOF <-> len b1 < k1)
  /\ (e1 = None <-> len b1 = k1).
Proof.
  intros Hw Hopen Hroom Hoff Hk1 Hk2 Hmax E1 E2.
  unfold Log.originReader_Read in E1, E2.
  destruct (Store_ReadAt_ok (Log.store o) k1 (Log.offset o) Hw Hopen Hroom Hoff)
    as (s1 & R1 & Hc1 & Hw1 & Hopen1 & Hr1).
  rewrite R1 in E1.
  set (rest := skipn (Z.to_nat (Log.offset o)) (Store.content (Log.store o)))
    in *.
  assert (Hb1 : b1 = firstn (Z.to_nat k1) rest) by congruence.
  assert (Hlen1 : len b1 = Z.min k1 (len rest))
    by (rewrite Hb1, len_firstn; lia).
  pose proof (len_nonneg rest) as Hrest.
  assert (Ho1 : o1 = Log.mkOriginReader s1 (Log.offset o + len b1)).
  { rewrite <- Hb1 in E1. inversion E1; subst o1.
    rewrite (@i64_small (len b1)) by lia.
    rewrite i64_small by lia. reflexivity. }
  subst o1. cbn [Log.store Log.offset] in E2.
  destruct (Store_ReadAt_ok s1 k2 (Log.offset o + len b1) Hw1 Hopen1)
    as (s2 & R2 & _); [rewrite Hc1, Hr1; assumption | lia |].
  rewrite R2, Hc1 in E2.
  assert (Hskip : skipn (Z.to_nat (Log.offset o + len b1))
                        (Store.content (Log.store o))
                  = skipn (Z.to_nat k1) rest).
  { unfold rest. rewrite skipn_skipn.
    destruct (Z.le_gt_cases k1 (len rest)) as [Hle|Hgt].
    - f_equal. lia.
    - rewrite !skipn_all2; [reflexivity| |].
      + unfold rest, len in *. rewrite length_skipn in *. lia.
      + unfold rest, len in *. rewrite length_skipn in *. lia. }
  rewrite Hskip in E2.
  assert (Hb2 : b2 = firstn (Z.to_nat k2) (skipn (Z.to_nat k1) rest))
    by congruence.
  assert (Happ : b1 ++ b2 = firstn (Z.to_nat (k1 + k2)) rest).
  { rewrite Hb1, Hb2, Z2Nat.inj_add by lia. symmetry. apply firstn_add. }
  split; [assumption|]. split; [assumption|]. split; [reflexivity|].
  split.
  - rewrite <- Hb2 in E2. inversion E2; subst o2. cbn [Log.offset].
    pose proof (len_nonneg b2).
    assert (len b2 <= k2) by (rewrite Hb2, len_firstn; lia).
    rewrite (@i64_small (len b2)) by lia.
    rewrite i64_small, len_app by lia. lia.
  - assert (He1 : e1 = if len b1 <? k1 then Some EOF else None).
    { rewrite <- Hb1 in E1. inversion E1; reflexivity. }
    rewrite He1.
    assert (len b1 <= k1) by lia.
    destruct (Z.ltb_spec (len b1) k1); split; split; intros;
      try discriminate; try lia; auto.
Qed.

Lemma originReader_reads_in_sequence_witness :
  fst (fst (Log.originReader_Read
              (Log.mkOriginReader (snd (Store.Append store0 hello)) 0) 8))
  ++ fst (fst (Log.originReader_Read
                 (snd (Log.originReader_Read
                         (Log.mkOriginReader (snd (Store.Append store0 hello)) 0)
                         8))
                 8))
  = be_put 8 5 ++ hello.
Proof.
  refine (eq_trans
            (proj1 (proj2
               (originReader_reads_in_sequence
                  (Log.mkOriginReader (snd (Store.Append store0 hello)) 0)
                  _ _ 8 8 _ _
                  (snd (fst (Log.originReader_Read
                     (Log.mkOriginReader (snd (Store.Append store0 hello)) 0)
                     8)))
                  (snd (fst (Log.originReader_Read
                     (snd (Log.originReader_Read
                        (Log.mkOriginReader (snd (Store.Append store0 hello)) 0)
                        8))
                     8)))
                  _ _ _ _ _ _ _ _ _))) _).
  - vm_compute. reflexivity.
  - vm_compute. reflexivity.
  - vm_compute. discriminate.
  - vm_compute. discriminate.
  - vm_compute. discriminate.
  - vm_compute. discriminate.
  - vm_compute. reflexivity.
  - vm_compute. reflexivity.
  - vm_compute. reflexivity.
  - vm_compute. reflexivity.
Defined.

Lemma Index_Close_closed (i i' : Index.index) :
  Index.Close i = (None, i') ->
  closed (Index.file i') = true
  /\ Index.size i' = Index.size i /\ Index.mmap i' = Index.mmap i.
Proof.
  unfold Index.Close, OS.Sync, OS.FTruncate, OS.Truncate, OS.Close.
  set (f1 := Gommap.Sync (Index.mmap i) (Index.file i)).
  destruct (closed f1) eqn:Hc; [discriminate|].
  destruct (i64 (Index.size i) <? 0); [discriminate|].
  cbn [set_data closed]. rewrite Hc.
  intros E; inversion E; subst. cbn. auto.
Qed.

Lemma Index_Close_again (i : Index.index) :
  closed (Index.file i) = true -> fst (Index.Close i) = Some ErrClosed.
Proof.
  intros Hc. unfold Index.Close, OS.Sync, Gommap.Sync, set_data.
  cbn [closed]. rewrite Hc. reflexivity.
Qed.

Lemma Segment_Close_ok (s s' : Segment.segment) :
  Segment.Close s = (None, s') ->
  Index.Close (Segment.index s) = (None, Segment.index s')
  /\ Store.Close (Segment.store s) = (None, Segment.store s')
  /\ Segment.baseOffset s' = Segment.baseOffset s
  /\ Segment.nextOffset s' = Segment.nextOffset s
  /\ Segment.config s' = Segment.config s.
Proof.
  unfold Segment.Close.
  destruct (Index.Close (Segment.index s)) as [[e|] idx]; [discriminate|].
  destruct (Store.Close (Segment.store s)) as [[e|] st]; [discriminate|].
  intros E; inversion E; subst. cbn. auto.
Qed.

(** The loop of [Close] when it fails: the segments before the failing
    one were closed, the ones after it were not reached. *)
Lemma Close_loop_spec (segs : list Segment.segment) :
  forall err segs',
    Log.Close_loop segs = (err, segs') ->
    match err with
    | None =>
      Forall2 (fun s s' => Segment.Close s = (None, s')) segs segs'
    | Some e =>
      exists pre s post pre' s',
        segs = pre ++ s :: post /\ segs' = pre' ++ s' :: post
        /\ Forall2 (fun s s' => Segment.Close s = (None, s')) pre pre'
        /\ Segment.Close s = (Some e, s')
    end.
Proof.
  induction segs as [|s rest IH]; intros err segs'; cbn [Log.Close_loop].
  - intros E; inversion E; subst. constructor.
  - destruct (Segment.Close s) as [[e|] s1] eqn:ES.
    + intros E; inversion E; subst.
      exists [], s, rest, [], s1. repeat split; auto.
    + destruct (Log.Close_loop rest) as [err0 rest'] eqn:ER.
      intros E; inversion E; subst. specialize (IH _ _ eq_refl).
      destruct err as [e|].
      * destruct IH as (pre & s2 & post & pre' & s2' & -> & -> & Hpre & Hs2).
        exists (s :: pre), s2, post, (s1 :: pre'), s2'.
        repeat split; auto.
      * constructor; assumption.
Qed.

(** X16: a [Close] of the log that succeeds has closed every segment:
    each store file is closed and holds the store's whole content, each
    index file is closed and cut to the index's size, no offset has
    changed; and closing the log once more fails with [os.ErrClosed]
    when it has a segment. *)
Theorem log_close_closes_all (l l' : Log.Log) :
  Forall (fun s => 0 <= Index.size (Segment.index s) < 2 ^ 64)
         (Log.segments l) ->
  Log.Close l = (None, l') ->
  Forall2 (fun s s' =>
             Segment.baseOffset s' = Segment.baseOffset s
             /\ Segment.nextOffset s' = Segment.nextOffset s
             /\ closed (Store.file (Segment.store s')) = true
             /\ data (Store.file (Segment.store s'))
                = Store.content (Segment.store s)
             /\ closed (Index.file (Segment.index s')) = true
             /\ len (data (Index.file (Segment.index s')))
                = Index.size (Segment.index s))
          (Log.segments l) (Log.segments l')
  /\ Log.activeSegment l' = Log.activeSegment l
  /\ (Log.segments l <> [] -> fst (Log.Close l') = Some (OSError ErrClosed)).
Proof.
  intros Hsz. unfold Log.Close.
  destruct (Log.Close_loop (Log.segments l)) as [err segs'] eqn:EL.
  intros E; inversion E; subst. cbn [Log.segments Log.activeSegment].
  pose proof (Close_loop_spec _ _ _ EL) as Hall. cbn in Hall.
  split; [|split; [reflexivity|]].
  - clear EL E. induction Hall as [|s s' segs segs' Hs Hrest IH];
      [constructor|].
    inversion Hsz as [|? ? Hs0 Hsz']; subst.
    constructor; [|apply IH; assumption].
    destruct (Segment_Close_ok s s' Hs) as (Hi & Hst & Hb & Hn & _).
    destruct (Store_Close_ok _ _ Hst) as (Hd & _ & _ & Hc & _).
    destruct (Index_Close_closed _ _ Hi) as (Hic & _).
    destruct (@Close_ok _ _ Hs0 Hi) as (_ & _ & Hlen).
    auto 10.
  - intros Hne. destruct Hall as [|s s' segs segs' Hs Hrest]; [congruence|].
    destruct (Segment_Close_ok s s' Hs) as (Hi & _).
    destruct (Index_Close_closed _ _ Hi) as (Hic & _).
    pose proof (Index_Close_again _ Hic) as Hagain.
    cbn [Log.Close_loop]. unfold Segment.Close.
    destruct (Index.Close (Segment.index s')) as [[e|] idx];
      cbn in Hagain; [|discriminate].
    inversion Hagain; subst. reflexivity.
Qed.

Lemma log_close_closes_all_witness :
  fst (Log.Close (snd (Log.Close log_two))) = Some (OSError ErrClosed)
  /\ map Segment.nextOffset (Log.segments (snd (Log.Close log_two))) = [2; 2].
Proof.
  destruct (log_close_closes_all log_two (snd (Log.Close log_two)))
    as (Hall & _ & Hagain).
  - repeat constructor; vm_compute; discriminate.
  - vm_compute. reflexivity.
  - split.
    + apply Hagain. vm_compute. discriminate.
    + inversion Hall as [|s1 t1 r1 r1' (_ & Hn1 & _) Hall1]; subst.
      inversion Hall1 as [|s2 t2 r2 r2' (_ & Hn2 & _) Hall2]; subst.
      inversion Hall2; subst.
      vm_compute. reflexivity.
Defined.

(** X17: a [Close] of the log that fails stops at the first segment
    whose close fails: the segments before it are closed, the error is
    that segment's, and the segments after it are left as they were,
    still open if they were. *)
Theorem log_close_stops_at_first_error (l l' : Log.Log) (e : error) :
  Log.Close l = (Some e, l') ->
  exists pre s post pre' s',
    Log.segments l = pre ++ s :: post
    /\ Log.segments l' = pre' ++ s' :: post
    /\ Forall2 (fun s s' => Segment.Close s = (None, s')) pre pre'
    /\ Segment.Close s = (Some e, s').
Proof.
  unfold Log.Close.
  destruct (Log.Close_loop (Log.segments l)) as [err segs'] eqn:EL.
  intros E; inversion E; subst. cbn [Log.segments].
  exact (Close_loop_spec _ _ _ EL).
Qed.

Lemma log_close_stops_at_first_error_witness :
  exists pre s post pre' s',
    Log.segments (snd (Log.Close log_two)) = pre ++ s :: post
    /\ Log.segments (snd (Log.Close (snd (Log.Close log_two))))
       = pre' ++ s' :: post
    /\ Forall2 (fun s s' => Segment.Close s = (None, s')) pre pre'
    /\ Segment.Close s = (Some (OSError ErrClosed), s').
Proof.
  apply (log_close_stops_at_first_error (snd (Log.Close log_two))
           (snd (Log.Close (snd (Log.Close log_two))))
           (OSError ErrClosed)).
  vm_compute. reflexivity.
Defined.

(** An entry written is the one read at the number it was given. *)
Lemma Write_then_Read_at (i i' : Index.index) (offset pos : Z) :
  Index.whole i -> Index.count i < 2 ^ 32 ->
  Index.Write i offset pos = (Ok tt, i') ->
  Index.Read i' (Index.count i) = Ok (u32 offset, u64 pos)
  /\ Index.whole i' /\ Index.count i' = Index.count i + 1
  /\ Index.size i' <= len (Index.mmap i').
Proof.
  unfold Index.whole, Index.count. change entryWidth with 12.
  intros [H0 Hmod] Hk E.
  assert (Hdiv : Index.size i = 12 * (Index.size i / 12))
    by (apply Z.div_exact; lia).
  destruct (@Write_ok_inv i i' offset pos) as (Hroom & Hw & ->);
    [lia | assumption |].
  change entryWidth with 12 in *. cbn [Index.size Index.mmap].
  assert (Hcount : (Index.size i + 12) / 12 = Index.size i / 12 + 1).
  { replace (Index.size i + 12) with (Index.size i + 1 * 12) by lia.
    rewrite Z.div_add by lia. reflexivity. }
  assert (Hlenw : len (written (Index.mmap i) (Index.size i) offset pos)
                  = len (Index.mmap i))
    by (apply len_written; change entryWidth with 12; lia).
  split; [|split; [|split]].
  - rewrite Read_at.
    + unfold Index.entry_at. cbn [Index.mmap]. change entryWidth with 12.
      replace (Index.size i / 12 * 12) with (Index.size i) by lia.
      destruct (@written_fields (Index.mmap i) (Index.size i) offset pos)
        as [Ho Hp]; [lia | change entryWidth with 12; lia |].
      change entryWidth with 12 in Hp.
      rewrite Ho, Hp, !be_get_put. reflexivity.
    + lia.
    + cbn [Index.size Index.mmap]. change entryWidth with 12. lia.
  - split; [lia|].
    replace (Index.size i + 12) with (Index.size i + 1 * 12) by lia.
    rewrite Z.mod_add by lia. assumption.
  - assumption.
  - lia.
Qed.

(** A record appended to a segment is the one the segment reads at the
    offset it was given. *)
Lemma Segment_Append_Read `{Codec}
      (s s' : Segment.segment) (record : Record_) (offset : Z) :
  segment_ok s ->
  (forall p, Marshal (mkRecord (Value record) (Segment.nextOffset s)) = Some p ->
             len p <= maxAlloc
             /\ exists r', Unmarshal p = Some r' /\ Value r' = Value record) ->
  Segment.Append s record = (Ok offset, s') ->
  offset = Segment.nextOffset s
  /\ Segment.baseOffset s' = Segment.baseOffset s
  /\ Segment.nextOffset s' = offset + 1
  /\ (forall rec s'', Segment.Read s' offset = (Ok rec, s'') ->
                      rec = mkRecord (Value record) offset)
  /\ (closed (Store.file (Segment.store s)) = false ->
      (forall p,
          Marshal (mkRecord (Value record) (Segment.nextOffset s)) = Some p ->
          Store.size (Segment.store s) + limit + len p
          <= room (Store.file (Segment.store s))) ->
      fst (Segment.Read s' offset) = Ok (mkRecord (Value record) offset)).
Proof.
  intros (Ht & Hsz & Hwhole & Hfit & Hcount & Hrel & Hbase & Hnext) Hcodec.
  unfold Segment.Append.
  destruct (Marshal (mkRecord (Value record) (Segment.nextOffset s)))
    as [p|] eqn:EM; [|discriminate].
  destruct (Hcodec p eq_refl) as (Hp & r' & EU & Hval).
  destruct (Store.Append (Segment.store s) p) as [[[n pos]|e|] st] eqn:EA;
    try discriminate.
  destruct (Index.Write (Segment.index s)
              (u32 (Segment.nextOffset s - Segment.baseOffset s)) pos)
    as [[u|e|] idx] eqn:EW; try discriminate.
  destruct u. intros E. inversion E; subst offset s'. clear E.
  assert (Hs63 : Store.size (Segment.store s) < 2 ^ 63)
    by (unfold limit in Hsz; lia).
  destruct (Append_ok_tracks _ _ _ _ _ Ht Hs63 Hp EA)
    as (Hn & Hpos & Hsz' & Ht').
  destruct (@Append_ok_content _ _ _ _ _ EA)
    as (_ & _ & _ & _ & Hroom' & Hclosed' & _).
  assert (Hc32 : Index.count (Segment.index s) < 2 ^ 32) by lia.
  destruct (Write_then_Read_at _ _ _ _ Hwhole Hc32 EW) as (HR & _).
  assert (Hs0 : 0 <= Store.size (Segment.store s)).
  { unfold Store.tracks in Ht.
    pose proof (len_nonneg (data (Store.file (Segment.store s)))).
    pose proof (len_nonneg (Bufio.buf (Store.buffer (Segment.store s)))).
    lia. }
  assert (Hc0 : 0 <= Index.count (Segment.index s)).
  { unfold Index.count. destruct Hwhole as [Hw0 _].
    apply Z.div_pos; [assumption | reflexivity]. }
  destruct (@store_read_after_later_appends
              (Segment.store s) st st p [] n pos Ht Hs63 Hp EA eq_refl)
    as [Honly Hdoes].
  split; [reflexivity|]. split; [reflexivity|].
  split; [cbn [Segment.nextOffset]; apply u64_small; lia|].
  assert (Hidx : Index.Read idx
                   (i64 (u64 (Segment.nextOffset s - Segment.baseOffset s)))
                 = Ok (u32 (u32 (Segment.nextOffset s - Segment.baseOffset s)),
                       u64 pos)).
  { rewrite u64_small, i64_small by lia. rewrite <- Hcount at 1. exact HR. }
  unfold Segment.Read.
  cbn [Segment.index Segment.store Segment.baseOffset Segment.nextOffset
       Segment.config].
  rewrite Hidx. rewrite (@u64_small pos) by lia.
  split.
  - intros rec s''.
    destruct (Store.Read st pos) as [[b|e|] st2] eqn:ER; try discriminate.
    rewrite (Honly b st2 eq_refl), EU.
    intros E. inversion E. rewrite Hval. reflexivity.
  - intros Hopen Hr.
    assert (HRd : fst (Store.Read st pos) = Ok p).
    { apply Hdoes.
      - congruence.
      - unfold Store.tracks in Ht'. rewrite <- Ht', Hsz', Hroom'.
        apply Hr. reflexivity.
      - lia. }
    destruct (Store.Read st pos) as [[b|e|] st2]; cbn in HRd;
      try discriminate.
    inversion HRd; subst b. rewrite EU. cbn [fst]. rewrite Hval. reflexivity.
Qed.

Lemma before_last (segs : list Segment.segment) (s : Segment.segment) :
  contiguous (segs ++ [s]) -> ordered (segs ++ [s]) ->
  Forall (fun t => Segment.nextOffset t <= Segment.baseOffset s) segs.
Proof.
  induction segs as [|t segs IH]; intros Hc Ho; [constructor|].
  cbn [app] in Hc, Ho.
  pose proof (contiguous_after Hc Ho) as Hafter.
  constructor.
  - rewrite Forall_forall in Hafter. apply Hafter.
    apply in_or_app. right. left. reflexivity.
  - apply IH.
    + destruct Hc as [_ Hc]. exact Hc.
    + inversion Ho; assumption.
Qed.

Lemma scan_middle (pre post : list Segment.segment) (x : Segment.segment)
      (offset : Z) :
  Forall (fun t => Segment.nextOffset t <= offset) pre ->
  Segment.baseOffset x <= offset < Segment.nextOffset x ->
  Log.scan (pre ++ x :: post) offset = Some (List.length pre).
Proof.
  intros Hpre Hx. induction Hpre as [|t pre Ht Hpre IH]; cbn [app Log.scan].
  - apply holds_iff in Hx. rewrite Hx. reflexivity.
  - destruct (Log.holds offset t) eqn:Eh.
    + apply holds_iff in Eh. lia.
    + rewrite IH. reflexivity.
Qed.

Lemma nth_error_middle {A} (pre post : list A) (x : A) :
  nth_error (pre ++ x :: post) (List.length pre) = Some x.
Proof. induction pre as [|y pre IH]; cbn; auto. Qed.

(** X18: a record appended to the log is read back at the offset the
    append returned: on a contiguous, ordered log whose active segment
    is the last one and is well formed, with a codec that decodes what
    it encodes, a [Read] at that offset can return no other record, and
    it returns the record, carrying that offset, when the store file is
    open and has room for the frame.  This holds also when the append
    filled the segment and a new one was started. *)
Theorem log_append_then_read `{Codec}
      (l l' : Log.Log) (record : Record_) (offset : Z) (err : option error)
      (a : nat) (active : Segment.segment) :
  contiguous (Log.segments l) -> ordered (Log.segments l) -> active_last l ->
  Log.activeSegment l = Some a ->
  nth_error (Log.segments l) a = Some active ->
  segment_ok active ->
  (forall p,
      Marshal (mkRecord (Value record) (Segment.nextOffset active)) = Some p ->
      len p <= maxAlloc
      /\ exists r', Unmarshal p = Some r' /\ Value r' = Value record) ->
  Log.Append l record = (Ok (offset, err), l') ->
  offset = Segment.nextOffset active
  /\ (forall rec l'', Log.Read l' offset = (Ok rec, l'') ->
                      rec = mkRecord (Value record) offset)
  /\ (closed (Store.file (Segment.store active)) = false ->
      (forall p,
          Marshal (mkRecord (Value record) (Segment.nextOffset active)) = Some p ->
          Store.size (Segment.store active) + limit + len p
          <= room (Store.file (Segment.store active))) ->
      fst (Log.Read l' offset) = Ok (mkRecord (Value record) offset)).
Proof.
  intros Hc Ho (segs & s0 & Hsegs & Hact) Ha Hn Hok Hcodec E.
  assert (Hactive : active = s0).
  { rewrite Hact in Ha. inversion Ha; subst a.
    rewrite Hsegs, nth_error_last in Hn. congruence. }
  subst active.
  rewrite Hsegs in Hc, Ho.
  pose proof (before_last _ _ Hc Ho) as Hbefore.
  assert (Hbn : Segment.baseOffset s0 <= Segment.nextOffset s0).
  { unfold ordered in Ho. rewrite Forall_forall in Ho. apply Ho.
    apply in_or_app. right. left. reflexivity. }
  unfold Log.Append in E. rewrite Hact, Hsegs, nth_error_last in E.
  destruct (Segment.Append s0 record) as [r0 s0'] eqn:EA.
  rewrite list_set_last in E.
  assert (Hshape : r0 = Ok offset
                   /\ exists post, Log.segments l' = segs ++ s0' :: post).
  { destruct r0 as [offset0|e|]; try discriminate.
    destruct (Segment.IsMaxed s0').
    - destruct (Log.newSegment _ (u64 (offset0 + 1))) as [r2 l2] eqn:E2.
      destruct (@Log_newSegment_spec _ _ _ _ E2) as (_ & Hspec).
      cbn [Log.segments Log.activeSegment] in Hspec.
      destruct r2 as [[]|e|]; try discriminate.
      + inversion E; subst. split; [reflexivity|].
        destruct Hspec as (new & Hs2 & _). exists [new].
        rewrite Hs2, <- app_assoc. reflexivity.
      + inversion E; subst. split; [reflexivity|].
        destruct Hspec as [Hs2 _]. exists []. exact Hs2.
    - inversion E; subst. split; [reflexivity|]. exists []. reflexivity. }
  destruct Hshape as [-> (post & Hsegs')]. clear E.
  destruct (Segment_Append_Read s0 s0' record offset Hok Hcodec EA)
    as (Hoff & Hb' & Hn' & Honly & Hdoes).
  assert (Hscan : Log.scan (Log.segments l') offset = Some (List.length segs)).
  { rewrite Hsegs'. apply scan_middle.
    - eapply Forall_impl; [|exact Hbefore]. cbn. intros t Ht. lia.
    - lia. }
  assert (Hread : Log.Read l' offset
                  = (fst (Segment.Read s0' offset),
                     Log.mkLog (Log.Dir l') (Log.Config l')
                               (Log.activeSegment l')
                               (list_set (Log.segments l') (List.length segs)
                                         (snd (Segment.Read s0' offset))))).
  { unfold Log.Read. rewrite Hscan, Hsegs', nth_error_middle.
    destruct (Z.leb_spec (Segment.nextOffset s0') offset); [lia|].
    destruct (Segment.Read s0' offset) as [r s'']. reflexivity. }
  split; [assumption|]. split.
  - intros rec l'' ER. rewrite Hread in ER.
    destruct (Segment.Read s0' offset) as [r s''] eqn:ES.
    cbn [fst] in ER. inversion ER; subst.
    apply (Honly rec s'' eq_refl).
  - intros Hopen Hroom. rewrite Hread. cbn [fst]. apply Hdoes; assumption.
Qed.

Lemma log_append_then_read_witness :
  fst (@Log.Read plain_codec log_two 1) = Ok (mkRecord hello 1).
Proof.
  refine (proj2 (proj2 (@log_append_then_read plain_codec
            log_one log_two (mkRecord hello 0) 1 None 0%nat
            (nth 0 (Log.segments log_one) segment_zero)
            _ _ _ _ _ _ _ _)) _ _).
  - vm_compute. auto.
  - repeat constructor; vm_compute; discriminate.
  - exists [], (nth 0 (Log.segments log_one) segment_zero).
    split; vm_compute; reflexivity.
  - vm_compute. reflexivity.
  - vm_compute. reflexivity.
  - unfold segment_ok, Store.tracks, Index.whole, Index.count.
    repeat split; vm_compute; try reflexivity; discriminate.
  - intros p Hp. vm_compute in Hp. inversion Hp; subst p. split.
    + vm_compute. discriminate.
    + eexists. split; reflexivity.
  - vm_compute. reflexivity.
  - vm_compute. reflexivity.
  - intros p Hp. vm_compute in Hp. inversion Hp; subst p.
    vm_compute. discriminate.
Defined.
